(** * ghost-canvas: the document state engine

    A shallow embedding of the state manager ([StateManager]), of the
    split-file snapshot codec and of the debounced writer
    ([DebouncedWriter]), with the properties the design specification
    states about them; then the viewer's handling of the deltas, the
    queries, the registry of projects, the token tool and the renderer's
    escaping, with further properties read off the code.

    Conventions of the embedding.
    - A JavaScript string is its sequence of UTF-16 code units, [list N].
    - A plain object used as a dictionary ([elements], [styles],
      [designTokens], attribute and property bags) is the [gmap] of its
      own keys, and a loop over [Object.entries] whose turns do not depend
      on each other is a map or a filter.  The [pages] object is kept as
      an association list in enumeration order, because [deletePage] reads
      [Object.keys(pages)[0]].
    - A read [obj[k]] also finds the names every object inherits from
      [Object.prototype] ([inheritedName]: [constructor], [toString] and
      the like).  Where a call reads an object through an identifier
      handed to it, the model gives the entry when [k] is a key, takes the
      branch of the missing entry when [k] is neither a key nor an
      inherited name, and gives the call no outcome when [k] is an
      inherited name only: the code then goes on with a function in the
      place of an element, a page or a rule.  The identifiers stored in
      the document ([parentId], [children], [rootId], [pageId]) are taken
      to be keys of the object they point into, or names it does not
      inherit.  The name [__proto__] is taken never to be a key: an
      assignment to it creates none, and replaces the prototype.
    - Every object stored in the element map is reached through one key
      only (they come from [JSON.parse], the schema parser or
      [structuredClone]), so an in-place mutation of [elements[k]] is an
      update of the map at [k], applied in program order.
    - A thrown [Error] keeps the state reached at the throw.  Errors whose
      message says "not found" are [NotFound], those starting with
      "Cannot" are [InvalidOperation]; the engine throws no other error
      of its own.  A [TypeError] or a [RangeError] of the language is no
      outcome of the model.
    - The recursive walks are bounded by the depth the call stack allows;
      a deeper walk ends in a [RangeError] that can leave a part of it
      done, and is not followed further.
    - The pages directory is a flat map from file names to files: a page
      identifier is taken to be a plain file name, and the file system to
      keep apart names that differ.
    - [undefined] and [null] are one value where the code cannot tell
      them apart ([parentId]); numbers ([insertIndex], viewport sizes) are
      integers. *)

From Stdlib Require Import ZArith NArith Ascii String.
From stdpp Require Import gmap strings list fin_maps pretty.

(** ** JavaScript strings *)

Abbreviation jsstring := (list N).

Section Strings.
Local Open Scope N_scope.

(** [js "abc"] is the string literal ['abc'] (one unit per character). *)
Definition js (s : string) : jsstring :=
  (λ a, N_of_ascii a) <$> list_ascii_of_string s.

(** Truthiness of a string value: only the empty string is falsy. *)
Definition truthy (s : jsstring) : bool :=
  match s with [] => false | _ => true end.

(** [s.startsWith(pat)] at the head of [s]. *)
Fixpoint startsWith (s pat : jsstring) {struct pat} : bool :=
  match pat, s with
  | [], _ => true
  | p :: pat', c :: s' => (p =? c) && startsWith s' pat'
  | _ :: _, [] => false
  end.

(** [s.includes(pat)]. *)
Fixpoint includes (s pat : jsstring) : bool :=
  startsWith s pat ||
  match s with
  | [] => false
  | _ :: s' => includes s' pat
  end.

(** ** decodeUnicodeEscapes *)

Definition inRange (lo hi c : N) : bool := (lo <=? c) && (c <=? hi).

(** The class [[0-9a-fA-F]], with the digit's value. *)
Definition hexDigit (c : N) : option N :=
  if inRange 48 57 c then Some (c - 48)
  else if inRange 65 70 c then Some (c - 55)
  else if inRange 97 102 c then Some (c - 87)
  else None.

(** The digits of the class, spelled out: [d] is the value of the
    hexadecimal digit [h], one of 0 to 9 (the units 48 to 57), A to F (65
    to 70) and a to f (97 to 102). *)
Definition hexDigitValue (h d : N) : Prop :=
  (48 ≤ h ≤ 57 ∧ d = h - 48) ∨
  (65 ≤ h ≤ 70 ∧ d = h - 55) ∨
  (97 ≤ h ≤ 102 ∧ d = h - 87).

(** [parseInt(hex, 16)] on four hexadecimal digits. *)
Definition parseHex4 (a b c d : N) : option N :=
  match hexDigit a, hexDigit b, hexDigit c, hexDigit d with
  | Some x, Some y, Some z, Some w => Some (((x * 16 + y) * 16 + z) * 16 + w)
  | _, _, _, _ => None
  end.

(** The pattern [/\\u([0-9a-fA-F]{4})/] on six consecutive units; the
    result is the unit [String.fromCharCode] builds. *)
Definition escapeCode (c0 c1 a b c d : N) : option N :=
  if (c0 =? 92) && (c1 =? 117) then parseHex4 a b c d else None.

(** [str.replace(/\\u([0-9a-fA-F]{4})/g, ...)]: the matches are taken
    from left to right, each search resuming after the previous match. *)
Fixpoint replaceEscapes (s : jsstring) : jsstring :=
  match s with
  | [] => []
  | c0 :: s1 =>
      match s1 with
      | c1 :: a :: b :: c :: d :: rest =>
          match escapeCode c0 c1 a b c d with
          | Some ch => ch :: replaceEscapes rest
          | None => c0 :: replaceEscapes s1
          end
      | _ => c0 :: replaceEscapes s1
      end
  end.

(** The value a caller may pass for an optional, nullable string. *)
Inductive optstr :=
| Undefined
| Null
| Str (s : jsstring).

Definition decodeUnicodeEscapes (str : optstr) : optstr :=
  match str with
  | Str s =>
      if negb (truthy s) || negb (includes s (js "\u")) then str
      else Str (replaceEscapes s)
  | _ => str
  end.

(** [v || null] for such a value. *)
Definition orNull (v : optstr) : option jsstring :=
  match v with
  | Str s => if truthy s then Some s else None
  | _ => None
  end.

(** The value stored by an assignment of a defined value. *)
Definition nullable (v : optstr) : option jsstring :=
  match v with
  | Str s => Some s
  | _ => None
  end.


(** ** The word-boundary pattern of token propagation *)

(** The class [[a-zA-Z0-9]] of the lookahead, and [[a-zA-Z0-9#]] of the
    lookbehind. *)
Definition isAlnum (c : N) : bool :=
  inRange 48 57 c || inRange 65 90 c || inRange 97 122 c.

Definition isAlnumHash (c : N) : bool := isAlnum c || (c =? 35).

(** The class [[.*+?^${}()|[\]\\]] of the escaping step. *)
Definition isRegexMeta (c : N) : bool :=
  bool_decide (c ∈ [46; 42; 43; 63; 94; 36; 123; 125; 40; 41; 124; 91; 93; 92]).

(** [oldValue.replace(/[.*+?^${}()|[\]\\]/g, '\\$&')] *)
Definition escapeRegex (s : jsstring) : jsstring :=
  s ≫= λ c, if isRegexMeta c then [92; c] else [c].

(** A pattern source made of atoms, each a plain unit or a backslash and
    the unit it escapes, matched at the head of [s]; the result is what
    follows the match. *)
Fixpoint matchAtoms (pat s : jsstring) : option jsstring :=
  match pat with
  | [] => Some s
  | p :: pat1 =>
      if p =? 92 then
        match pat1 with
        | q :: pat2 =>
            match s with
            | c :: s' => if q =? c then matchAtoms pat2 s' else None
            | [] => None
            end
        | [] => None
        end
      else
        match s with
        | c :: s' => if p =? c then matchAtoms pat1 s' else None
        | [] => None
        end
  end.

(** [$$], [$&], [$`] and [$'] in a replacement string; the pattern has no
    capture group, so every other [$] stands for itself. *)
Fixpoint getSubstitution (matched pre post templ : jsstring) : jsstring :=
  match templ with
  | [] => []
  | c :: t =>
      if c =? 36 then
        match t with
        | d :: t' =>
            if d =? 36 then 36 :: getSubstitution matched pre post t'
            else if d =? 38 then matched ++ getSubstitution matched pre post t'
            else if d =? 96 then pre ++ getSubstitution matched pre post t'
            else if d =? 39 then post ++ getSubstitution matched pre post t'
            else c :: getSubstitution matched pre post t
        | [] => [c]
        end
      else c :: getSubstitution matched pre post t
  end.

End Strings.

(** [(?<![a-zA-Z0-9#])] at index [i] of [s]. *)
Definition lookbehindOk (s : jsstring) (i : nat) : bool :=
  match i with
  | O => true
  | S j => negb (from_option isAlnumHash false (s !! j))
  end.

(** [(?![a-zA-Z0-9])] at index [e] of [s]. *)
Definition lookaheadOk (s : jsstring) (e : nat) : bool :=
  negb (from_option isAlnum false (s !! e)).

(** One attempt of [(?<![a-zA-Z0-9#])<escaped>(?![a-zA-Z0-9])] at index
    [i]; the result is the end index of the match. *)
Definition matchAt (escaped s : jsstring) (i : nat) : option nat :=
  if lookbehindOk s i then
    match matchAtoms escaped (drop i s) with
    | Some rest =>
        let e := length s - length rest in
        if lookaheadOk s e then Some e else None
    | None => None
    end
  else None.

(** The search of [exec]: the first index from [i] on, among [n]
    candidates, at which the pattern matches. *)
Fixpoint execFrom (escaped s : jsstring) (n i : nat) : option (nat * nat) :=
  match n with
  | O => None
  | S n' =>
      match matchAt escaped s i with
      | Some e => Some (i, e)
      | None => execFrom escaped s n' (S i)
      end
  end.

(** [regex.exec(s)] with [regex.lastIndex = lastIndex]: start and end
    index of the match. *)
Definition regexExec (escaped s : jsstring) (lastIndex : nat) : option (nat * nat) :=
  execFrom escaped s (S (length s) - lastIndex) lastIndex.

(** [regex.lastIndex = 0; regex.test(s)] *)
Definition regexTest (escaped s : jsstring) : bool :=
  bool_decide (is_Some (regexExec escaped s 0)).

(** The loop of [s.replace(regex, newValue)] for a global pattern: after
    an empty match the search resumes one unit further. *)
Fixpoint replaceLoop (escaped newValue s : jsstring)
    (fuel lastIndex nextSourcePosition : nat) : jsstring :=
  match fuel with
  | O => drop nextSourcePosition s
  | S fuel' =>
      match regexExec escaped s lastIndex with
      | None => drop nextSourcePosition s
      | Some (position, e) =>
          let matched := take (e - position) (drop position s) in
          let lastIndex' := if decide (e = position) then S e else e in
          take (position - nextSourcePosition) (drop nextSourcePosition s)
            ++ getSubstitution matched (take position s) (drop e s) newValue
            ++ replaceLoop escaped newValue s fuel' lastIndex' e
      end
  end.

(** [regex.lastIndex = 0; s.replace(regex, newValue)] *)
Definition regexReplace (escaped newValue s : jsstring) : jsstring :=
  replaceLoop escaped newValue s (S (length s)) 0 0.

(** The inner loop body of [updateTokenWithPropagation] on one value. *)
Definition propagateValue (oldValue newValue val : jsstring) : jsstring :=
  let escaped := escapeRegex oldValue in
  if regexTest escaped val then regexReplace escaped newValue val else val.

(** ** Arrays and objects *)

(** The index [Array.prototype.splice] starts at, for an array of length
    [len] and an integral [start]: a negative [start] counts from the end,
    and the result is clamped to [0 .. len]. *)
Definition spliceStart (len : nat) (start : Z) : nat :=
  if (start <? 0)%Z then Z.to_nat (Z.max (Z.of_nat len + start) 0)
  else Z.to_nat (Z.min start (Z.of_nat len)).

(** [arr.splice(start, 0, x)] *)
Definition spliceInsert {A} (arr : list A) (start : Z) (x : A) : list A :=
  let k := spliceStart (length arr) start in
  take k arr ++ x :: drop k arr.

(** The insertion shared by [createElement] and [moveElement]:
    [splice] when [insertIndex] is neither [undefined] nor [null], [push]
    otherwise. *)
Definition insertChild (children : list jsstring) (insertIndex : option Z)
    (id : jsstring) : list jsstring :=
  match insertIndex with
  | Some i => spliceInsert children i id
  | None => children ++ [id]
  end.

(** An object whose enumeration order is observed: its own entries, in
    the order of [Object.entries]. *)
Abbreviation object V := (list (jsstring * V)).

Definition objKeys {V} (o : object V) : list jsstring := o.*1.

Fixpoint objGet {V} (o : object V) (k : jsstring) : option V :=
  match o with
  | [] => None
  | (k', v) :: o' => if decide (k' = k) then Some v else objGet o' k
  end.

(** [o[k] = v]: an existing key keeps its place, a new one comes last. *)
Fixpoint objSet {V} (o : object V) (k : jsstring) (v : V) : object V :=
  match o with
  | [] => [(k, v)]
  | (k', v') :: o' =>
      if decide (k' = k) then (k, v) :: o' else (k', v') :: objSet o' k v
  end.

(** [delete o[k]] *)
Definition objDelete {V} (o : object V) (k : jsstring) : object V :=
  filter (λ kv, kv.1 ≠ k) o.

(** ** The data model (schema.js) *)

Abbreviation props := (gmap jsstring jsstring).
Abbreviation stylesheet := (gmap jsstring (gmap jsstring jsstring)).

Record Element := mkElement {
  el_id : jsstring;
  el_tag : jsstring;
  el_classes : list jsstring;
  el_attributes : props;
  el_textContent : option jsstring;
  el_children : list jsstring;
  el_parentId : option jsstring;
  el_pageId : jsstring;
}.

Record Viewport := mkViewport {
  vp_device : jsstring;
  vp_width : Z;
  vp_height : Z;
}.

Record Project := mkProject {
  pr_name : jsstring;
  pr_activePageId : jsstring;
  pr_viewport : Viewport;
  pr_designType : jsstring;
}.

(** [rootId] is [None] when the property holds [undefined], which
    [clonePage] stores for a source page whose root is not among its
    elements. *)
Record Page := mkPage {
  pg_id : jsstring;
  pg_name : jsstring;
  pg_rootId : option jsstring;
  pg_styles : stylesheet;
}.

Record DesignState := mkState {
  project : Project;
  pages : object Page;
  elements : gmap jsstring Element;
  styles : stylesheet;
  designTokens : gmap jsstring props;
}.

Definition DESIGN_TYPES : list jsstring :=
  [js "responsive-web"; js "mobile-app"; js "tablet-app"; js "desktop-app"].

Definition createDefaultState : DesignState :=
  {| project :=
       {| pr_name := js "Untitled Design";
          pr_activePageId := js "page-1";
          pr_viewport := mkViewport (js "desktop") 1440 900;
          pr_designType := js "responsive-web" |};
     pages :=
       [(js "page-1", mkPage (js "page-1") (js "Home") (Some (js "root-1")) ∅)];
     elements :=
       {[ js "root-1" :=
            mkElement (js "root-1") (js "div") [js "page-root"] ∅ None []
              None (js "page-1") ]};
     styles :=
       {[ js ".page-root" :=
            {[ js "min-height" := js "100vh"; js "position" := js "relative" ]} ]};
     designTokens := {[ js "colors" := ∅; js "fonts" := ∅; js "spacing" := ∅ ]} |}.

(** Field updates. *)
Definition withChildren (ch : list jsstring) (e : Element) : Element :=
  mkElement (el_id e) (el_tag e) (el_classes e) (el_attributes e)
    (el_textContent e) ch (el_parentId e) (el_pageId e).

Definition withParentId (p : option jsstring) (e : Element) : Element :=
  mkElement (el_id e) (el_tag e) (el_classes e) (el_attributes e)
    (el_textContent e) (el_children e) p (el_pageId e).

Definition withPageId (p : jsstring) (e : Element) : Element :=
  mkElement (el_id e) (el_tag e) (el_classes e) (el_attributes e)
    (el_textContent e) (el_children e) (el_parentId e) p.

Definition withProject (p : Project) (s : DesignState) : DesignState :=
  mkState p (pages s) (elements s) (styles s) (designTokens s).

Definition withPages (p : object Page) (s : DesignState) : DesignState :=
  mkState (project s) p (elements s) (styles s) (designTokens s).

Definition withElements (els : gmap jsstring Element) (s : DesignState) : DesignState :=
  mkState (project s) (pages s) els (styles s) (designTokens s).

Definition withStyles (st : stylesheet) (s : DesignState) : DesignState :=
  mkState (project s) (pages s) (elements s) st (designTokens s).

Definition withTokens (t : gmap jsstring props) (s : DesignState) : DesignState :=
  mkState (project s) (pages s) (elements s) (styles s) t.

Definition withActivePageId (p : jsstring) (pr : Project) : Project :=
  mkProject (pr_name pr) p (pr_viewport pr) (pr_designType pr).

Definition withViewport (v : Viewport) (pr : Project) : Project :=
  mkProject (pr_name pr) (pr_activePageId pr) v (pr_designType pr).

Definition withDesignType (d : jsstring) (pr : Project) : Project :=
  mkProject (pr_name pr) (pr_activePageId pr) (pr_viewport pr) d.

(** [!element.parentId] is false for a non-empty string only. *)
Definition truthyId (p : option jsstring) : bool :=
  match p with
  | Some s => truthy s
  | None => false
  end.

(** ** Dirty tracking and delta events *)

Record Dirty := mkDirty {
  d_project : bool;
  d_styles : bool;
  d_pages : gset jsstring;
  d_deletedPages : gset jsstring;
}.

Definition cleanDirty : Dirty := mkDirty false false ∅ ∅.

(** The [changes] object of an update delta. *)
Record Changes := mkChanges {
  ch_tag : option jsstring;
  ch_classes : option (list jsstring);
  ch_attributes : option props;
  ch_textContent : option (option jsstring);
}.

Inductive Delta :=
| ElementCreated (element : Element) (parentId : jsstring) (insertIndex : option Z)
| ElementUpdated (id : jsstring) (changes : Changes)
| ElementDeleted (id : jsstring) (parentId : option jsstring)
| ElementMoved (id : jsstring) (oldParentId : option jsstring)
    (newParentId : jsstring) (insertIndex : option Z)
| DesignFull (snapshot : DesignState)
| PageCreated (page : Page) (rootElement : Element)
| PageDeleted (pageId : jsstring) (newActivePageId : option jsstring)
| PageRenamed (pageId name : jsstring)
| PageActivated (pageId : jsstring)
| StylesSet (selector : jsstring) (properties : props)
| StylesBatch (changed : stylesheet)
| StylesDeleted (selector : jsstring)
| TokensSet (category : jsstring) (tokens : props)
| ProjectDesignType (designType : jsstring)
| ViewportSet (viewport : Viewport).

(** The state manager: the document, the dirty flags, the deltas emitted
    so far (oldest first) and the number of identifiers drawn. *)
Record Manager := mkManager {
  state : DesignState;
  dirty : Dirty;
  emitted : list Delta;
  drawn : nat;
}.

(** [isDirty()] *)
Definition isDirty (d : Dirty) : bool :=
  d_project d || d_styles d
  || bool_decide (d_pages d ≠ ∅) || bool_decide (d_deletedPages d ≠ ∅).

(** ** Actions of the manager

    A call returns a value or throws; both leave a manager behind.  [None]
    stands for a call the model does not follow to its end: a recursion
    deeper than the call stack allows, or a read that finds a property the
    object inherits. *)

Inductive error := NotFound | InvalidOperation.

Inductive outcome (A : Type) :=
| Returned (a : A)
| Thrown (e : error).
Arguments Returned {A} a.
Arguments Thrown {A} e.

Definition action (A : Type) : Type := Manager → option (outcome A * Manager).

Definition ret {A} (a : A) : action A := λ m, Some (Returned a, m).

Definition throw {A} (e : error) : action A := λ m, Some (Thrown e, m).

Definition overflow {A} : action A := λ _, None.

Definition bind {A B} (x : action A) (k : A → action B) : action B :=
  λ m,
    match x m with
    | Some (Returned a, m') => k a m'
    | Some (Thrown e, m') => Some (Thrown e, m')
    | None => None
    end.

Declare Scope action_scope.
Delimit Scope action_scope with action.
Notation "'let*' x ':=' a 'in' k" := (bind a (λ x, k))
  (at level 10, x name, a at level 100, k at level 200) : action_scope.
Notation "a ';;' k" := (bind a (λ _, k))
  (at level 100, k at level 200, right associativity) : action_scope.

Definition getState : action DesignState := λ m, Some (Returned (state m), m).

Definition modifyState (f : DesignState → DesignState) : action unit :=
  λ m, Some (Returned (), mkManager (f (state m)) (dirty m) (emitted m) (drawn m)).

Definition modifyDirty (f : Dirty → Dirty) : action unit :=
  λ m, Some (Returned (), mkManager (state m) (f (dirty m)) (emitted m) (drawn m)).

(** [this.emit('delta', d)] *)
Definition emit (d : Delta) : action unit :=
  λ m, Some (Returned (), mkManager (state m) (dirty m) (emitted m ++ [d]) (drawn m)).

(** [this.dirty.pages.add(p)] and its siblings. *)
Definition markPage (p : jsstring) : action unit :=
  modifyDirty (λ d, mkDirty (d_project d) (d_styles d) ({[p]} ∪ d_pages d) (d_deletedPages d)).

Definition markDeletedPage (p : jsstring) : action unit :=
  modifyDirty (λ d, mkDirty (d_project d) (d_styles d) (d_pages d) ({[p]} ∪ d_deletedPages d)).

Definition markProject : action unit :=
  modifyDirty (λ d, mkDirty true (d_styles d) (d_pages d) (d_deletedPages d)).

Definition markStyles : action unit :=
  modifyDirty (λ d, mkDirty (d_project d) true (d_pages d) (d_deletedPages d)).

(** The names a plain object inherits from [Object.prototype]: [obj[k]]
    and [k in obj] find a property under such a name although [k] is no
    key of [obj]. *)
Definition objectPrototypeNames : list jsstring :=
  [js "constructor"; js "hasOwnProperty"; js "isPrototypeOf";
   js "propertyIsEnumerable"; js "toLocaleString"; js "toString";
   js "valueOf"; js "__proto__"; js "__defineGetter__";
   js "__defineSetter__"; js "__lookupGetter__"; js "__lookupSetter__"].

Definition inheritedName (k : jsstring) : bool :=
  bool_decide (k ∈ objectPrototypeNames).
Arguments inheritedName : simpl never.

(** The code goes on with a value that is no part of the document (a
    function of [Object.prototype], or that object itself): what it does
    then, a [TypeError] after a partial update or a return, is not
    followed. *)
Definition unmodelled {A} : action A := λ _, None.

(** [const x = obj[k]; if (!x) throw new Error('... not found')] for an
    identifier [k] handed to the call, [own] being the entry of [obj]
    under the key [k]. *)
Definition found {A} (k : jsstring) (own : option A) : action A :=
  match own with
  | Some a => ret a
  | None => if inheritedName k then unmodelled else throw NotFound
  end.

(** A recursive walk that may exhaust the stack: the [RangeError] then
    thrown, and the part of the walk done before it, are not followed. *)
Definition orOverflow {A} (o : option A) : action A :=
  match o with
  | Some a => ret a
  | None => overflow
  end.

(** ** Element operations *)

Section Engine.

(** [nanoid n] is the [n]-th identifier [nanoid(8)] hands out, and [stack]
    the depth of recursion the call stack allows. *)
Variable nanoid : nat → jsstring.
Variable stack : nat.

Local Open Scope action_scope.

(** [generateId()] *)
Definition generateId : action jsstring :=
  λ m, Some (Returned (nanoid (drawn m)),
             mkManager (state m) (dirty m) (emitted m) (S (drawn m))).

(** The parameters of [createElement]; an absent [classes] or
    [attributes] is [None]. *)
Record CreateParams := mkCreate {
  cp_tag : jsstring;
  cp_parentId : jsstring;
  cp_classes : option (list jsstring);
  cp_attributes : option props;
  cp_textContent : optstr;
  cp_insertIndex : option Z;
}.

Definition createElement (p : CreateParams) : action Element :=
  let* st := getState in
  let* parent := found (cp_parentId p) (elements st !! cp_parentId p) in
  let* id := generateId in
  let element :=
    {| el_id := id;
       el_tag := cp_tag p;
       el_classes := default [] (cp_classes p);
       el_attributes := default ∅ (cp_attributes p);
       el_textContent := orNull (decodeUnicodeEscapes (cp_textContent p));
       el_children := [];
       el_parentId := Some (cp_parentId p);
       el_pageId := el_pageId parent |} in
  modifyState (λ s, withElements (<[id := element]> (elements s)) s);;
  (* [parent] is the object read above: when the new identifier is the
     parent's own key, that object is no longer in the map. *)
  (if decide (id = cp_parentId p) then ret ()
   else
     modifyState (λ s,
       withElements
         (<[cp_parentId p :=
              withChildren (insertChild (el_children parent) (cp_insertIndex p) id) parent]>
            (elements s)) s));;
  markPage (el_pageId parent);;
  emit (ElementCreated element (cp_parentId p) (cp_insertIndex p));;
  ret element.

Record UpdateParams := mkUpdate {
  up_id : jsstring;
  up_tag : option jsstring;
  up_classes : option (list jsstring);
  up_attributes : option props;
  up_textContent : optstr;
}.

(** The decoded text of an update, when [textContent] is defined. *)
Definition updatedText (t : optstr) : option (option jsstring) :=
  match t with
  | Undefined => None
  | _ => Some (nullable (decodeUnicodeEscapes t))
  end.

Definition updateElement (p : UpdateParams) : action Element :=
  let* st := getState in
  let* element := found (up_id p) (elements st !! up_id p) in
  let attributes :=
    match up_attributes p with
    | Some a => a ∪ el_attributes element
    | None => el_attributes element
    end in
  let element' :=
    {| el_id := el_id element;
       el_tag := default (el_tag element) (up_tag p);
       el_classes := default (el_classes element) (up_classes p);
       el_attributes := attributes;
       el_textContent :=
         default (el_textContent element) (updatedText (up_textContent p));
       el_children := el_children element;
       el_parentId := el_parentId element;
       el_pageId := el_pageId element |} in
  let changes :=
    {| ch_tag := up_tag p;
       ch_classes := up_classes p;
       ch_attributes := (λ _, attributes) <$> up_attributes p;
       ch_textContent := updatedText (up_textContent p) |} in
  modifyState (λ s, withElements (<[up_id p := element']> (elements s)) s);;
  markPage (el_pageId element);;
  emit (ElementUpdated (up_id p) changes);;
  ret element'.

(** [_deleteRecursive(id)]: the children first, then the node. *)
Fixpoint deleteRecursive (fuel : nat) (id : jsstring)
    (els : gmap jsstring Element) : option (gmap jsstring Element) :=
  match els !! id with
  | None => Some els
  | Some element =>
      match fuel with
      | O => None
      | S fuel' =>
          delete id <$>
            foldl (λ acc childId, acc ≫= deleteRecursive fuel' childId)
              (Some els) (el_children element)
      end
  end.

Definition deleteElement (id : jsstring) : action unit :=
  let* st := getState in
  let* element := found id (elements st !! id) in
  if negb (truthyId (el_parentId element)) then throw InvalidOperation
  else
    let parentId := el_parentId element in
    let pageId := el_pageId element in
    let* els := orOverflow (deleteRecursive stack id (elements st)) in
    modifyState (withElements
      (match parentId with
       | Some pid =>
           alter (λ parent,
             withChildren (filter (λ cid, cid ≠ id) (el_children parent)) parent)
             pid els
       | None => els
       end));;
    markPage pageId;;
    emit (ElementDeleted id parentId).

(** [_updatePageId(id, pageId)] *)
Fixpoint updatePageId (fuel : nat) (id pageId : jsstring)
    (els : gmap jsstring Element) : option (gmap jsstring Element) :=
  match els !! id with
  | None => Some els
  | Some element =>
      match fuel with
      | O => None
      | S fuel' =>
          foldl (λ acc childId, acc ≫= updatePageId fuel' childId pageId)
            (Some (<[id := withPageId pageId element]> els))
            (el_children element)
      end
  end.

Definition moveElement (id newParentId : jsstring) (insertIndex : option Z)
    : action Element :=
  let* st := getState in
  let* element := found id (elements st !! id) in
  if negb (truthyId (el_parentId element)) then throw InvalidOperation
  else
    let* newParent := found newParentId (elements st !! newParentId) in
    let oldParentId := el_parentId element in
    (* Remove from old parent *)
    let els1 :=
      match oldParentId with
      | Some pid =>
          alter (λ oldParent,
            withChildren (filter (λ cid, cid ≠ id) (el_children oldParent)) oldParent)
            pid (elements st)
      | None => elements st
      end in
    (* Add to new parent *)
    let els2 := alter (withParentId (Some newParentId)) id els1 in
    let els3 :=
      alter (λ np, withChildren (insertChild (el_children np) insertIndex id) np)
        newParentId els2 in
    (* Update pageId recursively if moved to different page *)
    let oldPageId := el_pageId element in
    let newPageId := el_pageId newParent in
    let* els4 :=
      (if decide (oldPageId = newPageId) then ret els3
       else orOverflow (updatePageId stack id newPageId els3)) in
    modifyState (withElements els4);;
    markPage oldPageId;;
    (if decide (oldPageId = newPageId) then ret () else markPage newPageId);;
    emit (ElementMoved id oldParentId newParentId insertIndex);;
    ret (default element (els4 !! id)).

(** A nested definition handed to [createElementTree]. *)
#[local] Set Warnings "-register-all".
Inductive ElementDef :=
| mkDef (tag : jsstring) (classes : option (list jsstring))
    (attributes : option props) (textContent : optstr)
    (children : list ElementDef).

(** One turn of the loop of [createRecursive]: the node for [def] under
    [pid], then its children under it.  The state is the element map and
    the number of identifiers drawn. *)
Fixpoint createDef (pageId : jsstring) (def : ElementDef) (pid : jsstring)
    (s : gmap jsstring Element * nat) : gmap jsstring Element * nat * jsstring :=
  match def with
  | mkDef tag classes attributes textContent children =>
      let id := nanoid s.2 in
      let element :=
        {| el_id := id;
           el_tag := tag;
           el_classes := default [] classes;
           el_attributes := default ∅ attributes;
           el_textContent := orNull (decodeUnicodeEscapes textContent);
           el_children := [];
           el_parentId := Some pid;
           el_pageId := pageId |} in
      let els1 := <[id := element]> s.1 in
      let els2 := alter (λ e, withChildren (el_children e ++ [id]) e) pid els1 in
      ((fix createChildren (defs : list ElementDef)
            (s : gmap jsstring Element * nat) : gmap jsstring Element * nat :=
          match defs with
          | [] => s
          | d :: defs' => createChildren defs' (createDef pageId d id s).1
          end) children (els2, S s.2),
       id)
  end.

(** [createRecursive(pid, defs, pageId)]: the final state and the
    identifiers of the nodes created for [defs]. *)
Fixpoint createRecursive (pid : jsstring) (defs : list ElementDef)
    (pageId : jsstring) (s : gmap jsstring Element * nat)
    : gmap jsstring Element * nat * list jsstring :=
  match defs with
  | [] => (s, [])
  | d :: defs' =>
      let r := createDef pageId d pid s in
      let r' := createRecursive pid defs' pageId r.1 in
      (r'.1, r.2 :: r'.2)
  end.

(** [createElementTree(parentId, elements)]: the count and the top
    identifiers. *)
Definition createElementTree (parentId : jsstring) (defs : list ElementDef)
    : action (nat * list jsstring) :=
  let* st := getState in
  let* parent := found parentId (elements st !! parentId) in
  λ m,
    let r := createRecursive parentId defs (el_pageId parent)
               (elements (state m), drawn m) in
    let m1 := mkManager (withElements r.1.1 (state m)) (dirty m) (emitted m) r.1.2 in
    (markPage (el_pageId parent);;
     let* snapshot := getState in
     emit (DesignFull snapshot);;
     ret (r.1.2 - drawn m, r.2)) m1.

(** ** Page operations *)

Definition createPage (name : jsstring) : action Page :=
  let* rawPage := generateId in
  let* rawRoot := generateId in
  let pageId := js "page-" ++ rawPage in
  let rootId := js "root-" ++ rawRoot in
  let page := mkPage pageId name (Some rootId) ∅ in
  let rootElement :=
    mkElement rootId (js "div") [js "page-root"] ∅ None [] None pageId in
  modifyState (λ s, withPages (objSet (pages s) pageId page) s);;
  modifyState (λ s, withElements (<[rootId := rootElement]> (elements s)) s);;
  markPage pageId;;
  emit (PageCreated page rootElement);;
  ret page.

(** The first loop of [clonePage]: a fresh identifier for every element of
    the source page, drawn in the order the entries are listed.  The code
    lists them in the order of their insertion into the element object,
    [clonePage] below in the order of the map: which of the identifiers
    drawn a copy receives is therefore not what the model tells, and the
    properties of [clonePage] hold of whatever identifier map results. *)
Fixpoint cloneIds (rootId : option jsstring) (n : nat)
    (entries : list (jsstring * Element)) : list (jsstring * jsstring) :=
  match entries with
  | [] => []
  | (id, _) :: entries' =>
      (id, if decide (Some id = rootId) then js "root-" ++ nanoid n else nanoid n)
        :: cloneIds rootId (S n) entries'
  end.

(** [Map.prototype.get] on the identifier map. *)
Definition idMapGet (idMap : list (jsstring * jsstring)) (k : jsstring)
    : option jsstring :=
  objGet idMap k.

(** The second loop of [clonePage]. *)
Definition cloneElements (pageId : jsstring) (idMap : list (jsstring * jsstring))
    (els : gmap jsstring Element) : gmap jsstring Element :=
  foldl (λ els p,
    match els !! p.1 with
    | Some src =>
        <[p.2 :=
            {| el_id := p.2;
               el_tag := el_tag src;
               el_classes := el_classes src;
               el_attributes := el_attributes src;
               el_textContent := el_textContent src;
               el_children :=
                 filter (λ c, truthy c = true)
                   (omap (idMapGet idMap) (el_children src));
               el_parentId :=
                 if truthyId (el_parentId src)
                 then el_parentId src ≫= idMapGet idMap
                 else None;
               el_pageId := pageId |}]> els
    | None => els
    end) els idMap.

Definition clonePage (sourcePageId newName : jsstring) : action Page :=
  let* st := getState in
  let* sourcePage := found sourcePageId (objGet (pages st) sourcePageId) in
  let* rawPage := generateId in
  let pageId := js "page-" ++ rawPage in
  λ m,
    let entries :=
      filter (λ kv, el_pageId kv.2 = sourcePageId)
        (map_to_list (elements (state m))) in
    let idMap := cloneIds (pg_rootId sourcePage) (drawn m) entries in
    let page :=
      mkPage pageId newName (pg_rootId sourcePage ≫= idMapGet idMap)
        (pg_styles sourcePage) in
    let st' :=
      withPages (objSet (pages (state m)) pageId page)
        (withElements (cloneElements pageId idMap (elements (state m))) (state m)) in
    let m1 := mkManager st' (dirty m) (emitted m) (drawn m + length entries) in
    (markPage pageId;;
     let* snapshot := getState in
     emit (DesignFull snapshot);;
     ret page) m1.

Definition deletePage (pageId : jsstring) : action unit :=
  let* st := getState in
  let* page := found pageId (objGet (pages st) pageId) in
  if bool_decide (length (objKeys (pages st)) ≤ 1) then throw InvalidOperation
  else
    (* Delete all elements belonging to this page *)
    modifyState (λ s,
      withElements (filter (λ kv, el_pageId kv.2 ≠ pageId) (elements s)) s);;
    modifyState (λ s, withPages (objDelete (pages s) pageId) s);;
    (* Switch active page if needed *)
    let* st1 := getState in
    let* newActivePageId :=
      (if decide (pr_activePageId (project st1) = pageId) then
         let first := default [] (head (objKeys (pages st1))) in
         modifyState (λ s, withProject (withActivePageId first (project s)) s);;
         markProject;;
         ret (Some first)
       else ret None) in
    markDeletedPage pageId;;
    emit (PageDeleted pageId newActivePageId).

Definition renamePage (pageId name : jsstring) : action Page :=
  let* st := getState in
  let* page := found pageId (objGet (pages st) pageId) in
  let page' := mkPage (pg_id page) name (pg_rootId page) (pg_styles page) in
  modifyState (λ s, withPages (objSet (pages s) pageId page') s);;
  markPage pageId;;
  emit (PageRenamed pageId name);;
  ret page'.

Definition setActivePage (pageId : jsstring) : action unit :=
  let* st := getState in
  let* _ := found pageId (objGet (pages st) pageId) in
  modifyState (λ s, withProject (withActivePageId pageId (project s)) s);;
  markProject;;
  emit (PageActivated pageId).

(** ** Style operations *)

(** [{ ...(styles[selector] || {}), ...properties }] *)
Definition mergedStyle (st : stylesheet) (selector : jsstring) (properties : props)
    : props :=
  properties ∪ default ∅ (st !! selector).

Definition setStyles (selector : jsstring) (properties : props) : action props :=
  let* st := getState in
  let merged := mergedStyle (styles st) selector properties in
  modifyState (λ s, withStyles (<[selector := merged]> (styles s)) s);;
  markStyles;;
  emit (StylesSet selector merged);;
  ret merged.

(** The loop of [batchSetStyles]: the style sheet and the [result]
    object. *)
Definition batchLoop (rules : list (jsstring * props)) (st : stylesheet)
    : stylesheet * stylesheet :=
  foldl (λ acc rule,
    let merged := mergedStyle acc.1 rule.1 rule.2 in
    (<[rule.1 := merged]> acc.1, <[rule.1 := merged]> acc.2))
    (st, ∅) rules.

Definition batchSetStyles (rules : list (jsstring * props)) : action stylesheet :=
  let* st := getState in
  let r := batchLoop rules (styles st) in
  modifyState (withStyles r.1);;
  markStyles;;
  emit (StylesBatch r.2);;
  ret r.2.

Definition deleteStyles (selector : jsstring) : action unit :=
  let* st := getState in
  let* _ := found selector (styles st !! selector) in
  modifyState (λ s, withStyles (delete selector (styles s)) s);;
  markStyles;;
  emit (StylesDeleted selector).

(** ** Design token operations *)

Definition setDesignTokens (category : jsstring) (tokens : props) : action props :=
  let* st := getState in
  let* existing :=
    match designTokens st !! category with
    | Some existing => ret existing
    | None => if inheritedName category then unmodelled else ret ∅
    end in
  let merged := tokens ∪ existing in
  modifyState (λ s, withTokens (<[category := merged]> (designTokens s)) s);;
  markProject;;
  emit (TokensSet category merged);;
  ret merged.

(** [regex.test(val)] somewhere in a rule: the rule is reported as
    changed. *)
Definition selectorChanged (oldValue : jsstring) (ps : props) : bool :=
  bool_decide (∃ prop val,
    ps !! prop = Some val ∧ regexTest (escapeRegex oldValue) val = true).

Definition updateTokenWithPropagation (category key newValue : jsstring)
    : action nat :=
  let* st := getState in
  (* [designTokens[category]?.[key]]: a category that is only an
     inherited name leads into a function of [Object.prototype]. *)
  let* oldValue :=
    match designTokens st !! category with
    | Some tokens => found key (tokens !! key)
    | None => if inheritedName category then unmodelled else throw NotFound
    end in
  if decide (oldValue = newValue) then ret 0
  else
    (* Scan all styles and replace old value with new value *)
    let changed := filter (λ kv, selectorChanged oldValue kv.2 = true) (styles st) in
    let rewrite := λ ps : props, propagateValue oldValue newValue <$> ps in
    let styles' := rewrite <$> styles st in
    let changedSelectors := rewrite <$> changed in
    let updatedStyles := size changed in
    modifyState (withStyles styles');;
    (* Update the token itself *)
    let tokens := <[key := newValue]> (default ∅ (designTokens st !! category)) in
    modifyState (λ s, withTokens (<[category := tokens]> (designTokens s)) s);;
    markProject;;
    emit (TokensSet category tokens);;
    (if bool_decide (0 < updatedStyles) then
       markStyles;;
       emit (StylesBatch changedSelectors)
     else ret ());;
    ret updatedStyles.

(** ** Design type and viewport *)

Definition setDesignType (designType : jsstring) : action jsstring :=
  modifyState (λ s, withProject (withDesignType designType (project s)) s);;
  markProject;;
  emit (ProjectDesignType designType);;
  ret designType.

Definition presets : object (Z * Z) :=
  [(js "mobile", (375, 812)%Z); (js "tablet", (768, 1024)%Z);
   (js "desktop", (1440, 900)%Z)].

(** [n || fallback] for an optional number. *)
Definition numberOr (n : option Z) (fallback : Z) : Z :=
  match n with
  | Some v => if decide (v = 0%Z) then fallback else v
  | None => fallback
  end.

(** A number that is given and truthy. *)
Definition truthyNumber (n : option Z) : option Z :=
  match n with
  | Some v => if decide (v = 0%Z) then None else Some v
  | None => None
  end.

Definition setViewport (device : option jsstring) (width height : option Z)
    : action Viewport :=
  let* st := getState in
  let current := pr_viewport (project st) in
  let preset := if truthyId device then device ≫= objGet presets else None in
  let* viewport :=
    match device, preset with
    | Some d, Some (w, h) =>
        ret (mkViewport d (numberOr width w) (numberOr height h))
    | _, _ =>
        if truthyId device && inheritedName (default [] device) then
          (* [presets[device]] is an inherited property, without [width]
             and [height]: a size not given is left [undefined]. *)
          match truthyNumber width, truthyNumber height with
          | Some w, Some h => ret (mkViewport (default [] device) w h)
          | _, _ => unmodelled
          end
        else
          ret (mkViewport (if truthyId device then default [] device else js "custom")
                 (numberOr width (vp_width current))
                 (numberOr height (vp_height current)))
    end in
  modifyState (λ s, withProject (withViewport viewport (project s)) s);;
  markProject;;
  emit (ViewportSet viewport);;
  ret viewport.

(** ** The mutating calls, as one type

    [perform] runs one call of the public interface and drops its result;
    it serves to state properties of every mutating call at once. *)

Inductive Op :=
| CreateElement (p : CreateParams)
| UpdateElement (p : UpdateParams)
| DeleteElement (id : jsstring)
| MoveElement (id newParentId : jsstring) (insertIndex : option Z)
| CreateElementTree (parentId : jsstring) (defs : list ElementDef)
| CreatePage (name : jsstring)
| ClonePage (sourcePageId newName : jsstring)
| DeletePage (pageId : jsstring)
| RenamePage (pageId name : jsstring)
| SetActivePage (pageId : jsstring)
| SetStyles (selector : jsstring) (properties : props)
| BatchSetStyles (rules : list (jsstring * props))
| DeleteStyles (selector : jsstring)
| SetDesignTokens (category : jsstring) (tokens : props)
| UpdateTokenWithPropagation (category key newValue : jsstring)
| SetDesignType (designType : jsstring)
| SetViewport (device : option jsstring) (width height : option Z).

Definition perform (op : Op) : action unit :=
  match op with
  | CreateElement p => createElement p;; ret ()
  | UpdateElement p => updateElement p;; ret ()
  | DeleteElement id => deleteElement id
  | MoveElement id newParentId insertIndex =>
      moveElement id newParentId insertIndex;; ret ()
  | CreateElementTree parentId defs => createElementTree parentId defs;; ret ()
  | CreatePage name => createPage name;; ret ()
  | ClonePage sourcePageId newName => clonePage sourcePageId newName;; ret ()
  | DeletePage pageId => deletePage pageId
  | RenamePage pageId name => renamePage pageId name;; ret ()
  | SetActivePage pageId => setActivePage pageId
  | SetStyles selector properties => setStyles selector properties;; ret ()
  | BatchSetStyles rules => batchSetStyles rules;; ret ()
  | DeleteStyles selector => deleteStyles selector
  | SetDesignTokens category tokens => setDesignTokens category tokens;; ret ()
  | UpdateTokenWithPropagation category key newValue =>
      updateTokenWithPropagation category key newValue;; ret ()
  | SetDesignType designType => setDesignType designType;; ret ()
  | SetViewport device width height => setViewport device width height;; ret ()
  end.

End Engine.

(** A persistence partition: the project file, the styles file, or the
    file of one page. *)
Inductive Partition :=
| ProjectPartition
| StylesPartition
| PagePartition (pageId : jsstring).

(** The partition is flagged in the dirty record; a page counts as
    flagged when it awaits a write or the removal of its file. *)
Definition flagged (d : Dirty) (p : Partition) : Prop :=
  match p with
  | ProjectPartition => d_project d = true
  | StylesPartition => d_styles d = true
  | PagePartition pageId => pageId ∈ d_pages d ∨ pageId ∈ d_deletedPages d
  end.

(** ** The split-file layout (_writeSplitFiles, _loadSplitFiles)

    A file holds the value [JSON.parse] reads back from it.  The pages
    directory is flat: a file name is a key, and names that differ in
    any unit are different files. *)

(** [project.json]: [{ ...project, designTokens }] *)
Record ProjectData := mkProjectData {
  pd_project : Project;
  pd_designTokens : gmap jsstring props;
}.

(** [pages/<id>.json]: [{ ...page, elements: pageElements }] *)
Record PageData := mkPageData {
  pgd_page : Page;
  pgd_elements : gmap jsstring Element;
}.

Record Disk := mkDisk {
  projectJson : option ProjectData;
  stylesJson : option stylesheet;
  pagesDir : gmap jsstring PageData;
}.

(** [`${pageId}.json`]: the entry of the pages directory that
    [pageFilePath(pageId)] names when [pageId] is a plain file name.  For
    another [pageId], [path.join] leads out of the directory, where the
    model does not follow. *)
Definition pageFileName (pageId : jsstring) : jsstring := pageId ++ js ".json".

(** A page identifier that names a file of its own in the pages
    directory: [path.join] reads the slash, and on some systems the
    backslash, as a separator, and a file name holds no unit 0. *)
Definition plainFileName (pageId : jsstring) : Prop :=
  (47%N ∉ pageId) ∧ (92%N ∉ pageId) ∧ (0%N ∉ pageId).

(** The elements a page file receives. *)
Definition pageElements (pageId : jsstring) (els : gmap jsstring Element)
    : gmap jsstring Element :=
  filter (λ kv, el_pageId kv.2 = pageId) els.

Definition writeSplitFiles (st : DesignState) (d : Disk) : Disk :=
  {| projectJson := Some (mkProjectData (project st) (designTokens st));
     stylesJson := Some (styles st);
     pagesDir :=
       foldl (λ dir kv,
                <[pageFileName kv.1 :=
                    mkPageData kv.2 (pageElements kv.1 (elements st))]> dir)
         (pagesDir d) (pages st) |}.

(** [f.endsWith('.json')] *)
Definition endsWithJson (f : jsstring) : bool :=
  bool_decide (js ".json" `suffix_of` f).

(** [DesignTokensSchema]: the three categories, each defaulting to the
    empty record; any other key is stripped. *)
Definition parseTokens (t : gmap jsstring props) : gmap jsstring props :=
  {[ js "colors" := default ∅ (t !! js "colors");
     js "fonts" := default ∅ (t !! js "fonts");
     js "spacing" := default ∅ (t !! js "spacing") ]}.

(** [DesignStateSchema.parse]: what the types do not already enforce is
    the enumeration of design types and the presence of [rootId]. *)
Definition parseState (raw : DesignState) : option DesignState :=
  if bool_decide (pr_designType (project raw) ∈ DESIGN_TYPES)
     && forallb (λ kv, bool_decide (is_Some (pg_rootId kv.2))) (pages raw)
  then Some (withTokens (parseTokens (designTokens raw)) raw)
  else None.

(** The loop over the page files read: [pages[page.id] = page] and
    [Object.assign(elements, pageElements)]. *)
Definition mergePages (raws : list PageData)
    : object Page * gmap jsstring Element :=
  foldl (λ acc pageData,
           (objSet acc.1 (pg_id (pgd_page pageData)) (pgd_page pageData),
            pgd_elements pageData ∪ acc.2))
    ([], ∅) raws.

(** [_loadSplitFiles], for the listing [readdir] returns; [None] when a
    file is missing or the schema rejects the document. *)
Definition loadSplitFiles (listing : list jsstring) (d : Disk)
    : option DesignState :=
  projectData ← projectJson d;
  stylesData ← stylesJson d;
  pageRaws ← mapM (λ f, pagesDir d !! f) (filter (λ f, endsWithJson f = true) listing);
  let merged := mergePages pageRaws in
  parseState
    {| project := pd_project projectData;
       pages := merged.1;
       elements := merged.2;
       styles := stylesData;
       designTokens := pd_designTokens projectData |}.

(** ** The debounced writer

    The writer and the dirty flags it reads are followed through the
    turns of the event loop.  A turn runs to completion: the completion
    of a save clears the flags, resets [_flushPromise] and resumes the
    call waiting for it before anything else happens.  Mutations, timers
    and other flushes arrive as turns of their own. *)

(** Where the observed call of [waitForFlush] stands. *)
Inductive WaitState :=
| NotCalled
| AwaitingFlush (save : nat)
| AwaitingOwnFlush (save : nat)
| HasReturned
| HasThrown.

Definition dirtyUnion (a b : Dirty) : Dirty :=
  mkDirty (d_project a || d_project b) (d_styles a || d_styles b)
    (d_pages a ∪ d_pages b) (d_deletedPages a ∪ d_deletedPages b).

Definition dirtyDifference (a b : Dirty) : Dirty :=
  mkDirty (d_project a && negb (d_project b)) (d_styles a && negb (d_styles b))
    (d_pages a ∖ (d_pages b ∪ d_deletedPages b))
    (d_deletedPages a ∖ (d_pages b ∪ d_deletedPages b)).

(** [w_flags] are the manager's dirty flags; [w_inflight] maps each
    pending [save()] to the partitions whose content, as captured when the
    save began, is still the content in memory; [w_unsaved] are the
    partitions whose content in memory is not on disk. *)
Record World := mkWorld {
  w_flags : Dirty;
  w_unsaved : Dirty;
  w_timer : bool;
  w_flushPromise : option nat;
  w_inflight : gmap nat Dirty;
  w_nextSave : nat;
  w_wait : WaitState;
}.

(** [_doFlush()] up to its [await]: the save started, if any. *)
Definition doFlush (w : World) : World * option nat :=
  if isDirty (w_flags w) then
    (mkWorld (w_flags w) (w_unsaved w) (w_timer w) (Some (w_nextSave w))
       (<[w_nextSave w := w_flags w]> (w_inflight w)) (S (w_nextSave w))
       (w_wait w),
     Some (w_nextSave w))
  else (w, None).

Definition withWait (s : WaitState) (w : World) : World :=
  mkWorld (w_flags w) (w_unsaved w) (w_timer w) (w_flushPromise w)
    (w_inflight w) (w_nextSave w) s.

Definition withTimer (t : bool) (w : World) : World :=
  mkWorld (w_flags w) (w_unsaved w) t (w_flushPromise w)
    (w_inflight w) (w_nextSave w) (w_wait w).

(** [waitForFlush()] from line 122 on: flush again when dirty. *)
Definition flushIfDirty (w : World) : World :=
  if isDirty (w_flags w) then
    match doFlush w with
    | (w', Some i) => withWait (AwaitingOwnFlush i) w'
    | (w', None) => withWait HasReturned w'
    end
  else withWait HasReturned w.

(** [waitForFlush()] up to its first [await]. *)
Definition waitForFlush (w : World) : World :=
  let w := withTimer false w in
  match w_flushPromise w with
  | Some i => withWait (AwaitingFlush i) w
  | None => flushIfDirty w
  end.

(** The completion of save [i]: [_clearDirty()] at the end of [save()],
    then the [finally] of [_doFlush], then the call waiting for it. *)
Definition completeSave (i : nat) (captured : Dirty) (w : World) : World :=
  let w' :=
    mkWorld cleanDirty (dirtyDifference (w_unsaved w) captured) (w_timer w)
      None (delete i (w_inflight w)) (w_nextSave w) (w_wait w) in
  match w_wait w with
  | AwaitingFlush j => if decide (i = j) then flushIfDirty w' else w'
  | AwaitingOwnFlush j => if decide (i = j) then withWait HasReturned w' else w'
  | _ => w'
  end.

(** The failure of save [i]: the flags stay, the waiting call throws. *)
Definition failSave (i : nat) (w : World) : World :=
  let w' :=
    mkWorld (w_flags w) (w_unsaved w) (w_timer w) None
      (delete i (w_inflight w)) (w_nextSave w) (w_wait w) in
  match w_wait w with
  | AwaitingFlush j | AwaitingOwnFlush j =>
      if decide (i = j) then withWait HasThrown w' else w'
  | _ => w'
  end.

(** A mutation of the document: the partitions [touched] are flagged,
    and what pending saves captured of them is stale. *)
Definition mutate (touched : Dirty) (w : World) : World :=
  mkWorld (dirtyUnion (w_flags w) touched) (dirtyUnion (w_unsaved w) touched)
    (w_timer w) (w_flushPromise w)
    ((λ c, dirtyDifference c touched) <$> w_inflight w) (w_nextSave w)
    (w_wait w).

(** One turn of the event loop, until the observed call settles. *)
Inductive turn : World → World → Prop :=
| turn_call w :
    w_wait w = NotCalled → turn w (waitForFlush w)
| turn_mutate touched w :
    w_wait w ≠ HasReturned → w_wait w ≠ HasThrown →
    turn w (mutate touched w)
| turn_schedule w :
    w_wait w ≠ HasReturned → w_wait w ≠ HasThrown →
    turn w (withTimer true w)
| turn_timer w :
    w_wait w ≠ HasReturned → w_wait w ≠ HasThrown →
    w_timer w = true →
    turn w (doFlush (withTimer false w)).1
| turn_flush w :
    w_wait w ≠ HasReturned → w_wait w ≠ HasThrown →
    turn w (doFlush (withTimer false w)).1
| turn_saved i captured w :
    w_wait w ≠ HasReturned → w_wait w ≠ HasThrown →
    w_inflight w !! i = Some captured →
    turn w (completeSave i captured w)
| turn_save_failed i captured w :
    w_wait w ≠ HasReturned → w_wait w ≠ HasThrown →
    w_inflight w !! i = Some captured →
    turn w (failSave i w).

(** ** Notions the properties are stated with *)

(** [reach els id d]: [d] is [id] or a descendant of [id], following the
    [children] lists through the nodes of the map. *)
Inductive reach (els : gmap jsstring Element) : jsstring → jsstring → Prop :=
| reach_self id e : els !! id = Some e → reach els id id
| reach_child id e c d :
    els !! id = Some e → c ∈ el_children e → reach els c d → reach els id d.


(** Every node carries the [pageId] of its parent. *)
Definition pageIdsConsistent (els : gmap jsstring Element) : Prop :=
  ∀ id e c ce, els !! id = Some e → c ∈ el_children e → els !! c = Some ce →
    el_pageId ce = el_pageId e.

(** A test of every parent-child edge of a map, to establish the two
    properties above on a given document. *)
Definition checkChildren (check : jsstring → Element → jsstring → Element → bool)
    (els : gmap jsstring Element) : bool :=
  forallb (λ kv : jsstring * Element,
    forallb (λ c,
      match els !! c with
      | Some ce => check kv.1 kv.2 c ce
      | None => true
      end) (el_children kv.2))
    (map_to_list els).


(** The value of a design token. *)
Definition tokenValue (st : DesignState) (category key : jsstring)
    : option jsstring :=
  designTokens st !! category ≫= (.!! key).

(** [old] occurs in [s] at index [i], not immediately preceded by a unit
    of [[a-zA-Z0-9#]] and not immediately followed by one of
    [[a-zA-Z0-9]]. *)
Definition boundaryOccurrence (old s : jsstring) (i : nat) : Prop :=
  take (length old) (drop i s) = old ∧ i + length old ≤ length s ∧
  (∀ j c, i = S j → s !! j = Some c → isAlnumHash c = false) ∧
  (∀ c, s !! (i + length old) = Some c → isAlnum c = false).

(** [rewritten old new s lastIndex next out]: [out] is [s] from index
    [next] on, in which, scanning from [lastIndex], every boundary
    occurrence of [old] met is replaced by [new], the scan resuming after
    the occurrence (one unit further when [old] is empty). *)
Inductive rewritten (old new s : jsstring) : nat → nat → jsstring → Prop :=
| rewritten_done lastIndex next :
    (∀ j, lastIndex ≤ j → ¬ boundaryOccurrence old s j) →
    rewritten old new s lastIndex next (drop next s)
| rewritten_match lastIndex next p out :
    lastIndex ≤ p → boundaryOccurrence old s p →
    (∀ j, lastIndex ≤ j < p → ¬ boundaryOccurrence old s j) →
    rewritten old new s (p + max 1 (length old)) (p + length old) out →
    rewritten old new s lastIndex next
      (take (p - next) (drop next s) ++ new ++ out).

(** The page a node belongs to. *)
Definition pageOf (st : DesignState) (id : jsstring) : jsstring :=
  default [] (el_pageId <$> elements st !! id).


(** What [DesignStateSchema] accepts and returns as it is: the keys of
    an object are distinct, every page has a [rootId], the design type is
    one of the enumeration, and the token categories are exactly the
    three. *)
Definition schemaValid (st : DesignState) : Prop :=
  NoDup (objKeys (pages st)) ∧
  Forall (λ kv : jsstring * Page, is_Some (pg_rootId kv.2)) (pages st) ∧
  pr_designType (project st) ∈ DESIGN_TYPES ∧
  dom (designTokens st) = {[js "colors"; js "fonts"; js "spacing"]}.

(** A document the schema accepts in which, moreover, each page is stored
    under its own [id]: the schema does not ask for this, the engine
    stores every page it creates that way. *)
Definition validState (st : DesignState) : Prop :=
  NoDup (objKeys (pages st)) ∧
  Forall (λ kv : jsstring * Page,
            pg_id kv.2 = kv.1 ∧ is_Some (pg_rootId kv.2)) (pages st) ∧
  pr_designType (project st) ∈ DESIGN_TYPES ∧
  dom (designTokens st) = {[js "colors"; js "fonts"; js "spacing"]}.

(** Every element's [pageId] names an existing page. *)
Definition elementsOwned (st : DesignState) : Prop :=
  ∀ id e, elements st !! id = Some e → el_pageId e ∈ objKeys (pages st).

(** The page file written for an entry of [pages]. *)
Definition pageDataOf (els : gmap jsstring Element) (kv : jsstring * Page)
    : PageData :=
  mkPageData kv.2 (pageElements kv.1 els).

(** ** Sample documents *)

Definition sampleIds (n : nat) : jsstring := js "id" ++ [N.of_nat (48 + n)].

Definition sampleManager : Manager := mkManager createDefaultState cleanDirty [] 0.

(** The manager a call leaves behind. *)
Definition after {A} (a : action A) (m : Manager) : Manager :=
  match a m with
  | Some (_, m') => m'
  | None => m
  end.

Definition sampleCreate (tag : string) (parentId : jsstring)
    (insertIndex : option Z) : CreateParams :=
  mkCreate (js tag) parentId None None Undefined insertIndex.

(** root-1 with the children id0 and id1 *)
Definition sampleSiblings : Manager :=
  after (createElement sampleIds (sampleCreate "p" (js "root-1") None))
    (after (createElement sampleIds (sampleCreate "div" (js "root-1") None))
       sampleManager).

(** root-1 > id0 > id1 *)
Definition sampleChain : Manager :=
  after (createElement sampleIds (sampleCreate "p" (js "id0") None))
    (after (createElement sampleIds (sampleCreate "div" (js "root-1") None))
       sampleManager).


(** The token colors.bg = #fff and one rule using it. *)
Definition sampleStyled (value : string) : Manager :=
  after (setDesignTokens (js "colors") {[js "bg" := js "#fff"]})
    (after (setStyles (js ".hero") {[js "color" := js value]}) sampleManager).

(** Two pages: page-1 and page-id0. *)
Definition sampleTwoPages : Manager :=
  after (createPage sampleIds (js "About")) sampleManager.

(** A writer at rest, the project partition flagged and not yet saved. *)
Definition sampleWorld : World :=
  mkWorld (mkDirty true false ∅ ∅) (mkDirty true false ∅ ∅) false None ∅ 0
    NotCalled.

(** A writer at rest with nothing to save. *)
Definition idleWorld : World :=
  mkWorld cleanDirty cleanDirty false None ∅ 0 NotCalled.

(** A change made while a save is pending: the styles are changed, a
    flush starts save 0, which writes the styles, and before that save
    completes the project data are changed. *)
Definition stylesTouched : Dirty := mkDirty false true ∅ ∅.

Definition projectTouched : Dirty := mkDirty true false ∅ ∅.

Definition changedDuringSave : World :=
  mutate projectTouched
    (doFlush (withTimer false (mutate stylesTouched idleWorld))).1.

(** The default document with its page, stored under the key page-1,
    carrying the [id] home. *)
Definition sampleOtherId : DesignState :=
  withPages [(js "page-1", mkPage (js "home") (js "Home") (Some (js "root-1")) ∅)]
    createDefaultState.

(** ** The viewer's copy of the document (viewer/js/app.js)

    The viewer keeps the snapshot it received and applies every delta
    to it.  The handlers do nothing before the first snapshot. *)

(** [Object.assign(el, data.changes)] *)
Definition assignChanges (c : Changes) (e : Element) : Element :=
  {| el_id := el_id e;
     el_tag := default (el_tag e) (ch_tag c);
     el_classes := default (el_classes e) (ch_classes c);
     el_attributes := default (el_attributes e) (ch_attributes c);
     el_textContent := default (el_textContent e) (ch_textContent c);
     el_children := el_children e;
     el_parentId := el_parentId e;
     el_pageId := el_pageId e |}.

(** [_deleteElementRecursive(id)] *)
Fixpoint deleteElementRecursive (fuel : nat) (id : jsstring)
    (els : gmap jsstring Element) : option (gmap jsstring Element) :=
  match els !! id with
  | None => Some els
  | Some el =>
      match fuel with
      | O => None
      | S fuel' =>
          delete id <$>
            foldl (λ acc childId, acc ≫= deleteElementRecursive fuel' childId)
              (Some els) (el_children el)
      end
  end.

(** [_updateElementPageId(id, pageId)] *)
Fixpoint updateElementPageId (fuel : nat) (id pageId : jsstring)
    (els : gmap jsstring Element) : option (gmap jsstring Element) :=
  match els !! id with
  | None => Some els
  | Some el =>
      match fuel with
      | O => None
      | S fuel' =>
          foldl (λ acc childId, acc ≫= updateElementPageId fuel' childId pageId)
            (Some (<[id := withPageId pageId el]> els))
            (el_children el)
      end
  end.

(** The handler registered for each delta, on the viewer's copy [v];
    [stack] is the depth of recursion the viewer's call stack allows.  No
    handler is registered for the design type delta.  The engine always
    sends the parent of a deleted node; without one no parent is looked
    up. *)
Definition applyDelta (stack : nat) (d : Delta) (v : DesignState)
    : option DesignState :=
  match d with
  | DesignFull snapshot => Some snapshot
  | ElementCreated element parentId insertIndex =>
      let els := <[el_id element := element]> (elements v) in
      Some (withElements
              (alter (λ parent,
                 withChildren
                   (insertChild (el_children parent) insertIndex (el_id element))
                   parent) parentId els) v)
  | ElementUpdated id changes =>
      Some (withElements (alter (assignChanges changes) id (elements v)) v)
  | ElementDeleted id parentId =>
      els ← deleteElementRecursive stack id (elements v);
      Some (withElements
              (match parentId with
               | Some pid =>
                   alter (λ parent,
                     withChildren (filter (λ cid, cid ≠ id) (el_children parent)) parent)
                     pid els
               | None => els
               end) v)
  | ElementMoved id oldParentId newParentId insertIndex =>
      match elements v !! id with
      | None => Some v
      | Some el =>
          (* Remove from old parent *)
          let els1 :=
            match oldParentId with
            | Some pid =>
                alter (λ oldParent,
                  withChildren (filter (λ cid, cid ≠ id) (el_children oldParent)) oldParent)
                  pid (elements v)
            | None => elements v
            end in
          (* Add to new parent *)
          let els2 := alter (withParentId (Some newParentId)) id els1 in
          match els2 !! newParentId with
          | None => Some (withElements els2 v)
          | Some newParent =>
              let els3 :=
                alter (λ np, withChildren (insertChild (el_children np) insertIndex id) np)
                  newParentId els2 in
              (* Update pageId if page changed *)
              if decide (el_pageId el = el_pageId newParent)
              then Some (withElements els3 v)
              else
                els4 ← updateElementPageId stack id (el_pageId newParent) els3;
                Some (withElements els4 v)
          end
      end
  | PageCreated page rootElement =>
      Some (withElements (<[el_id rootElement := rootElement]> (elements v))
              (withPages (objSet (pages v) (pg_id page) page) v))
  | PageDeleted pageId newActivePageId =>
      let v1 :=
        withElements (filter (λ kv, el_pageId kv.2 ≠ pageId) (elements v)) v in
      let v2 := withPages (objDelete (pages v1) pageId) v1 in
      Some (if truthyId newActivePageId
            then withProject (withActivePageId (default [] newActivePageId) (project v2)) v2
            else v2)
  | PageRenamed pageId name =>
      Some (match objGet (pages v) pageId with
            | Some page =>
                withPages
                  (objSet (pages v) pageId
                     (mkPage (pg_id page) name (pg_rootId page) (pg_styles page))) v
            | None => v
            end)
  | PageActivated pageId =>
      Some (withProject (withActivePageId pageId (project v)) v)
  | StylesSet selector properties =>
      Some (withStyles (<[selector := properties]> (styles v)) v)
  | StylesBatch changed => Some (withStyles (changed ∪ styles v) v)
  | StylesDeleted selector => Some (withStyles (delete selector (styles v)) v)
  | TokensSet category tokens =>
      Some (withTokens (<[category := tokens]> (designTokens v)) v)
  | ProjectDesignType _ => Some v
  | ViewportSet viewport =>
      Some (withProject (withViewport viewport (project v)) v)
  end.

(** The deltas of a call, applied in the order they were emitted. *)
Definition replay (stack : nat) (ds : list Delta) (v : DesignState)
    : option DesignState :=
  foldl (λ acc d, acc ≫= applyDelta stack d) (Some v) ds.

(** ** Incremental saving (save) *)

(** The loop over [dirty.pages]: the file of every flagged page that
    still exists is rewritten. *)
Definition writeDirtyPages (st : DesignState) (flaggedPages : gset jsstring)
    (dir : gmap jsstring PageData) : gmap jsstring PageData :=
  set_fold (λ pageId dir,
    match objGet (pages st) pageId with
    | Some page =>
        <[pageFileName pageId := mkPageData page (pageElements pageId (elements st))]> dir
    | None => dir
    end) dir flaggedPages.

(** The loop over [dirty.deletedPages]. *)
Definition unlinkDeletedPages (deletedPages : gset jsstring)
    (dir : gmap jsstring PageData) : gmap jsstring PageData :=
  set_fold (λ pageId dir, delete (pageFileName pageId) dir) dir deletedPages.

(** [save()], run without another call in between: the files named by
    the dirty flags are written or removed, then the flags are cleared.
    The writes and removals are issued together; no file is both written
    and removed when no page awaiting removal is a current page. *)
Definition save (m : Manager) (d : Disk) : Manager * Disk :=
  let st := state m in
  (mkManager st cleanDirty (emitted m) (drawn m),
   {| projectJson :=
        if d_project (dirty m)
        then Some (mkProjectData (project st) (designTokens st))
        else projectJson d;
      stylesJson := if d_styles (dirty m) then Some (styles st) else stylesJson d;
      pagesDir :=
        unlinkDeletedPages (d_deletedPages (dirty m))
          (writeDirtyPages st (d_pages (dirty m)) (pagesDir d)) |}).

(** ** Further notions *)

(** The directory holds the document but for the partitions flagged
    dirty: the project and styles files unless flagged, the file of every
    page not flagged, no [.json] page file other than those of current
    pages and of pages awaiting removal, and no current page awaits
    removal. *)
Record inSync (m : Manager) (d : Disk) : Prop := {
  sync_project :
    d_project (dirty m) = false →
    projectJson d = Some (mkProjectData (project (state m)) (designTokens (state m)));
  sync_styles :
    d_styles (dirty m) = false → stylesJson d = Some (styles (state m));
  sync_pages k p :
    objGet (pages (state m)) k = Some p → k ∉ d_pages (dirty m) →
    pagesDir d !! pageFileName k
    = Some (mkPageData p (pageElements k (elements (state m))));
  sync_files f :
    is_Some (pagesDir d !! f) → endsWithJson f = true →
    ∃ k, f = pageFileName k ∧
         (k ∈ objKeys (pages (state m)) ∨ k ∈ d_deletedPages (dirty m));
  sync_deleted k :
    k ∈ d_deletedPages (dirty m) → k ∉ objKeys (pages (state m));
}.

(** Identifiers not yet handed out name nothing in the document. *)
Definition freshIds (nanoid : nat → jsstring) (m : Manager) : Prop :=
  ∀ n, drawn m ≤ n →
    elements (state m) !! nanoid n = None ∧
    elements (state m) !! (js "root-" ++ nanoid n) = None ∧
    (js "page-" ++ nanoid n ∉ objKeys (pages (state m))) ∧
    (js "page-" ++ nanoid n ∉ d_deletedPages (dirty m)).

(** [touches P a b]: the maps differ only on nodes that belong to a page
    of [P] on both sides. *)
Definition touches (P : gset jsstring) (a b : gmap jsstring Element) : Prop :=
  ∀ k, b !! k = a !! k ∨
       ((∀ x, a !! k = Some x → el_pageId x ∈ P) ∧
        (∀ y, b !! k = Some y → el_pageId y ∈ P)).

(** The children of a node of a page of [P] are on a page of [P]. *)
Definition closedUnder (P : gset jsstring) (els : gmap jsstring Element) : Prop :=
  ∀ k e c ce, els !! k = Some e → el_pageId e ∈ P → c ∈ el_children e →
    els !! c = Some ce → el_pageId ce ∈ P.

(** [b] is [a] in which some nodes of the pages [P] carry the page
    [new]. *)
Definition restamped (P : gset jsstring) (new : jsstring)
    (a b : gmap jsstring Element) : Prop :=
  ∀ k, b !! k = a !! k ∨
       ∃ e, a !! k = Some e ∧ el_pageId e ∈ P ∧ b !! k = Some (withPageId new e).

(** The three updates of [moveElement] before the identifiers of the
    page are rewritten. *)
Definition relinked (els : gmap jsstring Element) (id l np : jsstring)
    (idx : option Z) : gmap jsstring Element :=
  alter (λ p, withChildren (insertChild (el_children p) idx id) p) np
    (alter (withParentId (Some np)) id
       (alter (λ oldParent,
          withChildren (filter (λ cid, cid ≠ id) (el_children oldParent)) oldParent)
          l els)).

(** The nodes of [a] are those of [els], with their page, and list no
    child that [els] does not list but [id] under [np]. *)
Definition linksOf (els : gmap jsstring Element) (id np : jsstring)
    (a : gmap jsstring Element) : Prop :=
  ∀ k x, a !! k = Some x →
    ∃ x0, els !! k = Some x0 ∧ el_pageId x = el_pageId x0 ∧
          ∀ c, c ∈ el_children x → c ∈ el_children x0 ∨ (k = np ∧ c = id).

(** The number of nodes of a definition. *)
Fixpoint defSize (def : ElementDef) : nat :=
  match def with
  | mkDef _ _ _ _ children =>
      S ((fix sizes (l : list ElementDef) : nat :=
            match l with
            | [] => 0
            | d :: l' => defSize d + sizes l'
            end) children)
  end.

Definition defsSize (defs : list ElementDef) : nat :=
  foldr (λ d n, defSize d + n) 0 defs.

(** The identifiers from the [n]-th on name nothing, or a node of the
    page. *)
Definition freshOrOwn (nanoid : nat → jsstring) (pageId : jsstring)
    (els : gmap jsstring Element) (n : nat) : Prop :=
  ∀ k x, n ≤ k → els !! nanoid k = Some x → el_pageId x = pageId.

(** Every node of [b] is on one of the pages [Q] or is a node of [a], on
    the same page. *)
Definition pagesFrom (Q : jsstring → Prop) (a b : gmap jsstring Element) : Prop :=
  ∀ k y, b !! k = Some y →
    Q (el_pageId y) ∨ ∃ x, a !! k = Some x ∧ el_pageId y = el_pageId x.

(** One turn of the second loop of [clonePage]. *)
Definition cloneStep (pageId : jsstring) (idMap : list (jsstring * jsstring))
    (els : gmap jsstring Element) (p : jsstring * jsstring) : gmap jsstring Element :=
  match els !! p.1 with
  | Some src =>
      <[p.2 :=
          {| el_id := p.2;
             el_tag := el_tag src;
             el_classes := el_classes src;
             el_attributes := el_attributes src;
             el_textContent := el_textContent src;
             el_children :=
               filter (λ c, truthy c = true)
                 (omap (idMapGet idMap) (el_children src));
             el_parentId :=
               if truthyId (el_parentId src)
               then el_parentId src ≫= idMapGet idMap
               else None;
             el_pageId := pageId |}]> els
  | None => els
  end.

(** The identifiers through which a call reads an object of the
    document, or the table of presets. *)
Definition lookedUp (op : Op) : list jsstring :=
  match op with
  | CreateElement p => [cp_parentId p]
  | UpdateElement p => [up_id p]
  | DeleteElement id => [id]
  | MoveElement id newParentId _ => [id; newParentId]
  | CreateElementTree parentId _ => [parentId]
  | ClonePage pageId _ | DeletePage pageId | RenamePage pageId _
  | SetActivePage pageId => [pageId]
  | DeleteStyles selector => [selector]
  | SetDesignTokens category _ => [category]
  | UpdateTokenWithPropagation category key _ => [category; key]
  | SetViewport (Some device) _ _ => [device]
  | _ => []
  end.

(** What the engine does not check itself: no identifier handed to the
    call is a name objects inherit (the tools pass on any string); the
    tool layer hands [setDesignType] a member of the enumeration and
    [setDesignTokens] one of the three categories; a page to clone has its
    root among its elements. *)
Definition admissible (op : Op) (st : DesignState) : Prop :=
  Forall (λ k, inheritedName k = false) (lookedUp op) ∧
  match op with
  | SetDesignType designType => designType ∈ DESIGN_TYPES
  | SetDesignTokens category _ =>
      category ∈ [js "colors"; js "fonts"; js "spacing"]
  | ClonePage sourcePageId _ =>
      ∀ page, objGet (pages st) sourcePageId = Some page →
        ∃ rootId root, pg_rootId page = Some rootId ∧
          elements st !! rootId = Some root ∧ el_pageId root = sourcePageId
  | _ => True
  end.

(** The document is one the split files give back, and its active page
    exists. *)
Definition wellFormed (st : DesignState) : Prop :=
  validState st ∧ elementsOwned st ∧
  pr_activePageId (project st) ∈ objKeys (pages st).


(** ** Further parts of the engine *)

(** The positions, in the sequence of identifiers drawn, of the nodes
    created for the definitions [defs] themselves, the first being the
    [n]-th: every definition uses as many identifiers as it has nodes. *)
Fixpoint topOffsets (n : nat) (defs : list ElementDef) : list nat :=
  match defs with
  | [] => []
  | d :: defs' => n :: topOffsets (n + defSize d) defs'
  end.

(** ** Queries (getElement, listElements) *)

(** The nested object [listElements] returns: the fields of the element
    and, in place of the identifiers, the subtrees of its children. *)
#[local] Set Warnings "-register-all".


(** [getElement(id)] *)
Definition getElement (id : jsstring) : action Element :=
  (let* st := getState in
   found id (elements st !! id))%action.



(** ** The project registry (ProjectManager) *)

(** The class [[a-z0-9]] *)
Definition isSlugUnit (c : N) : bool := inRange 97 122 c || inRange 48 57 c.

(** [.replace(/[^a-z0-9]+/g, '-')]: every maximal run of other units
    becomes one dash; [inRun] tells that the unit before was part of such
    a run. *)
Fixpoint dashRuns (inRun : bool) (s : jsstring) : jsstring :=
  match s with
  | [] => []
  | c :: s' =>
      if isSlugUnit c then c :: dashRuns false s'
      else if inRun then dashRuns true s'
      else 45%N :: dashRuns true s'
  end.

(** The dashes at the head of a string, dropped. *)
Fixpoint dropDashes (s : jsstring) : jsstring :=
  match s with
  | c :: s' => if (c =? 45)%N then dropDashes s' else s
  | [] => []
  end.

(** [.replace(/^-+|-+$/g, '')] *)
Definition trimDashes (s : jsstring) : jsstring :=
  reverse (dropDashes (reverse (dropDashes s))).

Section Registry.

(** [String.prototype.toLowerCase] *)
Variable toLowerCase : jsstring → jsstring.

(** [slugify(name)] *)
Definition slugify (name : jsstring) : jsstring :=
  let slug := take 50 (trimDashes (dashRuns false (toLowerCase name))) in
  if truthy slug then slug else js "project".

Record ProjectEntry := mkProjectEntry {
  pe_id : jsstring;
  pe_name : jsstring;
  pe_slug : jsstring;
  pe_createdAt : jsstring;
}.

Record Registry := mkRegistry {
  projects : list ProjectEntry;
  activeProjectId : option jsstring;
}.

(** [`${baseSlug}-${counter}`] *)
Definition numbered (baseSlug : jsstring) (counter : nat) : jsstring :=
  baseSlug ++ js "-" ++ js (pretty counter).

(** The loop of [createProject] that looks for a slug no project has;
    [fuel] bounds the number of tests. *)
Fixpoint freeSlug (slugs : list jsstring) (baseSlug slug : jsstring)
    (counter fuel : nat) : option jsstring :=
  match fuel with
  | O => None
  | S fuel' =>
      if bool_decide (slug ∈ slugs)
      then freeSlug slugs baseSlug (numbered baseSlug counter) (S counter) fuel'
      else Some slug
  end.

(** [projects.find(p => p.id === projectId)] *)
Definition findProject (r : Registry) (projectId : jsstring) : option ProjectEntry :=
  snd <$> list_find (λ p, pe_id p = projectId) (projects r).

Inductive registryError :=
| ProjectNotFound
| LastProject
| NoOtherProject.

(** What the calls below do to the registry when the file operations
    between their steps succeed. *)

(** [createProject(name, { switchTo })], with the identifier [rawId]
    drawn, the time [now] read and [fuel] tests of the slug loop. *)
Definition createProject (rawId now : jsstring) (fuel : nat) (name : jsstring)
    (switchTo : bool) (r : Registry) : option (ProjectEntry * Registry) :=
  let id := js "proj-" ++ rawId in
  let baseSlug := slugify name in
  slug ← freeSlug (pe_slug <$> projects r) baseSlug baseSlug 1 fuel;
  let project := mkProjectEntry id name slug now in
  Some (project,
        mkRegistry (projects r ++ [project])
          (if switchTo then Some id else activeProjectId r)).

Definition switchProject (projectId : jsstring) (r : Registry)
    : registryError + Registry :=
  if decide (activeProjectId r = Some projectId) then inr r
  else
    match findProject r projectId with
    | None => inl ProjectNotFound
    | Some _ => inr (mkRegistry (projects r) (Some projectId))
    end.

Definition deleteProject (projectId : jsstring) (r : Registry)
    : registryError + (ProjectEntry * Registry) :=
  match list_find (λ p, pe_id p = projectId) (projects r) with
  | None => inl ProjectNotFound
  | Some (idx, project) =>
      if bool_decide (length (projects r) ≤ 1) then inl LastProject
      else
        (* If deleting active project, switch to another first *)
        let switched :=
          if decide (activeProjectId r = Some projectId) then
            match list_find (λ p, pe_id p ≠ projectId) (projects r) with
            | Some (_, nextProject) => switchProject (pe_id nextProject) r
            | None => inl NoOtherProject
            end
          else inr r in
        match switched with
        | inl e => inl e
        | inr r1 =>
            (* Remove from registry *)
            inr (project, mkRegistry (delete idx (projects r1)) (activeProjectId r1))
        end
  end.

Definition renameProject (projectId newName : jsstring) (r : Registry)
    : registryError + (ProjectEntry * Registry) :=
  match list_find (λ p, pe_id p = projectId) (projects r) with
  | None => inl ProjectNotFound
  | Some (idx, project) =>
      let project' :=
        mkProjectEntry (pe_id project) newName (pe_slug project) (pe_createdAt project) in
      inr (project', mkRegistry (<[idx := project']> (projects r)) (activeProjectId r))
  end.

(** [getActiveProject()] *)
Definition getActiveProject (r : Registry) : option ProjectEntry :=
  activeProjectId r ≫= findProject r.

End Registry.

(** A unit of [[a-z0-9]] or a dash. *)
Definition slugUnit (c : N) : Prop := isSlugUnit c = true ∨ c = 45%N.

(** The [k]-th slug the loop of [createProject] tries. *)
Definition candidate (baseSlug : jsstring) (k : nat) : jsstring :=
  match k with
  | O => baseSlug
  | S _ => numbered baseSlug k
  end.

(** The active project is one of the registry. *)
Definition activeRegistered (r : Registry) : Prop :=
  ∃ p, p ∈ projects r ∧ activeProjectId r = Some (pe_id p).

(** ** The renderer's escaping (renderer/html.js) *)

(** [str.replace(/c/g, by)] for a pattern of one unit and a replacement
    without [$]. *)
Definition replaceUnit (c : N) (by_ : jsstring) (s : jsstring) : jsstring :=
  s ≫= λ x, if (x =? c)%N then by_ else [x].

(** [escapeHtml(str)]: the four replacements, in the order of the
    source. *)
Definition escapeHtml (str : jsstring) : jsstring :=
  replaceUnit 34 (js "&quot;")
    (replaceUnit 62 (js "&gt;")
       (replaceUnit 60 (js "&lt;")
          (replaceUnit 38 (js "&amp;") str))).

(** What one unit becomes. *)
Definition escapedUnit (c : N) : jsstring :=
  if (c =? 38)%N then js "&amp;"
  else if (c =? 60)%N then js "&lt;"
  else if (c =? 62)%N then js "&gt;"
  else if (c =? 34)%N then js "&quot;"
  else [c].

(** A left inverse of [escapeHtml], to show that escaping loses nothing. *)
Fixpoint unescapeHtml (s : jsstring) : jsstring :=
  match s with
  | [] => []
  | c :: s1 =>
      if (c =? 38)%N then
        match s1 with
        | 97%N :: _ :: _ :: _ :: rest => 38%N :: unescapeHtml rest
        | 108%N :: _ :: _ :: rest => 60%N :: unescapeHtml rest
        | 103%N :: _ :: _ :: rest => 62%N :: unescapeHtml rest
        | 113%N :: _ :: _ :: _ :: _ :: rest => 34%N :: unescapeHtml rest
        | _ => c :: unescapeHtml s1
        end
      else c :: unescapeHtml s1
  end.

(** ** The shape of the element tree *)

(** A node listed among the children of [k] names [k] as its parent. *)
Definition childrenLinked (els : gmap jsstring Element) : Prop :=
  ∀ k e c ce, els !! k = Some e → c ∈ el_children e → els !! c = Some ce →
    el_parentId ce = Some k.

(** The two properties of a document tree the calls rely on. *)
Definition treeShaped (els : gmap jsstring Element) : Prop :=
  pageIdsConsistent els ∧ childrenLinked els ∧ els !! [] = None.

(** The identifier names no node and no node lists it. *)
Definition unused (els : gmap jsstring Element) (id : jsstring) : Prop :=
  els !! id = None ∧ ∀ k e, els !! k = Some e → id ∉ el_children e.

(** The identifiers not yet drawn are not empty, are in use nowhere, with
    or without the prefix of a root, and differ from each other. *)
Definition unusedIds (nanoid : nat → jsstring) (m : Manager) : Prop :=
  (∀ n, drawn m ≤ n →
     nanoid n ≠ [] ∧ unused (elements (state m)) (nanoid n) ∧
     unused (elements (state m)) (js "root-" ++ nanoid n)) ∧
  (∀ i j, drawn m ≤ i → drawn m ≤ j → nanoid i = nanoid j → i = j) ∧
  (∀ i j, drawn m ≤ i → drawn m ≤ j → nanoid i ≠ js "root-" ++ nanoid j).

(** What [moveElement] makes of the node stored under [k], before the
    identifiers of the page are rewritten. *)
Definition relinkedNode (id l np : jsstring) (idx : option Z) (k : jsstring)
    (x : Element) : Element :=
  let x1 := if decide (l = k)
            then withChildren (filter (λ cid, cid ≠ id) (el_children x)) x else x in
  let x2 := if decide (id = k) then withParentId (Some np) x1 else x1 in
  if decide (np = k) then withChildren (insertChild (el_children x2) idx id) x2 else x2.

(** The copy [clonePage] makes of [src] under the identifier [newId]. *)
Definition clonedNode (pageId : jsstring) (idMap : list (jsstring * jsstring))
    (newId : jsstring) (src : Element) : Element :=
  {| el_id := newId;
     el_tag := el_tag src;
     el_classes := el_classes src;
     el_attributes := el_attributes src;
     el_textContent := el_textContent src;
     el_children :=
       filter (λ c, truthy c = true) (omap (idMapGet idMap) (el_children src));
     el_parentId :=
       if truthyId (el_parentId src) then el_parentId src ≫= idMapGet idMap else None;
     el_pageId := pageId |}.

(** [b] is [a] in which nodes that [id] reaches carry the page [new]. *)
Definition stampedFrom (new id : jsstring) (a b : gmap jsstring Element) : Prop :=
  ∀ k, b !! k = a !! k ∨
       (reach a id k ∧ ∃ e, a !! k = Some e ∧ b !! k = Some (withPageId new e)).

(** [b] names and lists nothing that [a] does not name or list, but the
    identifiers [N]. *)
Definition grownBy (N : jsstring → Prop) (a b : gmap jsstring Element) : Prop :=
  ∀ k x, b !! k = Some x →
    (N k ∨ is_Some (a !! k)) ∧
    ∀ c, c ∈ el_children x →
      N c ∨ is_Some (a !! c) ∨ ∃ k0 x0, a !! k0 = Some x0 ∧ c ∈ el_children x0.

(** The identifiers drawn from the [i]-th to the one before the [j]-th. *)
Definition drawnIds (nanoid : nat → jsstring) (i j : nat) (id : jsstring) : Prop :=
  ∃ k, i ≤ k < j ∧ id = nanoid k.

(** The identifiers a call may have drawn, with or without the prefix of
    a root. *)
Definition drawnBetween (nanoid : nat → jsstring) (i j : nat) (id : jsstring) : Prop :=
  ∃ k, i ≤ k < j ∧ (id = nanoid k ∨ id = js "root-" ++ nanoid k).


(** ** Further sample documents *)

(** div > p, and span *)
Definition sampleDefs : list ElementDef :=
  [mkDef (js "div") None None Undefined [mkDef (js "p") None None Undefined []];
   mkDef (js "span") None None Undefined []].

(** Two projects, with the slugs a and a-1. *)
Definition sampleRegistry : Registry :=
  mkRegistry
    [mkProjectEntry (js "proj-1") (js "A") (js "a") (js "2024-01-01T00:00:00.000Z");
     mkProjectEntry (js "proj-2") (js "a") (js "a-1") (js "2024-01-02T00:00:00.000Z")]
    (Some (js "proj-1")).

(** ** The token tool (tools/styles.js) *)



(** * Properties *)

(** ** Proof support *)

#[local] Set Warnings "-clear-no-such-hyp".

Ltac unfold_action :=
  unfold found, unmodelled, orOverflow in *;
  unfold bind, ret, throw, overflow, getState, modifyState, modifyDirty, emit,
    markPage, markDeletedPage, markProject, markStyles, generateId in *.

(** Case analysis on the innermost scrutinee of a hypothesis. *)
Ltac destruct_inner H :=
  match type of H with
  | context [match ?x with _ => _ end] =>
      lazymatch x with
      | context [match _ with _ => _ end] => fail
      | _ => let E := fresh "E" in destruct x eqn:E
      end
  end.

Ltac step_action H :=
  repeat (destruct_inner H; cbn in H; try discriminate H).

Ltac run_op H op :=
  unfold op in H; unfold_action; cbn in H; step_action H;
  simplify_eq; cbn; unfold pageOf; cbn.


(** ** The model on small inputs *)

Example decode_example :
  decodeUnicodeEscapes (Str (js "a\u0041\u4e2dz")) = Str [97; 65; 20013; 122]%N.
Proof. reflexivity. Qed.

Example propagate_fff :
  propagateValue (js "#fff") (js "#000") (js "1px solid #fff, #ffffff; a#fff #fff")
  = js "1px solid #000, #ffffff; a#fff #000".
Proof. vm_compute. reflexivity. Qed.

Example propagate_dollar :
  propagateValue (js "$a") (js "b$$c$&") (js "x $a y") = js "x b$c$a y".
Proof. vm_compute. reflexivity. Qed.

Example propagate_empty :
  propagateValue [] (js "-") (js ". .") = js "-.- -.-".
Proof. vm_compute. reflexivity. Qed.

Example splice_examples :
  spliceInsert [1; 2; 3] (-1) 9 = [1; 2; 9; 3] ∧
  spliceInsert [1; 2; 3] (-7) 9 = [9; 1; 2; 3] ∧
  spliceInsert [1; 2; 3] 1 9 = [1; 9; 2; 3] ∧
  spliceInsert [1; 2; 3] 8 9 = [1; 2; 3; 9].
Proof. repeat split. Qed.

Example sampleChain_elements :
  (el_children <$> elements (state sampleChain) !! js "root-1") = Some [js "id0"] ∧
  (el_children <$> elements (state sampleChain) !! js "id0") = Some [js "id1"] ∧
  (el_parentId <$> elements (state sampleChain) !! js "id1") = Some (Some (js "id0")) ∧
  length (emitted sampleChain) = 2 ∧
  d_pages (dirty sampleChain) = {[js "page-1"]}.
Proof. repeat split; vm_compute; reflexivity. Qed.

Example sampleTwoPages_pages :
  objKeys (pages (state sampleTwoPages)) = [js "page-1"; js "page-id0"] ∧
  (el_pageId <$> elements (state sampleTwoPages) !! js "root-id1")
    = Some (js "page-id0").
Proof. split; vm_compute; reflexivity. Qed.

Example deleteRecursive_out_of_stack :
  deleteRecursive 1 (js "id0") (elements (state sampleChain)) = None ∧
  (dom <$> deleteRecursive 2 (js "id0") (elements (state sampleChain)))
    = Some {[js "root-1"]}.
Proof. split; vm_compute; reflexivity. Qed.

(** ** Decoding of escapes *)

Lemma replaceEscapes_cons_short c0 s1 :
  (length s1 < 5)%nat → replaceEscapes (c0 :: s1) = c0 :: replaceEscapes s1.
Proof.
  intros H. do 5 (destruct s1 as [|? s1]; [reflexivity|]). simpl in H. lia.
Qed.

Lemma escapeCode_inv c0 c1 a b c d ch :
  escapeCode c0 c1 a b c d = Some ch →
  c0 = 92%N ∧ c1 = 117%N ∧ parseHex4 a b c d = Some ch.
Proof.
  unfold escapeCode. destruct (c0 =? 92)%N eqn:E0; [|done].
  destruct (c1 =? 117)%N eqn:E1; [|done]. simpl.
  apply N.eqb_eq in E0, E1. auto.
Qed.

Lemma parseHex4_not_backslash a b c d ch :
  parseHex4 a b c d = Some ch → a ≠ 92%N ∧ b ≠ 92%N ∧ c ≠ 92%N ∧ d ≠ 92%N.
Proof.
  unfold parseHex4. intros H.
  destruct (hexDigit a) eqn:Ha, (hexDigit b) eqn:Hb, (hexDigit c) eqn:Hc,
    (hexDigit d) eqn:Hd; try discriminate.
  repeat split; intros ->; discriminate.
Qed.

Lemma replaceEscapes_nil_iff s : replaceEscapes s = [] ↔ s = [].
Proof.
  split; [|intros ->; reflexivity].
  destruct s as [|c0 s1]; [done|]. simpl.
  do 5 (destruct s1 as [|? s1]; [done|]).
  destruct (escapeCode _ _ _ _ _ _); done.
Qed.


Lemma replaceEscapes_cons6 c0 c1 a b c d rest :
  replaceEscapes (c0 :: c1 :: a :: b :: c :: d :: rest)
  = match escapeCode c0 c1 a b c d with
    | Some ch => ch :: replaceEscapes rest
    | None => c0 :: replaceEscapes (c1 :: a :: b :: c :: d :: rest)
    end.
Proof. reflexivity. Qed.

Lemma escapeCode_window c0 c1 a b c d ch :
  escapeCode c0 c1 a b c d = Some ch →
  c1 ≠ 92%N ∧ a ≠ 92%N ∧ b ≠ 92%N ∧ c ≠ 92%N ∧ d ≠ 92%N.
Proof.
  intros H. apply escapeCode_inv in H as (_ & -> & H).
  apply parseHex4_not_backslash in H. destruct H as (?&?&?&?). by split_and!.
Qed.

Lemma hexDigit_value (h d : N) : hexDigitValue h d → hexDigit h = Some d.
Proof.
  unfold hexDigitValue, hexDigit, inRange. intros Hv.
  repeat match goal with
         | |- context [(?a <=? ?b)%N] => destruct (N.leb_spec a b)
         end; cbn [andb];
    destruct Hv as [[? ->]|[[? ->]|[? ->]]]; (done || lia).
Qed.

Lemma parseHex4_value (h1 h2 h3 h4 d1 d2 d3 d4 : N) :
  hexDigitValue h1 d1 → hexDigitValue h2 d2 →
  hexDigitValue h3 d3 → hexDigitValue h4 d4 →
  parseHex4 h1 h2 h3 h4 = Some (4096 * d1 + 256 * d2 + 16 * d3 + d4)%N.
Proof.
  intros H1 H2 H3 H4. unfold parseHex4.
  rewrite (hexDigit_value _ _ H1), (hexDigit_value _ _ H2),
    (hexDigit_value _ _ H3), (hexDigit_value _ _ H4).
  f_equal. lia.
Qed.

Lemma replaceEscapes_app_escape a h1 h2 h3 h4 ch b :
  parseHex4 h1 h2 h3 h4 = Some ch →
  replaceEscapes (a ++ [92; 117; h1; h2; h3; h4]%N ++ b)
  = replaceEscapes a ++ ch :: replaceEscapes b.
Proof.
  intros Hh. remember (length a) as n eqn:Hn. revert a Hn.
  induction n as [n IH] using lt_wf_ind. intros a Hn.
  destruct a as [|c0 a1].
  { cbn [app]. rewrite replaceEscapes_cons6. unfold escapeCode.
    cbn [N.eqb Pos.eqb andb]. by rewrite Hh. }
  assert (replaceEscapes (a1 ++ [92; 117; h1; h2; h3; h4]%N ++ b)
          = replaceEscapes a1 ++ ch :: replaceEscapes b) as IH1.
  { apply (IH (length a1)); [simpl in Hn; lia|done]. }
  destruct (decide (length a1 < 5)%nat) as [Hshort|Hlong].
  - rewrite (replaceEscapes_cons_short c0 a1 Hshort).
    cbn [app]. rewrite <- IH1. clear IH IH1 Hn.
    do 5 (destruct a1 as [|? a1];
      [cbn [app]; rewrite replaceEscapes_cons6;
       destruct (escapeCode _ _ _ _ _ _) eqn:E; [|reflexivity];
       apply escapeCode_window in E; destruct E as (?&?&?&?&?); congruence|]).
    simpl in Hshort. lia.
  - do 5 (destruct a1 as [|? a1]; [simpl in Hlong; lia|]).
    cbn [app] in *. rewrite !replaceEscapes_cons6.
    destruct (escapeCode _ _ _ _ _ _).
    + cbn [app]. f_equal. apply (IH (length a1)); [simpl in Hn; lia|done].
    + cbn [app]. f_equal. exact IH1.
Qed.

Lemma replaceEscapes_no_escape s :
  includes s (js "\u") = false → replaceEscapes s = s.
Proof.
  induction s as [|c0 s1 IH]; [done|].
  intros H. cbn [includes] in H. apply orb_false_iff in H as [H1 H2].
  specialize (IH H2).
  destruct (decide (length s1 < 5)%nat) as [Hshort|Hlong].
  - rewrite replaceEscapes_cons_short by done. by rewrite IH.
  - do 5 (destruct s1 as [|? s1]; [simpl in Hlong; lia|]).
    rewrite replaceEscapes_cons6. destruct (escapeCode _ _ _ _ _ _) eqn:E.
    + apply escapeCode_inv in E as (-> & -> & _). done.
    + by rewrite IH.
Qed.

Lemma decodeUnicodeEscapes_Str s :
  decodeUnicodeEscapes (Str s) = Str (replaceEscapes s).
Proof.
  unfold decodeUnicodeEscapes. destruct s as [|c s]; [done|].
  cbn [truthy negb orb]. destruct (includes _ _) eqn:E; [done|].
  cbn [negb]. by rewrite replaceEscapes_no_escape.
Qed.

(** ** The word-boundary pattern *)

Lemma startsWith_spec s pat :
  startsWith s pat = true ↔ take (length pat) s = pat.
Proof.
  revert s. induction pat as [|p pat IH]; intros s; [done|].
  destruct s as [|c s]; cbn; [done|].
  rewrite andb_true_iff, N.eqb_eq, IH. split.
  - by intros [-> ->].
  - by intros [= -> ->].
Qed.

Lemma isRegexMeta_backslash : isRegexMeta 92 = true.
Proof. reflexivity. Qed.

Lemma matchAtoms_escapeRegex old s :
  matchAtoms (escapeRegex old) s
  = if startsWith s old then Some (drop (length old) s) else None.
Proof.
  revert s. induction old as [|p old IH]; intros s; [done|].
  change (escapeRegex (p :: old))
    with ((if isRegexMeta p then [92%N; p] else [p]) ++ escapeRegex old).
  destruct (isRegexMeta p) eqn:Hm; cbn [app matchAtoms].
  - cbn [N.eqb Pos.eqb]. destruct s as [|c s]; [done|]. cbn [startsWith drop length].
    destruct (N.eqb_spec p c) as [->|]; [|done]. cbn. apply IH.
  - destruct (N.eqb_spec p 92) as [->|]; [by rewrite isRegexMeta_backslash in Hm|].
    destruct s as [|c s]; [done|]. cbn [startsWith drop length].
    destruct (N.eqb_spec p c) as [->|]; [|done]. cbn. apply IH.
Qed.

Lemma lookbehindOk_spec s i :
  lookbehindOk s i = true ↔ ∀ j c, i = S j → s !! j = Some c → isAlnumHash c = false.
Proof.
  destruct i as [|j]; cbn; [naive_solver|].
  destruct (s !! j) as [c|] eqn:Hc; cbn.
  - rewrite negb_true_iff. naive_solver.
  - naive_solver.
Qed.

Lemma lookaheadOk_spec s e :
  lookaheadOk s e = true ↔ ∀ c, s !! e = Some c → isAlnum c = false.
Proof.
  unfold lookaheadOk. destruct (s !! e) as [c|]; cbn.
  - rewrite negb_true_iff. naive_solver.
  - naive_solver.
Qed.

Lemma matchAt_spec old s i e :
  i ≤ length s →
  matchAt (escapeRegex old) s i = Some e ↔
  e = i + length old ∧ boundaryOccurrence old s i.
Proof.
  intros Hi. unfold matchAt, boundaryOccurrence. rewrite matchAtoms_escapeRegex.
  destruct (lookbehindOk s i) eqn:Hb.
  2:{ split; [done|]. intros (_ & _ & _ & Hlb & _).
      rewrite <- lookbehindOk_spec in Hlb. congruence. }
  rewrite lookbehindOk_spec in Hb.
  destruct (startsWith (drop i s) old) eqn:Hs.
  2:{ split; [done|]. intros (_ & Ht & _). apply startsWith_spec in Ht. congruence. }
  apply startsWith_spec in Hs.
  assert (i + length old ≤ length s) as Hlen.
  { apply (f_equal length) in Hs. rewrite length_take, length_drop in Hs. lia. }
  rewrite !length_drop.
  replace (length s - (length s - i - length old)) with (i + length old) by lia.
  destruct (lookaheadOk s (i + length old)) eqn:Ha.
  - rewrite lookaheadOk_spec in Ha. naive_solver.
  - split; [done|]. intros (_ & _ & _ & _ & Hla).
    rewrite <- lookaheadOk_spec in Hla. congruence.
Qed.

Lemma matchAt_None old s i :
  i ≤ length s →
  matchAt (escapeRegex old) s i = None ↔ ¬ boundaryOccurrence old s i.
Proof.
  intros Hi. destruct (matchAt _ s i) as [e|] eqn:H.
  - rewrite matchAt_spec in H by done. naive_solver.
  - split; [|done]. intros _ Hb.
    assert (matchAt (escapeRegex old) s i = Some (i + length old)) as H'
      by (by apply matchAt_spec).
    congruence.
Qed.

Lemma execFrom_Some old s n i p e :
  i + n ≤ S (length s) →
  execFrom (escapeRegex old) s n i = Some (p, e) ↔
  i ≤ p < i + n ∧ e = p + length old ∧ boundaryOccurrence old s p ∧
  ∀ j, i ≤ j < p → ¬ boundaryOccurrence old s j.
Proof.
  revert i. induction n as [|n IH]; intros i Hn; cbn [execFrom].
  { split; [done|lia]. }
  destruct (matchAt _ s i) as [e'|] eqn:H.
  - rewrite matchAt_spec in H by lia. destruct H as [-> Hb]. split.
    + intros [= ? ?]; subst. split_and!; [lia..|done|intros; lia].
    + intros (Hp & -> & Hbp & Hfirst).
      destruct (decide (p = i)) as [->|]; [done|].
      exfalso. apply (Hfirst i); [lia|done].
  - rewrite matchAt_None in H by lia. rewrite IH by lia. split.
    + intros (Hp & -> & Hbp & Hfirst). split_and!; [lia..|done|].
      intros j Hj. destruct (decide (j = i)) as [->|]; [done|]. apply Hfirst. lia.
    + intros (Hp & -> & Hbp & Hfirst).
      assert (p ≠ i) by (intros ->; done).
      split_and!; [lia..|done|]. intros j Hj. apply Hfirst. lia.
Qed.

Lemma execFrom_None old s n i :
  i + n ≤ S (length s) →
  execFrom (escapeRegex old) s n i = None ↔
  ∀ j, i ≤ j < i + n → ¬ boundaryOccurrence old s j.
Proof.
  revert i. induction n as [|n IH]; intros i Hn; cbn [execFrom].
  { split; [intros; lia|done]. }
  destruct (matchAt _ s i) as [e'|] eqn:H.
  - rewrite matchAt_spec in H by lia. destruct H as [-> Hb]. split; [done|].
    intros Hno. exfalso. apply (Hno i); [lia|done].
  - rewrite matchAt_None in H by lia. rewrite IH by lia. split.
    + intros Hno j Hj. destruct (decide (j = i)) as [->|]; [done|]. apply Hno. lia.
    + intros Hno j Hj. apply Hno. lia.
Qed.

Lemma boundaryOccurrence_bound old s i : boundaryOccurrence old s i → i ≤ length s.
Proof. intros (_ & ? & _). lia. Qed.

Lemma regexExec_Some old s li p e :
  regexExec (escapeRegex old) s li = Some (p, e) ↔
  li ≤ p ∧ e = p + length old ∧ boundaryOccurrence old s p ∧
  ∀ j, li ≤ j < p → ¬ boundaryOccurrence old s j.
Proof.
  unfold regexExec. destruct (decide (li ≤ S (length s))) as [Hli|Hli].
  - rewrite execFrom_Some by lia. split; [naive_solver|].
    intros (? & ? & Hb & ?). pose proof (boundaryOccurrence_bound _ _ _ Hb).
    split_and!; [lia..|done|done].
  - replace (S (length s) - li) with 0 by lia. cbn. split; [done|].
    intros (? & ? & Hb & ?). pose proof (boundaryOccurrence_bound _ _ _ Hb). lia.
Qed.

Lemma regexExec_None old s li :
  regexExec (escapeRegex old) s li = None ↔
  ∀ j, li ≤ j → ¬ boundaryOccurrence old s j.
Proof.
  unfold regexExec. destruct (decide (li ≤ S (length s))) as [Hli|Hli].
  - rewrite execFrom_None by lia. split.
    + intros Hno j Hj Hb. pose proof (boundaryOccurrence_bound _ _ _ Hb).
      apply (Hno j); [lia|done].
    + intros Hno j Hj. apply Hno. lia.
  - replace (S (length s) - li) with 0 by lia. cbn. split; [|done].
    intros _ j Hj Hb. pose proof (boundaryOccurrence_bound _ _ _ Hb). lia.
Qed.

Lemma regexTest_spec old s :
  regexTest (escapeRegex old) s = true ↔ ∃ i, boundaryOccurrence old s i.
Proof.
  unfold regexTest. rewrite bool_decide_eq_true. split.
  - intros [[p e] H]. apply regexExec_Some in H. naive_solver.
  - intros [i Hb]. destruct (regexExec _ s 0) as [[p e]|] eqn:H; [eauto|].
    exfalso. eapply regexExec_None in H; [done|lia].
Qed.

Lemma getSubstitution_plain matched pre post templ :
  36%N ∉ templ → getSubstitution matched pre post templ = templ.
Proof.
  induction templ as [|c t IH]; [done|]. intros Hc.
  apply not_elem_of_cons in Hc as [Hc Ht]. cbn [getSubstitution].
  destruct (N.eqb_spec c 36) as [->|_]; [done|]. by rewrite IH.
Qed.

Lemma replaceLoop_rewritten old new s fuel lastIndex next :
  36%N ∉ new → length s < lastIndex + fuel →
  rewritten old new s lastIndex next
    (replaceLoop (escapeRegex old) new s fuel lastIndex next).
Proof.
  intros Hplain. revert lastIndex next.
  induction fuel as [|fuel IH]; intros lastIndex next Hfuel; cbn [replaceLoop].
  { apply rewritten_done. intros j Hj Hb.
    pose proof (boundaryOccurrence_bound _ _ _ Hb). lia. }
  destruct (regexExec _ s lastIndex) as [[p e]|] eqn:Hexec.
  - apply regexExec_Some in Hexec as (Hp & -> & Hb & Hfirst).
    rewrite getSubstitution_plain by done.
    apply rewritten_match; [done..|].
    replace (if decide (p + length old = p) then S (p + length old) else p + length old)
      with (p + max 1 (length old)) by (case_decide; lia).
    apply IH. lia.
  - apply rewritten_done. by apply regexExec_None.
Qed.

Lemma rewritten_length old new s lastIndex next out :
  rewritten old new s lastIndex next out → next ≤ lastIndex →
  ∃ k, length out + k * length old = length s - next + k * length new.
Proof.
  induction 1 as [lastIndex next Hno|lastIndex next p out Hp Hb Hfirst Hrest IH];
    intros Hnext.
  - exists 0. rewrite length_drop. lia.
  - destruct IH as [k Hk]; [lia|]. exists (S k).
    destruct Hb as (_ & Hlen & _).
    rewrite !length_app, length_take, length_drop. lia.
Qed.

Lemma rewritten_changed old new s out :
  old ≠ new → (∃ i, boundaryOccurrence old s i) →
  rewritten old new s 0 0 out → out ≠ s.
Proof.
  intros Hne [i Hi] Hrw. inversion Hrw as [? ? Hno|? ? p out' Hp Hb Hfirst Hrest];
    subst.
  { exfalso. eapply Hno; [|done]. lia. }
  intros Heq.
  destruct (rewritten_length _ _ _ _ _ _ Hrest) as [k Hk]; [lia|].
  pose proof Hb as (Hocc & Hlen & _).
  rewrite Nat.sub_0_r, drop_0 in Heq.
  assert (s = take p s ++ old ++ drop (p + length old) s) as Hs.
  { rewrite <- (take_drop p s) at 1. f_equal.
    rewrite <- (take_drop (length old) (drop p s)) at 1.
    by rewrite Hocc, drop_drop. }
  pose proof (eq_trans Heq Hs) as Heq'. clear Heq Hs.
  apply app_inv_head in Heq'. rename Heq' into Heq.
  assert (length new = length old) as Hl.
  { apply (f_equal length) in Heq. rewrite !length_app, length_drop in Heq. nia. }
  apply app_inj_1 in Heq as [? _]; [congruence|done].
Qed.

Lemma propagateValue_rewritten old new val :
  36%N ∉ new → rewritten old new val 0 0 (propagateValue old new val).
Proof.
  intros Hplain. unfold propagateValue.
  destruct (regexTest _ val) eqn:Ht.
  - apply replaceLoop_rewritten; [done|lia].
  - apply (rewritten_done old new val 0 0). intros j _ Hb.
    assert (regexTest (escapeRegex old) val = true) by (apply regexTest_spec; eauto).
    congruence.
Qed.

Lemma propagateValue_changed old new val :
  old ≠ new → 36%N ∉ new →
  propagateValue old new val ≠ val ↔ ∃ i, boundaryOccurrence old val i.
Proof.
  intros Hne Hplain. split.
  - intros Hch. apply regexTest_spec. unfold propagateValue in Hch.
    by destruct (regexTest _ val).
  - intros Hocc. eapply rewritten_changed; [done..|].
    by apply propagateValue_rewritten.
Qed.

Lemma selectorChanged_spec (old new : jsstring) (ps : props) :
  old ≠ new → 36%N ∉ new →
  selectorChanged old ps = true ↔ (propagateValue old new <$> ps) ≠ ps.
Proof.
  intros Hne Hplain. unfold selectorChanged. rewrite bool_decide_eq_true. split.
  - intros (prop & val & Hval & Ht) Heq.
    apply (f_equal (.!! prop)) in Heq. rewrite lookup_fmap, Hval in Heq.
    cbn in Heq. injection Heq as Heq. revert Heq.
    apply propagateValue_changed; [done..|]. by apply regexTest_spec.
  - intros Hch.
    destruct (decide (∃ prop val, ps !! prop = Some val
                        ∧ regexTest (escapeRegex old) val = true)) as [|Hno]; [done|].
    exfalso. apply Hch. apply map_eq. intros prop. rewrite lookup_fmap.
    destruct (ps !! prop) as [val|] eqn:Hval; [|done]. cbn. f_equal.
    unfold propagateValue. destruct (regexTest _ val) eqn:Ht; [|done].
    exfalso. apply Hno. eauto.
Qed.


(** ** Trees *)

Section Reach.
Context (els : gmap jsstring Element).

Lemma reach_start a d : reach els a d → is_Some (els !! a).
Proof. destruct 1; eauto. Qed.


Lemma reach_trans a b c : reach els a b → reach els b c → reach els a c.
Proof. induction 1; [done|]. intros. eapply reach_child; eauto. Qed.

End Reach.

Lemma reach_mono els els' a d :
  (∀ k v, els' !! k = Some v → els !! k = Some v) → reach els' a d → reach els a d.
Proof. intros Hs. induction 1; [eapply reach_self|eapply reach_child]; eauto. Qed.








Lemma filter_ne_notin (l : list jsstring) id :
  id ∉ l → filter (λ c, c ≠ id) l = l.
Proof.
  induction l as [|x l IH]; [done|]. intros Hx.
  rewrite filter_cons_True by set_solver. f_equal. apply IH. set_solver.
Qed.


Lemma reach_same_page els a d ea ed :
  pageIdsConsistent els → reach els a d →
  els !! a = Some ea → els !! d = Some ed → el_pageId ed = el_pageId ea.
Proof.
  intros Hc Hr. revert ea. induction Hr as [id e He|id e c d He Hin Hr IH]; intros ea Ha Hd.
  - congruence.
  - destruct (reach_start _ _ _ Hr) as [ce Hce]. simplify_eq.
    rewrite (IH ce Hce Hd). eapply Hc; eauto.
Qed.

Lemma checkChildren_sound (check : jsstring → Element → jsstring → Element → bool)
    (els : gmap jsstring Element) :
  checkChildren check els = true →
  ∀ id e c ce, els !! id = Some e → c ∈ el_children e → els !! c = Some ce →
    check id e c ce = true.
Proof.
  unfold checkChildren. intros Hall id e c ce He Hc Hce.
  rewrite forallb_forall in Hall.
  specialize (Hall (id, e)). cbn in Hall. rewrite forallb_forall in Hall.
  specialize (Hall (proj1 (list_elem_of_In _ _) (proj2 (elem_of_map_to_list _ _ _) He)) c
                (proj1 (list_elem_of_In _ _) Hc)).
  by rewrite Hce in Hall.
Qed.


Lemma checkChildren_pageIds (els : gmap jsstring Element) :
  checkChildren (λ _ e _ ce, bool_decide (el_pageId ce = el_pageId e)) els = true →
  pageIdsConsistent els.
Proof.
  intros Hcheck id e c ce He Hc Hce.
  eapply bool_decide_eq_true_1, (checkChildren_sound _ _ Hcheck); eauto.
Qed.

(** ** Objects and arrays *)

Section Objects.
Context {V : Type}.
Implicit Types (o : object V) (k : jsstring).

Lemma objGet_delete o k k' :
  objGet (objDelete o k) k' = if decide (k' = k) then None else objGet o k'.
Proof.
  unfold objDelete. induction o as [|[k0 v0] o IH].
  { cbn. by case_decide. }
  destruct (decide (k0 = k)) as [->|Hne].
  - rewrite filter_cons_False by (cbn; naive_solver). rewrite IH. cbn.
    destruct (decide (k' = k)) as [->|]; [done|]. by rewrite decide_False.
  - rewrite filter_cons_True by done. cbn. rewrite IH.
    destruct (decide (k0 = k')) as [->|]; [by rewrite decide_False|done].
Qed.

Lemma objGet_Some_key o k v : objGet o k = Some v → k ∈ objKeys o.
Proof.
  induction o as [|[k0 v0] o IH]; cbn; [done|].
  case_decide; set_solver.
Qed.

Lemma objKeys_delete o k k' :
  k' ∈ objKeys (objDelete o k) ↔ k' ∈ objKeys o ∧ k' ≠ k.
Proof.
  unfold objKeys, objDelete. rewrite !list_elem_of_fmap. split.
  - intros ([k0 v0] & -> & [Hin Hne]%list_elem_of_filter). cbn in *.
    split; [|done]. exists (k0, v0). done.
  - intros (([k0 v0] & -> & Hin) & Hne). exists (k0, v0). split; [done|].
    apply list_elem_of_filter. done.
Qed.

Lemma objDelete_nonempty o k :
  NoDup (objKeys o) → 1 < length o → objDelete o k ≠ [].
Proof.
  destruct o as [|[k1 v1] [|[k2 v2] o]]; intros Hnd Hlen; [cbn in Hlen; lia..|].
  cbn in Hnd. apply NoDup_cons in Hnd as [Hne _]. unfold objDelete.
  destruct (decide (k1 = k)) as [->|].
  - rewrite filter_cons_False by (cbn; naive_solver).
    rewrite filter_cons_True; [done|]. cbn. set_solver.
  - by rewrite filter_cons_True.
Qed.
End Objects.

Lemma object_functional {V} (o : object V) k (v1 v2 : V) :
  NoDup (objKeys o) → (k, v1) ∈ o → (k, v2) ∈ o → v1 = v2.
Proof.
  intros Hnd H1 H2.
  pose proof (elem_of_list_to_map_1 (M := gmap jsstring) o k v1 Hnd H1) as E1.
  pose proof (elem_of_list_to_map_1 (M := gmap jsstring) o k v2 Hnd H2) as E2.
  congruence.
Qed.

Lemma objSet_fresh {V} (o : object V) k v : k ∉ objKeys o → objSet o k v = o ++ [(k, v)].
Proof.
  induction o as [|[k' v'] o IH]; [done|]. cbn. intros Hk.
  apply not_elem_of_cons in Hk as [Hne Hk]. rewrite decide_False by done.
  by rewrite IH.
Qed.

Lemma spliceInsert_append {A} (l : list A) (i : Z) (x : A) :
  (Z.of_nat (length l) ≤ i)%Z → spliceInsert l i x = l ++ [x].
Proof.
  intros Hi. unfold spliceInsert, spliceStart.
  destruct (Z.ltb_spec i 0); [lia|].
  rewrite Z.min_r by lia. rewrite Nat2Z.id.
  by rewrite take_ge, drop_ge by lia.
Qed.



Lemma lookup_alter_total {A} (f : A → A) (m : gmap jsstring A) i j x :
  m !! j = Some x →
  alter f i m !! j = Some (if decide (i = j) then f x else x).
Proof.
  intros H. rewrite lookup_alter. destruct (decide (i = j)) as [->|]; by rewrite H.
Qed.


(** ** Moving a node within a page *)


(** ** The split-file layout *)

Lemma pageFileName_inj : Inj (=) (=) pageFileName.
Proof. intros a b H. unfold pageFileName in H. by apply app_inv_tail in H. Qed.

Lemma pageFileName_json k : endsWithJson (pageFileName k) = true.
Proof.
  unfold endsWithJson, pageFileName. apply bool_decide_eq_true.
  by apply suffix_app_r.
Qed.

Lemma writePages_lookup (els : gmap jsstring Element) (l : object Page)
    (dir : gmap jsstring PageData) :
  NoDup (objKeys l) →
  foldl (λ (dir : gmap jsstring PageData) (kv : jsstring * Page),
           <[pageFileName kv.1 := mkPageData kv.2 (pageElements kv.1 els)]> dir)
    dir l
  = list_to_map ((λ kv, (pageFileName kv.1, pageDataOf els kv)) <$> l) ∪ dir.
Proof.
  revert dir. induction l as [|[k p] l IH]; intros dir Hnd.
  { cbn. by rewrite (left_id_L ∅ (∪)). }
  cbn in Hnd. apply NoDup_cons in Hnd as [Hk Hnd].
  cbn [foldl fmap list_fmap list_to_map]. rewrite IH by done. cbn.
  rewrite <- insert_union_l. rewrite <- insert_union_r; [done|].
  apply not_elem_of_list_to_map_1. rewrite <- list_fmap_compose.
  intros Hin. apply list_elem_of_fmap in Hin as ([k' p'] & Heq & Hin). cbn in Heq.
  apply pageFileName_inj in Heq as ->. apply Hk.
  apply list_elem_of_fmap. by exists (k', p').
Qed.

Lemma written_dir_lookup (st : DesignState) (d : Disk) (k : jsstring) (p : Page) :
  NoDup (objKeys (pages st)) → (k, p) ∈ pages st →
  pagesDir (writeSplitFiles st d) !! pageFileName k
  = Some (pageDataOf (elements st) (k, p)).
Proof.
  intros Hnd Hin. cbn [writeSplitFiles pagesDir]. rewrite writePages_lookup by done.
  apply lookup_union_Some_l. apply elem_of_list_to_map.
  - rewrite <- list_fmap_compose.
    apply (NoDup_fmap_2_strong _); [|by eapply NoDup_fmap_1].
    intros [k1 p1] [k2 p2] H1 H2 Heq. cbn in Heq.
    apply pageFileName_inj in Heq as ->. f_equal.
    by eapply object_functional.
  - apply list_elem_of_fmap. by exists (k, p).
Qed.

Lemma written_dir_json (st : DesignState) (d : Disk) (f : jsstring) :
  NoDup (objKeys (pages st)) →
  (∀ f, f ∈ dom (pagesDir d) → endsWithJson f = true →
        ∃ pid, pid ∈ objKeys (pages st) ∧ f = pageFileName pid) →
  f ∈ dom (pagesDir (writeSplitFiles st d)) ∧ endsWithJson f = true ↔
  f ∈ pageFileName <$> objKeys (pages st).
Proof.
  intros Hnd Hold. cbn [writeSplitFiles pagesDir]. rewrite writePages_lookup by done.
  rewrite dom_union, elem_of_union, dom_list_to_map, elem_of_list_to_set.
  rewrite <- list_fmap_compose.
  assert (((λ kv : jsstring * Page, (pageFileName kv.1, pageDataOf (elements st) kv)) <$> pages st).*1
          = pageFileName <$> objKeys (pages st)) as Hkeys.
  { unfold objKeys. rewrite <- !list_fmap_compose. done. }
  rewrite <- list_fmap_compose in Hkeys. rewrite Hkeys. split.
  - intros [[Hin|Hin] Hjson]; [done|].
    destruct (Hold f Hin Hjson) as (pid & Hpid & ->).
    apply list_elem_of_fmap. eauto.
  - intros Hin. split; [by left|].
    apply list_elem_of_fmap in Hin as (k & -> & _). apply pageFileName_json.
Qed.

Lemma mergePages_fst (raws : list PageData) (o : object Page) (a : gmap jsstring Element) :
  (foldl (λ (acc : object Page * gmap jsstring Element) (pageData : PageData),
            (objSet acc.1 (pg_id (pgd_page pageData)) (pgd_page pageData),
             pgd_elements pageData ∪ acc.2)) (o, a) raws).1
  = foldl (λ o pageData, objSet o (pg_id (pgd_page pageData)) (pgd_page pageData)) o raws.
Proof. revert o a. induction raws as [|r raws IH]; intros o a; [done|]. cbn. apply IH. Qed.

Lemma mergePages_snd (raws : list PageData) (o : object Page) (a : gmap jsstring Element) :
  (foldl (λ (acc : object Page * gmap jsstring Element) (pageData : PageData),
            (objSet acc.1 (pg_id (pgd_page pageData)) (pgd_page pageData),
             pgd_elements pageData ∪ acc.2)) (o, a) raws).2
  = foldl (λ a pageData, pgd_elements pageData ∪ a) a raws.
Proof. revert o a. induction raws as [|r raws IH]; intros o a; [done|]. cbn. apply IH. Qed.

Lemma merged_pages (raws : list PageData) (o : object Page) :
  NoDup (objKeys o ++ ((λ r, pg_id (pgd_page r)) <$> raws)) →
  foldl (λ o pageData, objSet o (pg_id (pgd_page pageData)) (pgd_page pageData)) o raws
  = o ++ ((λ r, (pg_id (pgd_page r), pgd_page r)) <$> raws).
Proof.
  revert o. induction raws as [|r raws IH]; intros o Hnd.
  { cbn. by rewrite app_nil_r. }
  cbn [foldl fmap list_fmap].
  assert (pg_id (pgd_page r) ∉ objKeys o) as Hfresh.
  { apply NoDup_app in Hnd as (_ & Hdisj & _). intros Hin.
    apply (Hdisj _ Hin). set_solver. }
  rewrite objSet_fresh by done. rewrite IH.
  - by rewrite <- app_assoc.
  - unfold objKeys. rewrite fmap_app. cbn. rewrite <- app_assoc. done.
Qed.

Lemma merged_elements (els : gmap jsstring Element) (raws : list PageData)
    (a : gmap jsstring Element) :
  Forall (λ r, pgd_elements r ⊆ els) raws → a ⊆ els →
  foldl (λ a pageData, pgd_elements pageData ∪ a) a raws ⊆ els ∧
  ∀ id, (is_Some (a !! id) ∨ ∃ r, r ∈ raws ∧ is_Some (pgd_elements r !! id)) →
        foldl (λ a pageData, pgd_elements pageData ∪ a) a raws !! id = els !! id.
Proof.
  revert a. induction raws as [|r raws IH]; intros a Hall Ha.
  { cbn. split; [done|]. intros id [[e He]|(r & Hr & _)]; [|by apply elem_of_nil in Hr].
    rewrite He. symmetry. by eapply lookup_weaken. }
  apply Forall_cons in Hall as [Hr Hall]. cbn [foldl].
  destruct (IH (pgd_elements r ∪ a) Hall) as [Hsub Hcov].
  { by apply map_union_least. }
  split; [done|]. intros id Hid. apply Hcov.
  destruct Hid as [[e He]|(r' & [->|Hr']%elem_of_cons & Hsome)].
  - left. destruct (pgd_elements r !! id) as [e'|] eqn:He'.
    + exists e'. by apply lookup_union_Some_l.
    + exists e. rewrite lookup_union_r by done. done.
  - left. destruct Hsome as [e He]. exists e. by apply lookup_union_Some_l.
  - right. eauto.
Qed.

Lemma parseTokens_valid (t : gmap jsstring props) :
  dom t = {[js "colors"; js "fonts"; js "spacing"]} → parseTokens t = t.
Proof.
  intros Hdom. apply map_eq. intros k. unfold parseTokens.
  assert (∀ c, c ∈ dom t → Some (default ∅ (t !! c)) = t !! c) as Hin.
  { intros c [v Hv]%elem_of_dom. by rewrite Hv. }
  destruct (decide (k = js "colors")) as [->|Hc].
  { rewrite lookup_insert_eq. apply Hin. rewrite Hdom. set_solver. }
  rewrite lookup_insert_ne by done.
  destruct (decide (k = js "fonts")) as [->|Hf].
  { rewrite lookup_insert_eq. apply Hin. rewrite Hdom. set_solver. }
  rewrite lookup_insert_ne by done.
  destruct (decide (k = js "spacing")) as [->|Hs].
  { rewrite lookup_singleton_eq. apply Hin. rewrite Hdom. set_solver. }
  rewrite lookup_singleton_ne by done. symmetry.
  apply not_elem_of_dom. rewrite Hdom. set_solver.
Qed.


(** ** The debounced writer *)

Lemma not_dirty_not_flagged d p : isDirty d = false → ¬ flagged d p.
Proof.
  unfold isDirty. rewrite !orb_false_iff, !bool_decide_eq_false.
  intros [[[Hp Hs] Hpages] Hdel] Hf. destruct p; cbn in Hf.
  - congruence.
  - congruence.
  - apply dec_stable in Hpages, Hdel. set_solver.
Qed.

Lemma flushIfDirty_returned w :
  w_wait (flushIfDirty w) = HasReturned →
  isDirty (w_flags (flushIfDirty w)) = false.
Proof.
  unfold flushIfDirty, doFlush. destruct (isDirty (w_flags w)) eqn:Hd; cbn; [done|].
  by intros _.
Qed.

Lemma turn_called w w' : turn w w' → w_wait w ≠ NotCalled → w_wait w' ≠ NotCalled.
Proof.
  destruct 1; intros Hw; cbn; try done.
  - unfold doFlush. cbn. by destruct (isDirty _).
  - unfold doFlush. cbn. by destruct (isDirty _).
  - unfold completeSave. destruct (w_wait w) eqn:Hwait; cbn; try done.
    + case_decide; cbn; [|by rewrite ?Hwait].
      unfold flushIfDirty, doFlush. cbn. done.
    + case_decide; cbn; [done|by rewrite ?Hwait].
  - unfold failSave. destruct (w_wait w) eqn:Hwait; cbn; try done.
    all: case_decide; cbn; [done|by rewrite ?Hwait].
Qed.

Lemma waitForFlush_called w : w_wait (waitForFlush w) ≠ NotCalled.
Proof.
  unfold waitForFlush. cbn. destruct (w_flushPromise w); cbn; [done|].
  unfold flushIfDirty, doFlush. cbn. by destruct (isDirty _).
Qed.

Lemma turns_called w w' :
  rtc turn w w' → w_wait w ≠ NotCalled → w_wait w' ≠ NotCalled.
Proof. induction 1; eauto using turn_called. Qed.

Lemma turn_returned w w' :
  turn w w' → w_wait w ≠ NotCalled → w_wait w' = HasReturned →
  isDirty (w_flags w') = false.
Proof.
  destruct 1 as [w Hc|touched w H1 H2|w H1 H2|w H1 H2 Ht|w H1 H2
                |i captured w H1 H2 Hi|i captured w H1 H2 Hi]; intros Hcalled; cbn.
  - done.
  - done.
  - done.
  - unfold doFlush. cbn. by destruct (isDirty _).
  - unfold doFlush. cbn. by destruct (isDirty _).
  - unfold completeSave. destruct (w_wait w) eqn:Hwait; cbn; try done.
    + case_decide; cbn; [|by rewrite ?Hwait]. apply flushIfDirty_returned.
    + case_decide; cbn; [done|by rewrite ?Hwait].
  - unfold failSave. destruct (w_wait w) eqn:Hwait; cbn; try done.
    all: case_decide; cbn; [done|by rewrite ?Hwait].
Qed.


(** ** Token propagation *)

Lemma updateToken_unset (m : Manager) (category key newValue : jsstring) :
  tokenValue (state m) category key = None →
  inheritedName category = false → inheritedName key = false →
  updateTokenWithPropagation category key newValue m = Some (Thrown NotFound, m).
Proof.
  unfold tokenValue. intros H Hc Hk.
  unfold updateTokenWithPropagation. unfold_action. cbn.
  destruct (designTokens (state m) !! category) as [cat|]; cbn in H |- *.
  - by rewrite H, Hk.
  - by rewrite Hc.
Qed.

Lemma updateToken_same (m : Manager) (category key newValue : jsstring) :
  tokenValue (state m) category key = Some newValue →
  updateTokenWithPropagation category key newValue m = Some (Returned 0, m).
Proof.
  unfold tokenValue. intros H. unfold updateTokenWithPropagation. unfold_action.
  cbn. destruct (designTokens (state m) !! category) as [cat|]; cbn in H |- *;
    [|done].
  rewrite H. cbn. by rewrite decide_True.
Qed.

Lemma updateToken_sets (m m' : Manager) (category key newValue : jsstring)
    (count : nat) :
  updateTokenWithPropagation category key newValue m = Some (Returned count, m') →
  tokenValue (state m') category key = Some newValue.
Proof.
  unfold updateTokenWithPropagation, tokenValue. unfold_action. cbn.
  destruct (designTokens (state m) !! category) as [cat|] eqn:Hcat; cbn;
    [|by destruct (inheritedName category)].
  destruct (cat !! key) as [old|] eqn:Hold; cbn;
    [|by destruct (inheritedName key)].
  destruct (decide (old = newValue)) as [->|Hne]; cbn.
  - intros ?; simplify_eq. by rewrite Hcat.
  - destruct (bool_decide (0 < _)); cbn; intros ?; simplify_eq; cbn.
    all: rewrite lookup_insert_eq; cbn; by rewrite lookup_insert_eq.
Qed.

Lemma updateToken_propagates (m : Manager) (category key newValue oldValue : jsstring) :
  tokenValue (state m) category key = Some oldValue →
  oldValue ≠ newValue → 36%N ∉ newValue →
  ∃ count m',
    updateTokenWithPropagation category key newValue m = Some (Returned count, m') ∧
    (∀ selector, styles (state m') !! selector = None ↔
                 styles (state m) !! selector = None) ∧
    (∀ selector (ps ps' : props),
       styles (state m) !! selector = Some ps →
       styles (state m') !! selector = Some ps' →
       ∀ prop, match ps !! prop, ps' !! prop with
               | Some val, Some val' => rewritten oldValue newValue val 0 0 val'
               | None, None => True
               | _, _ => False
               end) ∧
    tokenValue (state m') category key = Some newValue ∧
    (∀ c k, (c, k) ≠ (category, key) →
       tokenValue (state m') c k = tokenValue (state m) c k) ∧
    count = size (filter (λ kv, styles (state m') !! kv.1 ≠ Some kv.2)
                    (styles (state m))) ∧
    project (state m') = project (state m) ∧
    pages (state m') = pages (state m) ∧
    elements (state m') = elements (state m).
Proof.
  unfold tokenValue. intros H Hne Hplain.
  unfold updateTokenWithPropagation. unfold_action. cbn.
  destruct (designTokens (state m) !! category) as [cat|] eqn:Hcat;
    cbn in H |- *; [|done].
  rewrite H. cbn. rewrite decide_False by done. cbn.
  destruct (bool_decide (0 < _)); cbn in H |- *.
  all: eexists _, _; split; [reflexivity|]; cbn.
  all: split_and!; try done.
  all: try (intros selector; rewrite lookup_fmap;
            by destruct (styles (state m) !! selector)).
  all: try (intros selector ps ps' Hps; rewrite lookup_fmap, Hps; cbn;
            intros [= <-] prop; rewrite lookup_fmap;
            destruct (ps !! prop) as [val|]; cbn; [|done];
            by apply propagateValue_rewritten).
  all: try (rewrite lookup_insert_eq; cbn; by rewrite lookup_insert_eq).
  all: try (intros c k Hck; destruct (decide (c = category)) as [->|];
            [rewrite lookup_insert_eq, Hcat; cbn;
             rewrite lookup_insert_ne; [done|congruence]
            |by rewrite lookup_insert_ne]).
  all: f_equal; apply map_filter_ext; intros selector ps Hps; cbn;
    rewrite lookup_fmap, Hps; cbn;
    rewrite (selectorChanged_spec oldValue newValue) by done;
    split; [intros Hc [=]; done|intros Hc Heq; apply Hc; by f_equal].
Qed.


Example fff_inside_ffffff : ¬ boundaryOccurrence (js "#fff") (js "#ffffff") 0.
Proof. intros (_ & _ & _ & H). by specialize (H 102%N eq_refl). Qed.

(** * The claims *)





(** C2 (as amended). [updateTokenWithPropagation(category, key, newValue)]
    throws NotFound, changing nothing, when the token is unset and neither
    [category] nor [key] is a name inherited from [Object.prototype]; it
    returns
    0, changing nothing, when the token already holds [newValue]; and
    otherwise, for a [newValue] without a dollar sign, it rewrites every
    style property value from left to right, replacing by [newValue] each
    occurrence of the old value that is neither immediately preceded by an
    alphanumeric or hash character nor immediately followed by an
    alphanumeric character (a hash character after the occurrence does
    not protect it), sets the token to [newValue], leaves project, pages
    and elements alone, and returns the number of selectors whose
    properties changed. *)
Theorem updateTokenWithPropagation_rewrites (m : Manager)
    (category key newValue : jsstring) :
  (tokenValue (state m) category key = None →
     inheritedName category = false → inheritedName key = false →
     updateTokenWithPropagation category key newValue m
     = Some (Thrown NotFound, m)) ∧
  (tokenValue (state m) category key = Some newValue →
     updateTokenWithPropagation category key newValue m = Some (Returned 0, m)) ∧
  (∀ oldValue,
     tokenValue (state m) category key = Some oldValue →
     oldValue ≠ newValue → 36%N ∉ newValue →
     ∃ count m',
       updateTokenWithPropagation category key newValue m
       = Some (Returned count, m') ∧
       (∀ selector, styles (state m') !! selector = None ↔
                    styles (state m) !! selector = None) ∧
       (∀ selector (ps ps' : props),
          styles (state m) !! selector = Some ps →
          styles (state m') !! selector = Some ps' →
          ∀ prop, match ps !! prop, ps' !! prop with
                  | Some val, Some val' => rewritten oldValue newValue val 0 0 val'
                  | None, None => True
                  | _, _ => False
                  end) ∧
       tokenValue (state m') category key = Some newValue ∧
       (∀ c k, (c, k) ≠ (category, key) →
          tokenValue (state m') c k = tokenValue (state m) c k) ∧
       count = size (filter (λ kv, styles (state m') !! kv.1 ≠ Some kv.2)
                       (styles (state m))) ∧
       project (state m') = project (state m) ∧
       pages (state m') = pages (state m) ∧
       elements (state m') = elements (state m)).
Proof.
  split_and!.
  - apply updateToken_unset.
  - apply updateToken_same.
  - intros oldValue. apply updateToken_propagates.
Qed.

Lemma no_dollar_in_000 : 36%N ∉ js "#000".
Proof. refine (bool_decide_unpack _ _). vm_compute. exact I. Defined.

Lemma updateTokenWithPropagation_rewrites_witness :
  ∃ count m',
    updateTokenWithPropagation (js "colors") (js "bg") (js "#000")
      (sampleStyled "1px solid #fff") = Some (Returned count, m') ∧
    tokenValue (state m') (js "colors") (js "bg") = Some (js "#000") ∧
    count = size (filter (λ kv, styles (state m') !! kv.1 ≠ Some kv.2)
                    (styles (state (sampleStyled "1px solid #fff")))).
Proof.
  destruct (updateTokenWithPropagation_rewrites (sampleStyled "1px solid #fff")
              (js "colors") (js "bg") (js "#000")) as (_ & _ & H).
  destruct (H (js "#fff")) as (count & m' & Hrun & _ & _ & Htoken & _ & Hcount & _).
  - vm_compute. reflexivity.
  - discriminate.
  - exact no_dollar_in_000.
  - exists count, m'. split; [exact Hrun|]. split; [exact Htoken|exact Hcount].
Defined.

(** C2, the claim as stated fails: in [#fff#abc] the occurrence of [#fff]
    is immediately followed by a hash character, and it is replaced. *)
Lemma updateToken_hash_follows_counterexample :
  js "#fff#abc" !! 4 = Some 35%N ∧
  styles (state (sampleStyled "#fff#abc")) !! js ".hero"
    = Some {[js "color" := js "#fff#abc"]} ∧
  ∃ m',
    updateTokenWithPropagation (js "colors") (js "bg") (js "#000")
      (sampleStyled "#fff#abc") = Some (Returned 1, m') ∧
    styles (state m') !! js ".hero" = Some {[js "color" := js "#000#abc"]}.
Proof.
  split; [reflexivity|]. split; [vm_compute; reflexivity|].
  eexists. split; vm_compute; reflexivity.
Qed.

(** A dollar sign of the new value is read as a replacement pattern. *)
Example updateToken_dollar_pattern :
  ∃ m',
    updateTokenWithPropagation (js "colors") (js "bg") (js "$&0")
      (sampleStyled "#fff") = Some (Returned 1, m') ∧
    styles (state m') !! js ".hero" = Some {[js "color" := js "#fff0"]}.
Proof. eexists. split; vm_compute; reflexivity. Qed.

(** C8. [updateTokenWithPropagation] is idempotent: after a call that
    returned, the same call returns 0 and leaves the manager as it is. *)
Theorem updateTokenWithPropagation_idempotent (m m1 : Manager)
    (category key v : jsstring) (count : nat) :
  updateTokenWithPropagation category key v m = Some (Returned count, m1) →
  updateTokenWithPropagation category key v m1 = Some (Returned 0, m1).
Proof.
  intros Hfirst. apply updateToken_same. by eapply updateToken_sets.
Qed.

Lemma updateTokenWithPropagation_idempotent_witness :
  let m1 :=
    after (updateTokenWithPropagation (js "colors") (js "bg") (js "#000"))
      (sampleStyled "#fff") in
  updateTokenWithPropagation (js "colors") (js "bg") (js "#000") m1
  = Some (Returned 0, m1).
Proof.
  intros m1.
  apply (updateTokenWithPropagation_idempotent (sampleStyled "#fff") m1
           (js "colors") (js "bg") (js "#000") 1).
  vm_compute. reflexivity.
Defined.




(** C4 (as amended). For a document the schema accepts, whose pages are
    each stored under their own [id], with identifiers that are plain file
    names, and whose elements all belong to an existing page, writing the
    split files into a directory whose page files, if any, are those of
    current pages, and loading them back, in whatever order the directory
    is listed, gives the same project metadata, the same pages up to
    their order, and the same elements, styles and tokens. *)
Theorem split_files_round_trip (st : DesignState) (d : Disk) (listing : list jsstring) :
  validState st → Forall plainFileName (objKeys (pages st)) → elementsOwned st →
  (∀ f, f ∈ dom (pagesDir d) → endsWithJson f = true →
        ∃ pid, pid ∈ objKeys (pages st) ∧ f = pageFileName pid) →
  NoDup listing →
  (∀ f, f ∈ listing ↔ f ∈ dom (pagesDir (writeSplitFiles st d))) →
  ∃ st',
    loadSplitFiles listing (writeSplitFiles st d) = Some st' ∧
    project st' = project st ∧
    pages st' ≡ₚ pages st ∧
    elements st' = elements st ∧
    styles st' = styles st ∧
    designTokens st' = designTokens st.
Proof.
  intros (Hnd & Hpages & Htype & Htokens) _ Howned Hold Hlnd Hlisting.
  set (dir := pagesDir (writeSplitFiles st d)) in *.
  set (names := filter (λ f, endsWithJson f = true) listing).
  set (dummy := mkPageData (mkPage [] [] None ∅) ∅).
  set (content := λ f : jsstring, default dummy (dir !! f)).
  assert (names ≡ₚ pageFileName <$> objKeys (pages st)) as Hnames.
  { apply NoDup_Permutation.
    - by apply NoDup_filter.
    - apply (NoDup_fmap_2 _), Hnd.
    - intros f. subst names. rewrite list_elem_of_filter, Hlisting.
      rewrite <- (written_dir_json st d f Hnd Hold). tauto. }
  assert (content <$> (pageFileName <$> objKeys (pages st))
          = pageDataOf (elements st) <$> pages st) as Hcontent.
  { unfold objKeys. rewrite <- !list_fmap_compose.
    apply Forall_fmap_ext_1, Forall_forall.
    intros [k p] Hin. unfold compose, content, dir. cbn [fst].
    by erewrite written_dir_lookup. }
  assert (mapM (λ f, dir !! f) names = Some (content <$> names)) as Hread.
  { apply mapM_Some_2, Forall2_fmap_r, Forall_Forall2_diag, Forall_forall.
    intros f Hf. rewrite Hnames in Hf.
    apply list_elem_of_fmap in Hf as (k & -> & Hk).
    apply list_elem_of_fmap in Hk as ([k' p] & -> & Hin).
    unfold compose, content, dir. cbn [fst].
    by erewrite written_dir_lookup. }
  assert (content <$> names ≡ₚ pageDataOf (elements st) <$> pages st) as Hraws.
  { rewrite <- Hcontent. by apply fmap_Permutation. }
  assert ((λ r, (pg_id (pgd_page r), pgd_page r)) <$> (pageDataOf (elements st) <$> pages st)
          = pages st) as Hids.
  { rewrite <- list_fmap_compose. rewrite <- (list_fmap_id (pages st)) at 2.
    apply Forall_fmap_ext_1. eapply Forall_impl; [exact Hpages|].
    intros [k p] [Hid _]. cbn in *. by rewrite Hid. }
  unfold loadSplitFiles. cbn [writeSplitFiles projectJson stylesJson mbind option_bind].
  fold dir. fold names. rewrite Hread. cbn [mbind option_bind].
  unfold mergePages. rewrite mergePages_fst, mergePages_snd.
  rewrite merged_pages.
  2:{ change (objKeys [] ++ ?l) with l. rewrite Hraws, <- list_fmap_compose.
      assert ((λ r, pg_id (pgd_page r)) ∘ pageDataOf (elements st) <$> pages st
              = objKeys (pages st)) as ->; [|done].
      apply Forall_fmap_ext_1. eapply Forall_impl; [exact Hpages|].
      by intros [k p] [Hid _]. }
  cbn [app].
  destruct (merged_elements (elements st) (content <$> names) ∅) as [Hsub Hcov].
  { rewrite Hraws. apply Forall_fmap, Forall_forall. intros [k p] _. cbn.
    apply map_filter_subseteq. }
  { apply map_empty_subseteq. }
  assert (foldl (λ a pageData, pgd_elements pageData ∪ a) ∅ (content <$> names)
          = elements st) as Hels.
  { apply map_eq. intros id. destruct (elements st !! id) as [e|] eqn:He.
    - rewrite Hcov, He; [done|]. right.
      pose proof (Howned id e He) as Hpage.
      apply list_elem_of_fmap in Hpage as ([k p] & Hk & Hin). cbn in Hk.
      exists (pageDataOf (elements st) (k, p)). split.
      + rewrite Hraws. apply list_elem_of_fmap. eauto.
      + exists e. cbn. apply map_lookup_filter_Some. split; [done|]. cbn. done.
    - eapply lookup_weaken_None; done. }
  rewrite Hels. unfold parseState. cbn [project pages].
  rewrite bool_decide_eq_true_2 by done. cbn [andb].
  assert (forallb (λ kv : jsstring * Page, bool_decide (is_Some (pg_rootId kv.2)))
            ((λ r, (pg_id (pgd_page r), pgd_page r)) <$> (content <$> names)) = true) as ->.
  { apply Is_true_true, forallb_True. rewrite Hraws, Hids.
    eapply Forall_impl; [exact Hpages|]. intros kv [_ ?]. by apply bool_decide_pack. }
  eexists. split; [reflexivity|]. cbn.
  split_and!; try done.
  - by rewrite Hraws, Hids.
  - by apply parseTokens_valid.
Qed.

Lemma createDefaultState_valid : validState createDefaultState.
Proof.
  split_and!.
  - apply NoDup_singleton.
  - apply Forall_singleton. split; [reflexivity|]. by eexists.
  - apply list_elem_of_here.
  - vm_compute. reflexivity.
Defined.

Lemma createDefaultState_owned : elementsOwned createDefaultState.
Proof.
  intros id e H. cbn [createDefaultState elements] in H.
  apply lookup_singleton_Some in H as [_ <-]. apply list_elem_of_here.
Defined.

Lemma split_files_round_trip_witness :
  ∃ st',
    loadSplitFiles [js "notes.txt"; js "page-1.json"]
      (writeSplitFiles createDefaultState
         (mkDisk None None {[js "notes.txt" := mkPageData (mkPage [] [] None ∅) ∅]}))
    = Some st' ∧
    project st' = project createDefaultState ∧
    pages st' ≡ₚ pages createDefaultState ∧
    elements st' = elements createDefaultState ∧
    styles st' = styles createDefaultState ∧
    designTokens st' = designTokens createDefaultState.
Proof.
  apply split_files_round_trip.
  - exact createDefaultState_valid.
  - apply Forall_singleton. unfold plainFileName.
    refine (bool_decide_unpack _ _). vm_compute. exact I.
  - exact createDefaultState_owned.
  - intros f Hf Hjson. cbn [pagesDir] in Hf. rewrite dom_singleton_L in Hf.
    apply elem_of_singleton in Hf as ->. vm_compute in Hjson. discriminate.
  - apply NoDup_cons. split; [|apply NoDup_singleton].
    intros Hin%list_elem_of_singleton. vm_compute in Hin. discriminate.
  - intros f.
    cbn [writeSplitFiles pagesDir pages createDefaultState foldl fst snd].
    rewrite dom_insert_L, dom_singleton_L.
    rewrite elem_of_union, !elem_of_singleton, elem_of_cons, list_elem_of_singleton.
    unfold pageFileName. tauto.
Defined.

(** C4, the claim as stated fails: a document the schema accepts, whose
    one page is stored under the key page-1 and carries the [id] home, is
    written to page-1.json and comes back with the page under the key
    home, to which no element belongs. *)
Lemma split_files_page_key_counterexample :
  schemaValid sampleOtherId ∧ elementsOwned sampleOtherId ∧
  ∃ st',
    loadSplitFiles [js "page-1.json"]
      (writeSplitFiles sampleOtherId (mkDisk None None ∅)) = Some st' ∧
    objKeys (pages sampleOtherId) = [js "page-1"] ∧
    objKeys (pages st') = [js "home"] ∧
    ¬ pages st' ≡ₚ pages sampleOtherId.
Proof.
  split; [|split].
  - unfold schemaValid. split_and!.
    + apply NoDup_singleton.
    + apply Forall_singleton. by eexists.
    + apply list_elem_of_here.
    + vm_compute. reflexivity.
  - intros id e H. cbn in H.
    apply lookup_singleton_Some in H as [_ <-]. apply list_elem_of_here.
  - eexists. split; [vm_compute; reflexivity|].
    split; [reflexivity|]. split; [reflexivity|].
    intros Hp. apply (fmap_Permutation fst) in Hp. cbn in Hp.
    apply Permutation_singleton_inj in Hp. discriminate Hp.
Qed.



(** C6. With exactly one page, [deletePage] of that page throws
    InvalidOperation and leaves the manager as it was.  With more than one
    page, [deletePage] of an existing page removes the page and the
    elements whose [pageId] is that page, keeps the other pages, the other
    elements, the styles and the tokens, and, when the page was the active
    one, makes a remaining page the active page. *)
Theorem deletePage_last_page (m : Manager) (pageId : jsstring) :
  (∀ page, pages (state m) = [(pageId, page)] →
     deletePage pageId m = Some (Thrown InvalidOperation, m)) ∧
  (∀ page,
     NoDup (objKeys (pages (state m))) →
     objGet (pages (state m)) pageId = Some page →
     1 < length (pages (state m)) →
     ∃ m',
       deletePage pageId m = Some (Returned (), m') ∧
       (∀ k, objGet (pages (state m')) k
             = if decide (k = pageId) then None else objGet (pages (state m)) k) ∧
       (∀ id e, elements (state m') !! id = Some e ↔
                elements (state m) !! id = Some e ∧ el_pageId e ≠ pageId) ∧
       styles (state m') = styles (state m) ∧
       designTokens (state m') = designTokens (state m) ∧
       (pr_activePageId (project (state m)) = pageId →
          pr_activePageId (project (state m')) ∈ objKeys (pages (state m')) ∧
          pr_activePageId (project (state m')) ≠ pageId) ∧
       (pr_activePageId (project (state m)) ≠ pageId →
          project (state m') = project (state m))).
Proof.
  split.
  - intros page Hp. unfold deletePage. unfold_action. cbn. rewrite Hp. cbn.
    by rewrite decide_True.
  - intros page Hnd Hget Hlen.
    unfold deletePage. unfold_action. cbn. rewrite Hget. cbn.
    rewrite bool_decide_eq_false_2 by (unfold objKeys; rewrite length_fmap; lia).
    cbn.
    pose proof (objDelete_nonempty (pages (state m)) pageId Hnd Hlen) as Hne.
    destruct (decide (pr_activePageId (project (state m)) = pageId)) as [Hact|Hact];
      cbn; (eexists; split; [reflexivity|]); cbn.
    all: split; [apply objGet_delete|].
    all: split; [intros id e; by rewrite map_lookup_filter_Some|].
    all: split; [done|]. all: split; [done|].
    all: split; [|done].
    + intros _.
      pose proof (objKeys_delete (pages (state m)) pageId) as Hkeys.
      unfold objDelete, objKeys in *.
      destruct (filter _ (pages (state m))) as [|[k0 v0] o] eqn:Ho; [done|].
      cbn. split; [set_solver|].
      apply (Hkeys k0). set_solver.
    + done.
Qed.

Lemma deletePage_last_page_witness :
  ∃ m',
    deletePage (js "page-1") sampleTwoPages = Some (Returned (), m') ∧
    objGet (pages (state m')) (js "page-1") = None ∧
    pr_activePageId (project (state m')) ∈ objKeys (pages (state m')) ∧
    pr_activePageId (project (state m')) ≠ js "page-1".
Proof.
  destruct (deletePage_last_page sampleTwoPages (js "page-1")) as [_ H].
  destruct (H (mkPage (js "page-1") (js "Home") (Some (js "root-1")) ∅))
    as (m' & Hrun & Hpages & _ & _ & _ & Hactive & _).
  - vm_compute. apply NoDup_cons. split; [|apply NoDup_singleton].
    intros Hin%list_elem_of_singleton. discriminate.
  - vm_compute. reflexivity.
  - vm_compute. lia.
  - exists m'. split; [exact Hrun|]. split.
    + rewrite Hpages. by rewrite decide_True.
    + apply Hactive. reflexivity.
Defined.

(** On the flags alone: whatever mutations, timers, other flushes and
    completions of saves come in between, when the call of [waitForFlush]
    returns, no partition that was flagged dirty when it was called is
    flagged dirty.  This says nothing of what was written. *)
Lemma waitForFlush_clean (w0 w : World) :
  w_wait w0 = NotCalled →
  rtc turn (waitForFlush w0) w →
  w_wait w = HasReturned →
  ∀ p, flagged (w_flags w0) p → ¬ flagged (w_flags w) p.
Proof.
  intros H0 Hturns Hret p Hp.
  apply rtc_inv_r in Hturns as [<-|(w1 & Hturns & Hlast)].
  - revert Hret. unfold waitForFlush. cbn. destruct (w_flushPromise w0); [done|].
    unfold flushIfDirty, doFlush. cbn.
    destruct (isDirty (w_flags w0)) eqn:Hd; cbn; [done|]. intros _.
    by apply not_dirty_not_flagged.
  - apply not_dirty_not_flagged. eapply turn_returned; [done| |done].
    eapply turns_called; [done|]. apply waitForFlush_called.
Qed.

Lemma waitForFlush_clean_witness :
  ¬ flagged
      (w_flags (completeSave 0 (mkDirty true false ∅ ∅) (waitForFlush sampleWorld)))
      ProjectPartition.
Proof.
  refine (waitForFlush_clean sampleWorld _ _ _ _ ProjectPartition _).
  - reflexivity.
  - apply rtc_once. apply (turn_saved 0 (mkDirty true false ∅ ∅)).
    + vm_compute. discriminate.
    + vm_compute. discriminate.
    + vm_compute. reflexivity.
  - vm_compute. reflexivity.
  - reflexivity.
Defined.

(** C7, the code at the failing history.  The project data are changed
    while save 0, which writes the styles, is pending; [waitForFlush] is
    then called with the project partition flagged, and waits for save 0.
    The completion of save 0 clears every flag, also the one set after
    the save had read them; [waitForFlush] finds nothing dirty and returns
    without starting another save: save 0 is the only save there has
    been, none is pending, and the project data are not on disk. *)
Theorem waitForFlush_unsaved_partition :
  rtc turn idleWorld changedDuringSave ∧
  w_wait changedDuringSave = NotCalled ∧
  flagged (w_flags changedDuringSave) ProjectPartition ∧
  w_inflight changedDuringSave = {[0 := stylesTouched]} ∧
  w_wait (waitForFlush changedDuringSave) = AwaitingFlush 0 ∧
  let w := completeSave 0 stylesTouched (waitForFlush changedDuringSave) in
  turn (waitForFlush changedDuringSave) w ∧
  w_wait w = HasReturned ∧
  w_nextSave w = 1 ∧
  w_inflight w = ∅ ∧
  isDirty (w_flags w) = false ∧
  flagged (w_unsaved w) ProjectPartition.
Proof.
  split_and!.
  - eapply rtc_l; [apply (turn_mutate stylesTouched); vm_compute; discriminate|].
    eapply rtc_l; [apply turn_flush; vm_compute; discriminate|].
    apply rtc_once. apply (turn_mutate projectTouched); vm_compute; discriminate.
  - reflexivity.
  - reflexivity.
  - vm_compute. reflexivity.
  - reflexivity.
  - cbn zeta. split_and!.
    + apply (turn_saved 0 stylesTouched).
      * vm_compute. discriminate.
      * vm_compute. discriminate.
      * vm_compute. reflexivity.
    + vm_compute. reflexivity.
    + vm_compute. reflexivity.
    + vm_compute. reflexivity.
    + vm_compute. reflexivity.
    + vm_compute. reflexivity.
Qed.

(** C9 (as amended). [createElement] throws NotFound, leaving the manager
    as it was, when [parentId] is neither a key of the element map nor a
    name the map inherits from [Object.prototype].  When [parentId] is a
    key of the map and the identifier drawn is new, it returns the new
    node, stored under its identifier with the [pageId] of the parent, and
    the parent's children are the former ones with the identifier
    inserted: at the end without [insertIndex] or with an [insertIndex] of
    at least their number; at [insertIndex] when it lies within; and for a
    negative [insertIndex] at that distance from the end, or in front when
    it reaches beyond.  The [insertIndex] is an integer throughout. *)
Theorem createElement_insertion nanoid (m : Manager) (p : CreateParams) :
  (elements (state m) !! cp_parentId p = None →
     inheritedName (cp_parentId p) = false →
     createElement nanoid p m = Some (Thrown NotFound, m)) ∧
  (∀ parent,
     elements (state m) !! cp_parentId p = Some parent →
     elements (state m) !! nanoid (drawn m) = None →
     ∃ e parent' m',
       createElement nanoid p m = Some (Returned e, m') ∧
       el_id e = nanoid (drawn m) ∧
       elements (state m') !! el_id e = Some e ∧
       el_pageId e = el_pageId parent ∧
       elements (state m') !! cp_parentId p = Some parent' ∧
       (cp_insertIndex p = None →
          el_children parent' = el_children parent ++ [el_id e]) ∧
       (∀ i, cp_insertIndex p = Some i →
          (Z.of_nat (length (el_children parent)) ≤ i)%Z →
          el_children parent' = el_children parent ++ [el_id e]) ∧
       (∀ i, cp_insertIndex p = Some i →
          (0 ≤ i ≤ Z.of_nat (length (el_children parent)))%Z →
          el_children parent'
          = take (Z.to_nat i) (el_children parent)
              ++ el_id e :: drop (Z.to_nat i) (el_children parent)) ∧
       (∀ i, cp_insertIndex p = Some i → (i < 0)%Z →
          let k := Z.to_nat (Z.max (Z.of_nat (length (el_children parent)) + i) 0) in
          el_children parent'
          = take k (el_children parent) ++ el_id e :: drop k (el_children parent))).
Proof.
  split.
  - intros H Hi. unfold createElement. unfold_action. cbn. by rewrite H, Hi.
  - intros parent Hp Hfresh.
    assert (nanoid (drawn m) ≠ cp_parentId p) as Hne by congruence.
    unfold createElement. unfold_action. cbn. rewrite Hp. cbn.
    rewrite decide_False by done. cbn.
    eexists _, _, _. split; [reflexivity|]. cbn.
    rewrite lookup_insert_ne by done. rewrite !lookup_insert_eq.
    split_and!; try done.
    + intros ->. done.
    + intros i -> Hi. cbn. by apply spliceInsert_append.
    + intros i -> Hi. cbn. unfold spliceInsert, spliceStart.
      destruct (Z.ltb_spec i 0); [lia|]. by rewrite Z.min_l by lia.
    + intros i -> Hi. cbn. unfold spliceInsert, spliceStart.
      destruct (Z.ltb_spec i 0); [done|lia].
Qed.


Lemma createElement_insertion_witness :
  ∃ e parent' m',
    createElement sampleIds (sampleCreate "span" (js "root-1") (Some 7%Z))
      sampleSiblings = Some (Returned e, m') ∧
    el_pageId e = js "page-1" ∧
    elements (state m') !! js "root-1" = Some parent' ∧
    el_children parent' = [js "id0"; js "id1"; el_id e].
Proof.
  destruct (createElement_insertion sampleIds sampleSiblings
              (sampleCreate "span" (js "root-1") (Some 7%Z))) as [_ H].
  destruct (H (mkElement (js "root-1") (js "div") [js "page-root"] ∅ None
                 [js "id0"; js "id1"] None (js "page-1")))
    as (e & parent' & m' & Hrun & _ & _ & Hpage & Hparent & _ & Happend & _).
  - vm_compute. reflexivity.
  - vm_compute. reflexivity.
  - exists e, parent', m'. split_and!; try done.
    apply (Happend 7%Z); [reflexivity|]. cbn. lia.
Defined.

(** C9, the claim as stated fails: with the children id0 and id1, the
    [insertIndex] -1 lies outside their range, and the new identifier
    comes before id1 instead of being appended. *)
Lemma createElement_negative_index_counterexample :
  ∃ e m',
    createElement sampleIds (sampleCreate "span" (js "root-1") (Some (-1)%Z))
      sampleSiblings = Some (Returned e, m') ∧
    (el_children <$> elements (state sampleSiblings) !! js "root-1")
      = Some [js "id0"; js "id1"] ∧
    (el_children <$> elements (state m') !! js "root-1")
      = Some [js "id0"; el_id e; js "id1"] ∧
    (el_children <$> elements (state m') !! js "root-1")
      ≠ Some ([js "id0"; js "id1"] ++ [el_id e]).
Proof.
  eexists _, _. split; [vm_compute; reflexivity|].
  split; [vm_compute; reflexivity|]. split; [vm_compute; reflexivity|].
  vm_compute. discriminate.
Qed.

(** C10. [decodeUnicodeEscapes] turns every escape, a backslash (the
    unit 92), the letter u (117) and four hexadecimal digits, each one of
    0 to 9, A to F or a to f, with the values d1 to d4, into the one unit
    4096 d1 + 256 d2 + 16 d3 + d4, whatever surrounds the escape; so
    backslash-u-0041, backslash-u-00e9 and backslash-u-4E2D in a row give
    the units 65, 233 and 20013.  A backslash-u not followed by four such
    digits is kept, and a string without backslash-u is left as it is.
    [createElement] stores the decoded text, and [null] for the empty
    string; [updateElement] stores the decoded text, the empty string
    included. *)
Theorem textContent_normalization nanoid (m : Manager) :
  (∀ s, decodeUnicodeEscapes (Str s) = Str (replaceEscapes s)) ∧
  (∀ a b h1 h2 h3 h4 d1 d2 d3 d4,
     hexDigitValue h1 d1 → hexDigitValue h2 d2 →
     hexDigitValue h3 d3 → hexDigitValue h4 d4 →
     replaceEscapes (a ++ [92; 117; h1; h2; h3; h4]%N ++ b)
     = replaceEscapes a
         ++ (4096 * d1 + 256 * d2 + 16 * d3 + d4)%N :: replaceEscapes b) ∧
  decodeUnicodeEscapes (Str (js "\u0041\u00e9\u4E2D")) = Str [65; 233; 20013]%N ∧
  decodeUnicodeEscapes (Str (js "\u12G4 \u00e")) = Str (js "\u12G4 \u00e") ∧
  (∀ s, includes s (js "\u") = false → replaceEscapes s = s) ∧
  (∀ p parent s,
     elements (state m) !! cp_parentId p = Some parent →
     cp_textContent p = Str s →
     ∃ e m',
       createElement nanoid p m = Some (Returned e, m') ∧
       elements (state m') !! el_id e = Some e ∧
       el_textContent e = if decide (s = []) then None else Some (replaceEscapes s)) ∧
  (∀ p e s,
     elements (state m) !! up_id p = Some e →
     up_textContent p = Str s →
     ∃ e' m',
       updateElement p m = Some (Returned e', m') ∧
       elements (state m') !! up_id p = Some e' ∧
       el_textContent e' = Some (replaceEscapes s)).
Proof.
  split_and!.
  - apply decodeUnicodeEscapes_Str.
  - intros. apply replaceEscapes_app_escape. by apply parseHex4_value.
  - vm_compute. reflexivity.
  - vm_compute. reflexivity.
  - apply replaceEscapes_no_escape.
  - intros p parent s Hp Hs. unfold createElement. unfold_action. cbn.
    rewrite Hp, Hs, decodeUnicodeEscapes_Str. cbn.
    destruct (decide (nanoid (drawn m) = cp_parentId p)) as [Heq|Hne]; cbn.
    + eexists _, _. split; [reflexivity|]. cbn. rewrite lookup_insert_eq.
      split; [done|]. destruct s as [|c s]; [done|].
      rewrite decide_False by done.
      destruct (replaceEscapes (c :: s)) eqn:E;
        [apply (proj1 (replaceEscapes_nil_iff _)) in E; discriminate|reflexivity].
    + eexists _, _. split; [reflexivity|]. cbn.
      rewrite lookup_insert_ne by done. rewrite lookup_insert_eq.
      split; [done|]. destruct s as [|c s]; [done|].
      rewrite decide_False by done.
      destruct (replaceEscapes (c :: s)) eqn:E;
        [apply (proj1 (replaceEscapes_nil_iff _)) in E; discriminate|reflexivity].
  - intros p e s He Hs. unfold updateElement. unfold_action. cbn.
    rewrite He. cbn. eexists _, _. split; [reflexivity|]. cbn.
    rewrite lookup_insert_eq. split; [done|].
    unfold updatedText. by rewrite Hs, decodeUnicodeEscapes_Str.
Qed.


Lemma textContent_normalization_witness :
  (∃ e m',
     createElement sampleIds
       (mkCreate (js "p") (js "root-1") None None (Str (js "caf\u00e9")) None)
       sampleManager
     = Some (Returned e, m') ∧
     elements (state m') !! el_id e = Some e ∧
     el_textContent e = Some [99; 97; 102; 233]%N) ∧
  (∃ e m',
     createElement sampleIds
       (mkCreate (js "p") (js "root-1") None None (Str []) None) sampleManager
     = Some (Returned e, m') ∧
     elements (state m') !! el_id e = Some e ∧
     el_textContent e = None) ∧
  (∃ e' m',
     updateElement (mkUpdate (js "root-1") None None None (Str [])) sampleManager
     = Some (Returned e', m') ∧
     elements (state m') !! js "root-1" = Some e' ∧
     el_textContent e' = Some []).
Proof.
  destruct (textContent_normalization sampleIds sampleManager)
    as (_ & Hdecode & _ & _ & _ & Hcreate & Hupdate).
  split_and!.
  - destruct (Hcreate (mkCreate (js "p") (js "root-1") None None
                         (Str (js "caf\u00e9")) None)
                (mkElement (js "root-1") (js "div") [js "page-root"] ∅ None []
                   None (js "page-1")) (js "caf\u00e9"))
      as (e & m' & Hrun & Hstored & Htext).
    + vm_compute. reflexivity.
    + reflexivity.
    + exists e, m'. split; [exact Hrun|]. split; [exact Hstored|].
      rewrite Htext.
      match goal with
      | |- context [replaceEscapes ?s] =>
          change s with (js "caf" ++ [92; 117; 48; 48; 101; 57]%N ++ [])
      end.
      rewrite (Hdecode (js "caf") [] 48 48 101 57 0 0 14 9)%N.
      * vm_compute. reflexivity.
      * left. split; [lia|reflexivity].
      * left. split; [lia|reflexivity].
      * right. right. split; [lia|reflexivity].
      * left. split; [lia|reflexivity].
  - destruct (Hcreate (mkCreate (js "p") (js "root-1") None None (Str []) None)
                (mkElement (js "root-1") (js "div") [js "page-root"] ∅ None []
                   None (js "page-1")) [])
      as (e & m' & Hrun & Hstored & Htext).
    + vm_compute. reflexivity.
    + reflexivity.
    + exists e, m'. split; [exact Hrun|]. split; [exact Hstored|exact Htext].
  - destruct (Hupdate (mkUpdate (js "root-1") None None None (Str []))
                (mkElement (js "root-1") (js "div") [js "page-root"] ∅ None []
                   None (js "page-1")) [])
      as (e' & m' & Hrun & Hstored & Htext).
    + vm_compute. reflexivity.
    + reflexivity.
    + exists e', m'. split; [exact Hrun|]. split; [exact Hstored|exact Htext].
Defined.

(** * Further properties *)

(** ** Shared lemmas *)

Lemma foldl_bind_None {A B} (f : B → A → option A) l :
  foldl (λ acc x, acc ≫= f x) None l = None.
Proof. induction l; [done|]. cbn. done. Qed.

Lemma drop_emitted (l : list Delta) ds : drop (length l) (l ++ ds) = ds.
Proof. by rewrite drop_app_length. Qed.

Lemma alter_Some {A} (f : A → A) (m : gmap jsstring A) k x :
  m !! k = Some x → alter f k m = <[k := f x]> m.
Proof.
  intros H. apply map_eq. intros j. destruct (decide (j = k)) as [->|].
  - by rewrite lookup_alter_eq, lookup_insert_eq, H.
  - by rewrite lookup_alter_ne, lookup_insert_ne.
Qed.

Lemma objGet_objSet {V} (o : object V) k v k' :
  objGet (objSet o k v) k' = if decide (k' = k) then Some v else objGet o k'.
Proof.
  induction o as [|[k0 v0] o IH]; cbn.
  { destruct (decide (k = k')) as [->|]; [by rewrite decide_True|by rewrite decide_False]. }
  destruct (decide (k0 = k)) as [->|Hne]; cbn.
  - destruct (decide (k = k')) as [->|]; [by rewrite decide_True|by rewrite decide_False].
  - rewrite IH. destruct (decide (k0 = k')) as [->|]; [by rewrite decide_False|done].
Qed.

Lemma objKeys_objSet {V} (o : object V) k v k' :
  k' ∈ objKeys (objSet o k v) ↔ k' = k ∨ k' ∈ objKeys o.
Proof.
  induction o as [|[k0 v0] o IH]; cbn; [set_solver|].
  destruct (decide (k0 = k)) as [->|Hne]; cbn; [set_solver|].
  rewrite !elem_of_cons, IH. naive_solver.
Qed.

Lemma NoDup_objSet {V} (o : object V) k v :
  NoDup (objKeys o) → NoDup (objKeys (objSet o k v)).
Proof.
  induction o as [|[k0 v0] o IH]; cbn; intros Hnd.
  { apply NoDup_singleton. }
  apply NoDup_cons in Hnd as [Hk0 Hnd]. case_decide; subst; cbn.
  - by apply NoDup_cons.
  - apply NoDup_cons. split; [|by apply IH].
    intros [->|Hin]%objKeys_objSet; done.
Qed.

Lemma Forall_objSet {V} (P : jsstring * V → Prop) (o : object V) k v :
  Forall P o → P (k, v) → Forall P (objSet o k v).
Proof.
  intros Ho Hv. induction Ho as [|[k0 v0] o H0 Ho IH]; cbn.
  { by apply Forall_singleton. }
  case_decide; subst; apply Forall_cons; done.
Qed.

Lemma objGet_is_Some {V} (o : object V) k : k ∈ objKeys o → is_Some (objGet o k).
Proof.
  induction o as [|[k0 v0] o IH]; cbn; [by intros ?%elem_of_nil|].
  intros [->|Hin]%elem_of_cons.
  - rewrite decide_True by done. eauto.
  - case_decide; eauto.
Qed.

Lemma NoDup_objDelete {V} (o : object V) k :
  NoDup (objKeys o) → NoDup (objKeys (objDelete o k)).
Proof.
  unfold objKeys, objDelete. induction o as [|[k0 v0] o IH]; [done|].
  rewrite fmap_cons. intros [Hk0 Hnd]%NoDup_cons.
  destruct (decide (k0 = k)) as [->|Hne].
  - rewrite filter_cons_False by (cbn; naive_solver). by apply IH.
  - rewrite filter_cons_True by done. rewrite fmap_cons.
    apply NoDup_cons. split; [|by apply IH].
    intros ([k1 v1] & Heq & [_ Hin]%list_elem_of_filter)%list_elem_of_fmap.
    cbn in Heq. subst. apply Hk0. apply list_elem_of_fmap. by exists (k1, v1).
Qed.

Lemma objGet_elem_of {V} (o : object V) k v :
  objGet o k = Some v → (k, v) ∈ o.
Proof.
  induction o as [|[k' v'] o IH]; cbn; [done|].
  case_decide; [intros [= ->]; subst; set_solver|set_solver].
Qed.

Lemma elem_of_objGet {V} (o : object V) k v :
  NoDup (objKeys o) → (k, v) ∈ o → objGet o k = Some v.
Proof.
  intros Hnd Hin. assert (is_Some (objGet o k)) as [v' Hv'].
  { clear Hnd. induction o as [|[k' v'] o IH]; [by apply elem_of_nil in Hin|].
    cbn. case_decide; [eauto|]. apply IH.
    apply elem_of_cons in Hin as [[= -> ->]|]; done. }
  rewrite Hv'. f_equal. eapply object_functional; eauto using objGet_elem_of.
Qed.

(** ** The viewer's copy *)

Lemma deleteElementRecursive_eq fuel id els :
  deleteElementRecursive fuel id els = deleteRecursive fuel id els.
Proof. reflexivity. Qed.

Lemma updateElementPageId_eq fuel id p els :
  updateElementPageId fuel id p els = updatePageId fuel id p els.
Proof. reflexivity. Qed.

Lemma deleteRecursive_fuel_mono fuel : ∀ fuel' id els r,
  fuel ≤ fuel' → deleteRecursive fuel id els = Some r →
  deleteRecursive fuel' id els = Some r.
Proof.
  induction fuel as [|fuel IH]; intros fuel' id els r Hle H.
  - cbn in H. destruct fuel'; cbn; destruct (els !! id); congruence.
  - destruct fuel' as [|fuel']; [lia|]. cbn in *.
    destruct (els !! id) as [e|]; [|done].
    apply fmap_Some in H as (r0 & H & ->). apply fmap_Some. exists r0. split; [|done].
    revert H. generalize (Some els).
    induction (el_children e) as [|c cs IHcs]; intros acc H; [done|].
    cbn in *. destruct acc as [a|]; cbn in *.
    + destruct (deleteRecursive fuel c a) as [a'|] eqn:E.
      * erewrite IH; [|lia|done]. by apply IHcs.
      * by rewrite foldl_bind_None in H.
    + by rewrite foldl_bind_None in H.
Qed.

Lemma updatePageId_fuel_mono fuel : ∀ fuel' id p els r,
  fuel ≤ fuel' → updatePageId fuel id p els = Some r →
  updatePageId fuel' id p els = Some r.
Proof.
  induction fuel as [|fuel IH]; intros fuel' id p els r Hle H.
  - cbn in H. destruct fuel'; cbn; destruct (els !! id); congruence.
  - destruct fuel' as [|fuel']; [lia|]. cbn in *.
    destruct (els !! id) as [e|]; [|done].
    revert H. generalize (Some (<[id:=withPageId p e]> els)).
    induction (el_children e) as [|c cs IHcs]; intros acc H; [done|].
    cbn in *. destruct acc as [a|]; cbn in *.
    + destruct (updatePageId fuel c p a) as [a'|] eqn:E.
      * erewrite IH; [|lia|done]. by apply IHcs.
      * by rewrite foldl_bind_None in H.
    + by rewrite foldl_bind_None in H.
Qed.

Lemma batchLoop_union (rules : list (jsstring * props)) (st : stylesheet) :
  (batchLoop rules st).1 = (batchLoop rules st).2 ∪ st.
Proof.
  unfold batchLoop.
  assert (∀ acc : stylesheet * stylesheet, acc.1 = acc.2 ∪ st →
    let r := foldl (λ (acc : stylesheet * stylesheet) (rule : jsstring * props),
               let merged := mergedStyle acc.1 rule.1 rule.2 in
               (<[rule.1 := merged]> acc.1, <[rule.1 := merged]> acc.2)) acc rules in
    r.1 = r.2 ∪ st) as Hgen.
  { induction rules as [|rule rules IH]; intros acc Hacc; [done|].
    cbn [foldl]. apply IH. cbn. rewrite Hacc at 2. by rewrite insert_union_l. }
  apply (Hgen (st, ∅)). cbn. by rewrite (left_id_L ∅ (∪)).
Qed.

Lemma unchanged_rule_fixed (old new : jsstring) (ps : props) :
  selectorChanged old ps = false → propagateValue old new <$> ps = ps.
Proof.
  intros Hno. apply bool_decide_eq_false in Hno.
  apply map_eq. intros prop. rewrite lookup_fmap.
  destruct (ps !! prop) as [val|] eqn:Hval; [|done]. cbn. f_equal.
  unfold propagateValue. destruct (regexTest _ val) eqn:Ht; [|done].
  exfalso. apply Hno. eauto.
Qed.

Lemma propagated_styles (old new : jsstring) (st : stylesheet) :
  (λ ps : props, propagateValue old new <$> ps) <$> st
  = ((λ ps : props, propagateValue old new <$> ps)
       <$> filter (λ kv, selectorChanged old kv.2 = true) st) ∪ st.
Proof.
  apply map_eq. intros sel. rewrite lookup_union, !lookup_fmap.
  destruct (st !! sel) as [ps|] eqn:Hsel; cbn.
  - destruct (selectorChanged old ps) eqn:Hch.
    + erewrite map_lookup_filter_Some_2; [done..|]. done.
    + rewrite map_lookup_filter_None_2; [|right; intros ? ?; cbn; congruence].
      cbn. by rewrite unchanged_rule_fixed.
  - rewrite map_lookup_filter_None_2; [done|by left].
Qed.

Ltac replay_one :=
  rewrite drop_emitted; cbn [replay foldl applyDelta mbind option_bind].

(** X1. A viewer whose copy equals the document before a call, and
    whose call stack is at least as deep as the engine's, holds the
    document as the call left it once it has applied the deltas the call
    emitted; the pages object has distinct keys, none of them the empty
    string, and a node created is not given its parent's identifier.  The
    one call it does not follow is [setDesignType], for whose delta the
    viewer has no handler: its copy stays as it was. *)
Theorem viewer_follows_engine nanoid stack vstack (op : Op) (m m' : Manager) :
  stack ≤ vstack →
  (∀ p, op = CreateElement p → nanoid (drawn m) ≠ cp_parentId p) →
  NoDup (objKeys (pages (state m))) → [] ∉ objKeys (pages (state m)) →
  perform nanoid stack op m = Some (Returned (), m') →
  replay vstack (drop (length (emitted m)) (emitted m')) (state m)
  = Some (match op with
          | SetDesignType _ => state m
          | _ => state m'
          end).
Proof.
  intros Hstack Hfresh Hnd Hkeys H. destruct op; cbn [perform] in H.
  - run_op H createElement.
    { by destruct (Hfresh p eq_refl). }
    replay_one. cbn. f_equal. unfold withElements. cbn. f_equal.
    apply map_eq. intros k.
    destruct (decide (k = cp_parentId p)) as [->|Hk].
    + rewrite lookup_alter_eq, lookup_insert_eq, lookup_insert_ne, E by done. done.
    + rewrite lookup_alter_ne by done.
      by rewrite (lookup_insert_ne _ (cp_parentId p)) by done.
  - run_op H updateElement.
    all: replay_one; cbn; f_equal; unfold withElements; cbn; f_equal.
    all: by erewrite alter_Some by done.
  - run_op H deleteElement.
    replay_one. rewrite deleteElementRecursive_eq.
    erewrite deleteRecursive_fuel_mono by done. done.
  - run_op H moveElement.
    + replay_one. rewrite E.
      pose proof (lookup_alter_total
        (λ oldParent : Element,
           withChildren (filter (λ cid, cid ≠ id) (el_children oldParent)) oldParent)
        _ l newParentId _ E1) as Hp1.
      pose proof (lookup_alter_total (withParentId (Some newParentId))
        _ id newParentId _ Hp1) as Hp2.
      rewrite Hp2.
      match goal with |- context [decide (el_pageId e = el_pageId ?x)] =>
        replace (el_pageId x) with (el_pageId e0)
          by (repeat case_decide; reflexivity) end.
      rewrite decide_True by done. done.
    + replay_one. rewrite E.
      pose proof (lookup_alter_total
        (λ oldParent : Element,
           withChildren (filter (λ cid, cid ≠ id) (el_children oldParent)) oldParent)
        _ l newParentId _ E1) as Hp1.
      pose proof (lookup_alter_total (withParentId (Some newParentId))
        _ id newParentId _ Hp1) as Hp2.
      rewrite Hp2.
      match goal with |- context [decide (el_pageId e = el_pageId ?x)] =>
        replace (el_pageId x) with (el_pageId e0)
          by (repeat case_decide; reflexivity) end.
      rewrite decide_False by done. rewrite updateElementPageId_eq.
      erewrite updatePageId_fuel_mono by done. done.
  - run_op H createElementTree. by replay_one.
  - run_op H createPage. by replay_one.
  - run_op H clonePage. by replay_one.
  - run_op H deletePage; replay_one; [|done].
    apply bool_decide_eq_false in E0.
    pose proof (objDelete_nonempty (pages (state m))
                  (pr_activePageId (project (state m))) Hnd) as Hne.
    unfold objDelete in Hne. unfold objKeys in E0. rewrite length_fmap in E0.
    destruct (filter _ (pages (state m))) as [|[k pg] rest] eqn:Hf.
    { exfalso. apply Hne; [lia|done]. }
    cbn. assert (k ∈ objKeys (pages (state m))) as Hk.
    { assert ((k, pg) ∈ filter (λ kv : jsstring * Page,
                 kv.1 ≠ pr_activePageId (project (state m))) (pages (state m))) as Hin
        by (rewrite Hf; set_solver).
      apply list_elem_of_filter in Hin as [_ Hin].
      apply list_elem_of_fmap. by exists (k, pg). }
    destruct k as [|c k]; [done|]. cbn. unfold objDelete. by rewrite Hf.
  - run_op H renamePage. replay_one. by rewrite E.
  - run_op H setActivePage. by replay_one.
  - run_op H setStyles. by replay_one.
  - run_op H batchSetStyles. replay_one. by rewrite batchLoop_union.
  - run_op H deleteStyles. by replay_one.
  - run_op H setDesignTokens. all: by replay_one.
  - run_op H updateTokenWithPropagation.
    + by rewrite drop_all.
    + rewrite <- app_assoc. replay_one. cbn.
      rewrite (propagated_styles l newValue (styles (state m))). done.
    + replay_one. rewrite (propagated_styles l newValue (styles (state m))).
      apply bool_decide_eq_false in E2.
      assert (filter (λ kv : jsstring * props, selectorChanged l kv.2 = true)
                (styles (state m)) = ∅) as ->.
      { apply map_size_empty_inv. lia. }
      rewrite fmap_empty, (left_id_L ∅ (∪)). by destruct (state m).
  - run_op H setDesignType. by replay_one.
  - run_op H setViewport. all: by replay_one.
Qed.

Lemma viewer_follows_engine_witness :
  let op := MoveElement (js "id1") (js "root-1") (Some 0%Z) in
  let m' := after (perform sampleIds 2 op) sampleChain in
  replay 2 (drop (length (emitted sampleChain)) (emitted m')) (state sampleChain)
  = Some (state m').
Proof.
  intros op m'.
  refine (viewer_follows_engine sampleIds 2 2 op sampleChain m' _ _ _ _ _).
  - lia.
  - intros p Hp. discriminate Hp.
  - refine (bool_decide_unpack _ _). vm_compute. exact I.
  - refine (bool_decide_unpack _ _). vm_compute. exact I.
  - vm_compute. reflexivity.
Defined.

(** The design type the viewer shows after [setDesignType] is the one it
    had. *)
Example viewer_misses_design_type :
  let m' := after (setDesignType (js "mobile-app")) sampleManager in
  pr_designType (project (state m')) = js "mobile-app" ∧
  (pr_designType ∘ project <$> replay 0 (emitted m') (state sampleManager))
  = Some (js "responsive-web").
Proof. split; vm_compute; reflexivity. Qed.


(** ** Incremental saving *)


Lemma writeDirtyPages_other st X dir f :
  (∀ k, k ∈ X → f ≠ pageFileName k) → writeDirtyPages st X dir !! f = dir !! f.
Proof.
  unfold writeDirtyPages.
  apply (set_fold_ind_L (λ (r : gmap jsstring PageData) (Y : gset jsstring),
    (∀ k, k ∈ Y → f ≠ pageFileName k) → r !! f = dir !! f)).
  - done.
  - intros x Y r Hx IH Hf. destruct (objGet (pages st) x).
    + rewrite lookup_insert_ne by (apply not_eq_sym, Hf; set_solver).
      apply IH. intros k Hk. apply Hf. set_solver.
    + apply IH. intros k Hk. apply Hf. set_solver.
Qed.









(** ** Calls and the directory *)

Lemma touches_refl P a : touches P a a.
Proof. intros k. by left. Qed.

Lemma touches_trans P a b c : touches P a b → touches P b c → touches P a c.
Proof.
  intros H1 H2 k. destruct (H1 k) as [E1|[A1 B1]], (H2 k) as [E2|[A2 B2]].
  - left. congruence.
  - right. split; [rewrite <- E1|]; done.
  - right. split; [|rewrite E2]; done.
  - right. done.
Qed.

Lemma touches_mono P Q a b : P ⊆ Q → touches P a b → touches Q a b.
Proof.
  intros HPQ H k. destruct (H k) as [?|[A B]]; [by left|right].
  split; intros; apply HPQ; eauto.
Qed.

Lemma touches_pageElements P a b p :
  touches P a b → p ∉ P → pageElements p b = pageElements p a.
Proof.
  intros H Hp. unfold pageElements. apply map_eq. intros k.
  apply option_eq. intros x. rewrite !map_lookup_filter_Some. cbn.
  destruct (H k) as [E|[A B]]; [by rewrite E|].
  split; intros [Hk <-]; exfalso; apply Hp; eauto.
Qed.

Lemma touches_insert P a k y :
  (∀ x, a !! k = Some x → el_pageId x ∈ P) → el_pageId y ∈ P →
  touches P a (<[k := y]> a).
Proof.
  intros Hx Hy j. destruct (decide (j = k)) as [->|].
  - right. split; [done|]. rewrite lookup_insert_eq. by intros ? [= <-].
  - left. by rewrite lookup_insert_ne.
Qed.

Lemma touches_alter P a k f :
  (∀ x, a !! k = Some x → f x = x ∨ (el_pageId x ∈ P ∧ el_pageId (f x) ∈ P)) →
  touches P a (alter f k a).
Proof.
  intros Hx j. destruct (decide (j = k)) as [->|]; [|left; by rewrite lookup_alter_ne].
  rewrite lookup_alter_eq. destruct (a !! k) as [x|] eqn:Hk; [|by left]. cbn.
  destruct (Hx x eq_refl) as [->|[? ?]]; [by left|].
  right. split; intros ? [= <-]; done.
Qed.

(** What a call must guarantee for the directory to stay in step. *)
Lemma inSync_preserved (m m' : Manager) (d : Disk) :
  inSync m d →
  (d_project (dirty m') = false →
     d_project (dirty m) = false ∧ project (state m') = project (state m)
     ∧ designTokens (state m') = designTokens (state m)) →
  (d_styles (dirty m') = false →
     d_styles (dirty m) = false ∧ styles (state m') = styles (state m)) →
  (∀ k p, objGet (pages (state m')) k = Some p → k ∉ d_pages (dirty m') →
     objGet (pages (state m)) k = Some p ∧ (k ∉ d_pages (dirty m)) ∧
     pageElements k (elements (state m')) = pageElements k (elements (state m))) →
  (∀ k, k ∈ objKeys (pages (state m)) ∨ k ∈ d_deletedPages (dirty m) →
     k ∈ objKeys (pages (state m')) ∨ k ∈ d_deletedPages (dirty m')) →
  (∀ k, k ∈ d_deletedPages (dirty m') → k ∉ objKeys (pages (state m'))) →
  inSync m' d.
Proof.
  intros Hs Hpr Hst Hpg Hfiles Hdel. split.
  - intros Hf. destruct (Hpr Hf) as (Hf0 & -> & ->). by apply (sync_project _ _ Hs).
  - intros Hf. destruct (Hst Hf) as (Hf0 & ->). by apply (sync_styles _ _ Hs).
  - intros k p Hk Hnot. destruct (Hpg k p Hk Hnot) as (Hk0 & Hnot0 & ->).
    by apply (sync_pages _ _ Hs).
  - intros f Hf Hjson. destruct (sync_files _ _ Hs f Hf Hjson) as (k & -> & Hk).
    exists k. split; [done|]. by apply Hfiles.
  - done.
Qed.

(** A call that changes elements of the pages [P] only, flags them, and
    leaves the rest alone. *)
Lemma inSync_elements (m : Manager) (d : Disk) (P D : gset jsstring)
    (els : gmap jsstring Element) (ds : list Delta) (n : nat) :
  inSync m d → touches P (elements (state m)) els →
  P ⊆ D → d_pages (dirty m) ⊆ D →
  inSync (mkManager (withElements els (state m))
            (mkDirty (d_project (dirty m)) (d_styles (dirty m))
               D (d_deletedPages (dirty m))) ds n) d.
Proof.
  intros Hs Ht HP HD. apply (inSync_preserved m); cbn; try done.
  - intros k p Hk Hnot. split_and!; [done|set_solver|].
    eapply touches_pageElements; [done|set_solver].
  - apply Hs.
Qed.

Lemma deleteRecursive_removes fuel : ∀ id els els',
  deleteRecursive fuel id els = Some els' →
  ∀ k, els' !! k = els !! k ∨ (els' !! k = None ∧ reach els id k).
Proof.
  induction fuel as [|fuel IH]; intros id els els' H k.
  { cbn in H. destruct (els !! id); [done|]. injection H as <-. by left. }
  cbn in H. destruct (els !! id) as [e|] eqn:He; [|injection H as <-; by left].
  apply fmap_Some in H as (r & H & ->).
  assert (∀ k, r !! k = els !! k ∨
            (r !! k = None ∧ ∃ c, c ∈ el_children e ∧ reach els c k)) as Hr.
  { clear k. revert H.
    assert (∀ cs a,
      (∀ k v, a !! k = Some v → els !! k = Some v) →
      (∀ k, a !! k = els !! k ∨ (a !! k = None ∧ ∃ c, c ∈ el_children e ∧ reach els c k)) →
      (∀ c, c ∈ cs → c ∈ el_children e) →
      foldl (λ acc childId, acc ≫= deleteRecursive fuel childId) (Some a) cs = Some r →
      ∀ k, r !! k = els !! k ∨ (r !! k = None ∧ ∃ c, c ∈ el_children e ∧ reach els c k))
      as Hgen.
    { induction cs as [|c cs IHcs]; intros a Hsub Ha Hcs Hf k.
      { cbn in Hf. injection Hf as <-. apply Ha. }
      cbn in Hf. destruct (deleteRecursive fuel c a) as [a'|] eqn:Hc;
        [|by rewrite foldl_bind_None in Hf].
      cbn in Hf. pose proof (IH _ _ _ Hc) as Hstep.
      apply (IHcs a'); [| |set_solver|done].
      - intros j v Hj. destruct (Hstep j) as [E|[E _]]; [|congruence].
        apply Hsub. congruence.
      - intros j. destruct (Hstep j) as [E|[E Hreach]].
        + rewrite E. apply Ha.
        + right. split; [done|]. exists c. split; [set_solver|].
          eapply reach_mono; eauto. }
    intros H. eapply (Hgen (el_children e) els); eauto. }
  destruct (decide (k = id)) as [->|Hne].
  - right. split; [by rewrite lookup_delete_eq|]. by eapply reach_self.
  - rewrite lookup_delete_ne by done. destruct (Hr k) as [?|[? (c & Hc & Hreach)]]; [by left|].
    right. split; [done|]. by eapply reach_child.
Qed.

Lemma restamped_refl P new a : restamped P new a a.
Proof. intros k. by left. Qed.

Lemma restamped_trans P new a b c :
  new ∈ P → restamped P new a b → restamped P new b c → restamped P new a c.
Proof.
  intros Hnew H1 H2 k.
  destruct (H1 k) as [E1|(e1 & A1 & P1 & B1)], (H2 k) as [E2|(e2 & A2 & P2 & B2)].
  - left. congruence.
  - right. exists e2. rewrite <- E1. done.
  - right. exists e1. rewrite E2. done.
  - right. exists e1. split_and!; [done..|]. rewrite B2. f_equal.
    rewrite B1 in A2. injection A2 as <-. done.
Qed.

Lemma restamped_touches P new a b : new ∈ P → restamped P new a b → touches P a b.
Proof.
  intros Hnew H k. destruct (H k) as [?|(e & A & HP & B)]; [by left|].
  right. split.
  - intros x Hx. by simplify_eq.
  - intros y Hy. rewrite B in Hy. by injection Hy as <-.
Qed.

Lemma closedUnder_restamped P new a b :
  new ∈ P → closedUnder P a → restamped P new a b → closedUnder P b.
Proof.
  intros Hnew Ha Hr k e c ce Hk HP Hc Hce.
  assert (∃ e0, a !! k = Some e0 ∧ el_pageId e0 ∈ P ∧ c ∈ el_children e0)
    as (e0 & Hk0 & HP0 & Hc0).
  { destruct (Hr k) as [E|(e0 & A & HP0 & B)].
    - exists e. by rewrite <- E.
    - exists e0. split_and!; [done..|]. rewrite B in Hk. by injection Hk as <-. }
  destruct (Hr c) as [E|(ce0 & A & HPc & B)].
  - eapply Ha; eauto. by rewrite <- E.
  - rewrite B in Hce. by injection Hce as <-.
Qed.

Lemma updatePageId_restamps P new fuel : ∀ id els els',
  new ∈ P → closedUnder P els →
  (∀ e, els !! id = Some e → el_pageId e ∈ P) →
  updatePageId fuel id new els = Some els' → restamped P new els els'.
Proof.
  induction fuel as [|fuel IH]; intros id els els' Hnew Hcl Hid H.
  { cbn in H. destruct (els !! id); [done|]. injection H as <-. apply restamped_refl. }
  cbn in H. destruct (els !! id) as [e|] eqn:He;
    [|injection H as <-; apply restamped_refl].
  assert (restamped P new els (<[id := withPageId new e]> els)) as H0.
  { intros k. destruct (decide (k = id)) as [->|].
    - right. exists e. rewrite lookup_insert_eq. eauto.
    - left. by rewrite lookup_insert_ne. }
  revert H H0. generalize (<[id := withPageId new e]> els).
  assert (∀ cs a, (∀ c, c ∈ cs → c ∈ el_children e) → restamped P new els a →
    foldl (λ acc childId, acc ≫= updatePageId fuel childId new) (Some a) cs = Some els' →
    restamped P new els els') as Hgen.
  { induction cs as [|c cs IHcs]; intros a Hcs Ha Hf.
    { cbn in Hf. by injection Hf as <-. }
    cbn in Hf. destruct (updatePageId fuel c new a) as [a'|] eqn:Hc;
      [|by rewrite foldl_bind_None in Hf].
    cbn in Hf. apply (IHcs a'); [set_solver| |done].
    eapply restamped_trans; [done..|]. eapply IH; [done| |..|done].
    - by eapply closedUnder_restamped.
    - intros ce Hce.
      assert (closedUnder P a) as Hcla by (by eapply closedUnder_restamped).
      destruct (Ha id) as [E|(e0 & A & HP0 & B)].
      + eapply (Hcla id e c ce); [congruence|by apply Hid|set_solver|done].
      + eapply (Hcla id _ c ce); [done|done| |done]. cbn.
        rewrite He in A. injection A as <-. set_solver. }
  intros a H H0. by eapply (Hgen (el_children e) a).
Qed.

Lemma defSize_unfold tag classes attributes textContent children :
  defSize (mkDef tag classes attributes textContent children) = S (defsSize children).
Proof. reflexivity. Qed.

Lemma defsSize_cons d l : defsSize (d :: l) = defSize d + defsSize l.
Proof. reflexivity. Qed.

Section Tree.
Context (nanoid : nat → jsstring) (pageId : jsstring).

Lemma freshOrOwn_touches a b n n' :
  freshOrOwn nanoid pageId a n → touches {[pageId]} a b → n ≤ n' → freshOrOwn nanoid pageId b n'.
Proof.
  intros Ha Ht Hn k x Hk Hx. destruct (Ht (nanoid k)) as [E|[_ B]].
  - eapply (Ha k); [lia|congruence].
  - specialize (B x Hx). set_solver.
Qed.

Lemma own_touches a b k :
  (∀ x, a !! k = Some x → el_pageId x = pageId) → touches {[pageId]} a b →
  ∀ y, b !! k = Some y → el_pageId y = pageId.
Proof.
  intros Ha Ht y Hy. destruct (Ht k) as [E|[_ B]].
  - apply Ha. congruence.
  - specialize (B y Hy). set_solver.
Qed.

Lemma createDef_touches n : ∀ def, defSize def ≤ n → ∀ pid s,
  freshOrOwn nanoid pageId s.1 s.2 → (∀ x, s.1 !! pid = Some x → el_pageId x = pageId) →
  touches {[pageId]} s.1 (createDef nanoid pageId def pid s).1.1 ∧
  (createDef nanoid pageId def pid s).1.2 = s.2 + defSize def.
Proof.
  induction n as [|n IH]; intros [tag classes attributes textContent children] Hn pid s Hfresh Hpid.
  { rewrite defSize_unfold in Hn. lia. }
  rewrite defSize_unfold in *. cbn [createDef].
  set (id := nanoid s.2).
  set (element := mkElement id tag _ _ _ _ _ pageId).
  set (els2 := alter _ pid (<[id := element]> s.1)).
  assert (touches {[pageId]} s.1 els2) as H2.
  { eapply touches_trans.
    - apply (touches_insert _ _ id element); [|set_solver].
      intros x Hx. apply elem_of_singleton. by eapply (Hfresh s.2).
    - apply touches_alter. intros x Hx. right. cbn.
      assert (el_pageId x = pageId) as ->; [|set_solver].
      destruct (decide (pid = id)) as [->|Hne].
      + rewrite lookup_insert_eq in Hx. by injection Hx as <-.
      + rewrite lookup_insert_ne in Hx by done. by apply Hpid. }
  assert (∀ x, els2 !! id = Some x → el_pageId x = pageId) as Hid.
  { intros x Hx. subst els2. apply lookup_alter_Some in Hx as [(_ & y & Hy & ->)|[_ Hy]].
    - rewrite lookup_insert_eq in Hy. by injection Hy as <-.
    - rewrite lookup_insert_eq in Hy. by injection Hy as <-. }
  cbn [fst snd].
  assert (∀ cs (t : gmap jsstring Element * nat),
    defsSize cs ≤ n → freshOrOwn nanoid pageId t.1 t.2 →
    (∀ x, t.1 !! id = Some x → el_pageId x = pageId) →
    let r := (fix createChildren (defs : list ElementDef)
                  (s : gmap jsstring Element * nat) : gmap jsstring Element * nat :=
                match defs with
                | [] => s
                | d :: defs' => createChildren defs' (createDef nanoid pageId d id s).1
                end) cs t in
    touches {[pageId]} t.1 r.1 ∧ r.2 = t.2 + defsSize cs) as Hloop.
  { induction cs as [|c cs IHcs]; intros t Hsz Hf Ht.
    { cbn. split; [apply touches_refl|lia]. }
    rewrite defsSize_cons in Hsz. cbn zeta.
    destruct (IH c ltac:(lia) id t Hf Ht) as [Hc1 Hc2].
    destruct (IHcs (createDef nanoid pageId c id t).1) as [Hr1 Hr2].
    - lia.
    - eapply freshOrOwn_touches; [done..|]. cbn in Hc2. rewrite Hc2. lia.
    - by eapply own_touches.
    - split.
      + eapply touches_trans; [done|]. apply Hr1.
      + rewrite defsSize_cons. cbn in Hr2. rewrite Hr2, Hc2. lia. }
  destruct (Hloop children (els2, S s.2)) as [Hr1 Hr2].
  - lia.
  - cbn. eapply freshOrOwn_touches; [done..|lia].
  - done.
  - split.
    + eapply touches_trans; [done|]. apply Hr1.
    + cbn in Hr2. rewrite Hr2. lia.
Qed.

Lemma createRecursive_touches pid : ∀ defs s,
  freshOrOwn nanoid pageId s.1 s.2 → (∀ x, s.1 !! pid = Some x → el_pageId x = pageId) →
  touches {[pageId]} s.1 (createRecursive nanoid pid defs pageId s).1.1 ∧
  (createRecursive nanoid pid defs pageId s).1.2 = s.2 + defsSize defs ∧
  length (createRecursive nanoid pid defs pageId s).2 = length defs.
Proof.
  induction defs as [|d defs IH]; intros s Hf Hp.
  { cbn. split_and!; [apply touches_refl|lia|done]. }
  cbn [createRecursive].
  destruct (createDef_touches (defSize d) d ltac:(lia) pid s Hf Hp) as [H1 H2].
  destruct (IH (createDef nanoid pageId d pid s).1) as (H3 & H4 & H5).
  - eapply freshOrOwn_touches; [done..|]. rewrite H2. lia.
  - by eapply own_touches.
  - cbn [fst snd]. split_and!.
    + eapply touches_trans; [done|]. apply H3.
    + rewrite H4, H2, defsSize_cons. lia.
    + cbn. by rewrite H5.
Qed.

End Tree.


Lemma cloneIds_fresh nanoid rootId : ∀ entries n p,
  p ∈ cloneIds nanoid rootId n entries →
  ∃ k, n ≤ k ∧ (p.2 = nanoid k ∨ p.2 = js "root-" ++ nanoid k).
Proof.
  induction entries as [|[id e] entries IH]; intros n p Hp; [by apply elem_of_nil in Hp|].
  cbn in Hp. apply elem_of_cons in Hp as [->|Hp].
  - exists n. split; [done|]. cbn. case_decide; auto.
  - destruct (IH _ _ Hp) as (k & Hk & Hor). exists k. split; [lia|done].
Qed.

Lemma cloneElements_touches pageId (full : list (jsstring * jsstring)) :
  ∀ (l : list (jsstring * jsstring)) els0 els,
  (∀ p x, p ∈ l → els0 !! p.2 = Some x → el_pageId x = pageId) →
  touches {[pageId]} els0 els →
  touches {[pageId]} els0
    (foldl (λ els p,
       match els !! p.1 with
       | Some src =>
           <[p.2 :=
               {| el_id := p.2;
                  el_tag := el_tag src;
                  el_classes := el_classes src;
                  el_attributes := el_attributes src;
                  el_textContent := el_textContent src;
                  el_children :=
                    filter (λ c, truthy c = true)
                      (omap (idMapGet full) (el_children src));
                  el_parentId :=
                    if truthyId (el_parentId src)
                    then el_parentId src ≫= idMapGet full
                    else None;
                  el_pageId := pageId |}]> els
       | None => els
       end) els l).
Proof.
  induction l as [|p l IH]; intros els0 els Hfresh Ht; [done|].
  cbn [foldl]. apply IH; [set_solver|].
  destruct (els !! p.1); [|done].
  eapply touches_trans; [done|]. apply touches_insert; [|set_solver].
  intros x Hx. apply elem_of_singleton.
  eapply own_touches; [|done..]. intros y. apply Hfresh. set_solver.
Qed.

Lemma unlist_child_touches (P : gset jsstring) (els : gmap jsstring Element)
    (pid id : jsstring) (e : Element) :
  pageIdsConsistent els → els !! id = Some e → el_pageId e ∈ P →
  ∀ x, els !! pid = Some x →
    withChildren (filter (λ cid, cid ≠ id) (el_children x)) x = x ∨
    (el_pageId x ∈ P ∧
     el_pageId (withChildren (filter (λ cid, cid ≠ id) (el_children x)) x) ∈ P).
Proof.
  intros Hcons He HP x Hx. destruct (decide (id ∈ el_children x)) as [Hin|Hout].
  - right. cbn. rewrite <- (Hcons pid x id e Hx Hin He). done.
  - left. rewrite filter_ne_notin by done. by destruct x.
Qed.

Lemma deleteRecursive_touches (stack : nat) (els g : gmap jsstring Element)
    (id : jsstring) (e : Element) :
  pageIdsConsistent els → els !! id = Some e →
  deleteRecursive stack id els = Some g →
  touches {[el_pageId e]} els g ∧ ∀ k x, g !! k = Some x → els !! k = Some x.
Proof.
  intros Hcons He Hdel. pose proof (deleteRecursive_removes _ _ _ _ Hdel) as Hr. split.
  - intros k. destruct (Hr k) as [?|[Hnone Hreach]]; [by left|].
    right. split; [|by rewrite Hnone].
    intros x Hx. apply elem_of_singleton. by eapply reach_same_page.
  - intros k x Hk. destruct (Hr k) as [?|[Hnone _]]; congruence.
Qed.

Lemma linksOf_alter (els : gmap jsstring Element) (id np i : jsstring)
    (f : Element → Element) (a : gmap jsstring Element) :
  linksOf els id np a →
  (∀ x, el_pageId (f x) = el_pageId x) →
  (∀ x c, c ∈ el_children (f x) → c ∈ el_children x ∨ (i = np ∧ c = id)) →
  linksOf els id np (alter f i a).
Proof.
  intros Ha Hpage Hch k y Hy. apply lookup_alter_Some in Hy as [(-> & x & Hx & ->)|[Hne Hy]].
  - destruct (Ha _ _ Hx) as (x0 & Hx0 & Hp & Hc). exists x0. split_and!; [done|by rewrite Hpage|].
    intros c [Hin|Hin]%Hch; [by apply Hc|by right].
  - by apply Ha.
Qed.

Lemma linksOf_relinked (els : gmap jsstring Element) (id l np : jsstring) (idx : option Z) :
  linksOf els id np (relinked els id l np idx).
Proof.
  unfold relinked. apply linksOf_alter; [apply linksOf_alter; [apply linksOf_alter|..]|..].
  - intros k x Hx. exists x. split_and!; [done..|]. by left.
  - done.
  - intros x c Hc. left. cbn in Hc. by apply list_elem_of_filter in Hc as [_ ?].
  - done.
  - intros x c Hc. by left.
  - done.
  - intros x c Hc. cbn in Hc. destruct idx as [i|]; cbn in Hc.
    + unfold spliceInsert in Hc.
      assert (∀ k, c ∈ take k (el_children x) ++ id :: drop k (el_children x) →
                   c ∈ el_children x ∨ np = np ∧ c = id) as Hsplit.
      { intros k Hk. rewrite <- (take_drop k (el_children x)). set_solver. }
      by eapply Hsplit.
    + apply elem_of_app in Hc as [?|Hc]; [by left|].
      apply list_elem_of_singleton in Hc as ->. by right.
Qed.

Lemma relinked_touches (P : gset jsstring) (els : gmap jsstring Element)
    (id l np : jsstring) (idx : option Z) (e pe : Element) :
  pageIdsConsistent els → els !! id = Some e → els !! np = Some pe →
  el_pageId e ∈ P → el_pageId pe ∈ P →
  touches P els (relinked els id l np idx) ∧
  closedUnder P (relinked els id l np idx) ∧
  ∀ x, relinked els id l np idx !! id = Some x → el_pageId x ∈ P.
Proof.
  intros Hcons He Hpe HP HPpe. split_and!.
  - unfold relinked.
    set (els1 := alter _ l els). set (els2 := alter _ id els1).
    assert (linksOf els id np els1) as HL1.
    { apply linksOf_alter; [|done|].
      - intros k x Hx. exists x. split_and!; [done..|]. by left.
      - intros x c Hc. left. cbn in Hc. by apply list_elem_of_filter in Hc as [_ ?]. }
    assert (linksOf els id np els2) as HL2.
    { apply linksOf_alter; [done..|]. intros x c Hc. by left. }
    apply (touches_trans P els els1); [|apply (touches_trans P els1 els2)].
    + apply touches_alter. intros x Hx.
      apply (unlist_child_touches P els l id e Hcons He HP x Hx).
    + apply touches_alter. intros x Hx. right. cbn.
      destruct (HL1 _ _ Hx) as (x0 & Hx0 & -> & _). by simplify_eq.
    + apply touches_alter. intros x Hx. right. cbn.
      destruct (HL2 _ _ Hx) as (x0 & Hx0 & -> & _). by simplify_eq.
  - intros k x c cx Hk HPk Hc Hcx.
    destruct (linksOf_relinked els id l np idx _ _ Hk) as (x0 & Hx0 & Hp0 & Hch).
    destruct (linksOf_relinked els id l np idx _ _ Hcx) as (cx0 & Hcx0 & Hpc & _).
    rewrite Hpc. destruct (Hch c Hc) as [Hin|[-> ->]].
    + rewrite (Hcons k x0 c cx0 Hx0 Hin Hcx0). by rewrite <- Hp0.
    + by simplify_eq.
  - intros x Hx.
    destruct (linksOf_relinked els id l np idx _ _ Hx) as (x0 & Hx0 & -> & _).
    by simplify_eq.
Qed.

(** A call that adds or rewrites the page [pid], flags it, and changes
    elements of flagged pages only. *)
Lemma inSync_page (m : Manager) (d : Disk) (P D : gset jsstring)
    (pid : jsstring) (page : Page) (els : gmap jsstring Element)
    (ds : list Delta) (n : nat) :
  inSync m d → touches P (elements (state m)) els →
  P ⊆ D → d_pages (dirty m) ⊆ D → pid ∈ D → pid ∉ d_deletedPages (dirty m) →
  inSync (mkManager
            (withElements els (withPages (objSet (pages (state m)) pid page) (state m)))
            (mkDirty (d_project (dirty m)) (d_styles (dirty m))
               D (d_deletedPages (dirty m))) ds n) d.
Proof.
  intros Hs Ht HP HD Hpid Hdel. apply (inSync_preserved m); cbn; try done.
  - intros k p Hk Hnot. rewrite objGet_objSet in Hk.
    destruct (decide (k = pid)) as [->|]; [done|].
    split_and!; [done|set_solver|].
    eapply touches_pageElements; [done|set_solver].
  - intros k [Hk|Hk]; [|by right]. left. apply objKeys_objSet. by right.
  - intros k Hk [->|Hin]%objKeys_objSet; [done|]. by apply (sync_deleted _ _ Hs k).
Qed.

Lemma inSync_deletePage (m : Manager) (d : Disk) (pid : jsstring) (pr : Project)
    (flag : bool) (ds : list Delta) (n : nat) :
  inSync m d →
  (flag = false → d_project (dirty m) = false ∧ pr = project (state m)) →
  inSync (mkManager
            (mkState pr (objDelete (pages (state m)) pid)
               (filter (λ kv, el_pageId kv.2 ≠ pid) (elements (state m)))
               (styles (state m)) (designTokens (state m)))
            (mkDirty flag (d_styles (dirty m)) (d_pages (dirty m))
               ({[pid]} ∪ d_deletedPages (dirty m))) ds n) d.
Proof.
  intros Hs Hflag. apply (inSync_preserved m); cbn.
  - done.
  - intros Hf. by destruct (Hflag Hf) as [-> ->].
  - done.
  - intros k p Hk Hnot. rewrite objGet_delete in Hk.
    destruct (decide (k = pid)) as [->|Hne]; [done|]. split_and!; [done..|].
    apply (touches_pageElements {[pid]}); [|set_solver].
    intros j. destruct (elements (state m) !! j) as [x|] eqn:Hj.
    + destruct (decide (el_pageId x = pid)) as [Hp|Hp].
      * right. split.
        { intros x' Hx'. apply elem_of_singleton. congruence. }
        intros y Hy. apply map_lookup_filter_Some in Hy as [Hy1 Hy2]. cbn in Hy2.
        congruence.
      * left. by apply map_lookup_filter_Some.
    + left. apply map_lookup_filter_None. by left.
  - intros k [Hk|Hk]; [|set_solver].
    destruct (decide (k = pid)) as [->|Hne]; [set_solver|].
    left. by apply objKeys_delete.
  - intros k [->%elem_of_singleton|Hk]%elem_of_union [Hin Hne]%objKeys_delete; [done|].
    by apply (sync_deleted _ _ Hs k).
Qed.

(** X3. In a document whose nodes carry their parent's page, and with
    identifiers not yet handed out naming nothing, a call that returns
    keeps the directory in step: what it changed lies in partitions it
    flagged dirty. *)
Theorem calls_keep_directory_in_step nanoid stack (op : Op) (m m' : Manager) (d : Disk) :
  pageIdsConsistent (elements (state m)) → freshIds nanoid m → inSync m d →
  perform nanoid stack op m = Some (Returned (), m') → inSync m' d.
Proof.
  intros Hcons Hfresh Hs H. destruct op; cbn [perform] in H.
  - run_op H createElement.
    + eapply (inSync_elements m d {[el_pageId e]}); [done| |set_solver..].
      apply touches_insert; [|set_solver].
      intros x Hx. destruct (Hfresh (drawn m)) as [Hnone _]; [done|]. congruence.
    + eapply (inSync_elements m d {[el_pageId e]}); [done| |set_solver..].
      eapply touches_trans; cycle 1.
      * apply touches_insert; [|set_solver].
        intros x Hx. rewrite lookup_insert_ne in Hx by done.
        rewrite E in Hx. injection Hx as <-. set_solver.
      * apply touches_insert; [|cbn; set_solver].
        intros x Hx. destruct (Hfresh (drawn m)) as [Hnone _]; [done|]. congruence.
  - run_op H updateElement.
    all: eapply (inSync_elements m d {[el_pageId e]}); [done| |set_solver..].
    all: apply touches_insert; [|set_solver].
    all: intros x Hx; rewrite E in Hx; injection Hx as <-; set_solver.
  - run_op H deleteElement.
    destruct (deleteRecursive_touches _ _ _ _ _ Hcons E E1) as [Ht Hsub].
    eapply (inSync_elements m d {[el_pageId e]}); [done| |set_solver..].
    eapply touches_trans; [done|]. apply touches_alter.
    intros x Hx%Hsub.
    refine (unlist_child_touches _ _ l id e Hcons E _ x Hx). set_solver.
  - run_op H moveElement.
    + destruct (relinked_touches {[el_pageId e]} _ id l newParentId insertIndex e e0
                  Hcons E E1) as (Ht & _ & _); [set_solver..|].
      eapply (inSync_elements m d {[el_pageId e]}); [done|apply Ht|set_solver..].
    + destruct (relinked_touches {[el_pageId e; el_pageId e0]} _ id l newParentId
                  insertIndex e e0 Hcons E E1) as (Ht & Hcl & Hid); [set_solver..|].
      eapply (inSync_elements m d {[el_pageId e; el_pageId e0]});
        [done| |set_solver..].
      eapply touches_trans; [apply Ht|].
      eapply (restamped_touches _ (el_pageId e0)); [set_solver|].
      eapply updatePageId_restamps; [set_solver|apply Hcl|apply Hid|apply E4].
  - run_op H createElementTree.
    eapply (inSync_elements m d {[el_pageId e]}); [done| |set_solver..].
    apply (createRecursive_touches nanoid (el_pageId e) parentId defs
             (elements (state m), drawn m)).
    + intros k x Hk Hx. cbn in Hx. destruct (Hfresh k) as [Hnone _]; [done|]. congruence.
    + intros x Hx. cbn in Hx. congruence.
  - unfold createPage in H. unfold_action. cbn -[js] in H. simplify_eq.
    destruct (Hfresh (drawn m)) as (_ & _ & _ & Hdel); [done|].
    destruct (Hfresh (S (drawn m))) as (_ & Hroot & _ & _); [lia|].
    eapply (inSync_page m d {[js "page-" ++ nanoid (drawn m)]});
      [done| |set_solver..|done].
    apply touches_insert; [|set_solver]. intros x Hx. congruence.
  - unfold clonePage in H. unfold_action. cbn -[js] in H.
    destruct (objGet (pages (state m)) sourcePageId) as [sourcePage|] eqn:Hsrc;
      cbn -[js] in H; [|by destruct (inheritedName sourcePageId)].
    simplify_eq.
    destruct (Hfresh (drawn m)) as (_ & _ & _ & Hdel); [done|].
    eapply (inSync_page m d {[js "page-" ++ nanoid (drawn m)]});
      [done| |set_solver..|done].
    unfold cloneElements. apply cloneElements_touches; [|apply touches_refl].
    intros p x Hp Hx. apply cloneIds_fresh in Hp as (k & Hk & [Heq|Heq]);
      rewrite Heq in Hx; destruct (Hfresh k) as (Hn1 & Hn2 & _); (lia || congruence).
  - run_op H deletePage.
    + by apply (inSync_deletePage m d).
    + by apply (inSync_deletePage m d).
  - run_op H renamePage.
    apply (inSync_page m d ∅ _ pageId _ (elements (state m)));
      [done|apply touches_refl|set_solver..|].
    intros Hdel. apply (sync_deleted _ _ Hs) in Hdel. apply Hdel.
    by eapply objGet_Some_key.
  - run_op H setActivePage. by apply (inSync_preserved m); cbn; try apply Hs.
  - run_op H setStyles. by apply (inSync_preserved m); cbn; try apply Hs.
  - run_op H batchSetStyles. by apply (inSync_preserved m); cbn; try apply Hs.
  - run_op H deleteStyles. by apply (inSync_preserved m); cbn; try apply Hs.
  - run_op H setDesignTokens.
    all: by apply (inSync_preserved m); cbn; try apply Hs.
  - run_op H updateTokenWithPropagation.
    + done.
    + by apply (inSync_preserved m); cbn; try apply Hs.
    + apply (inSync_preserved m); cbn; try apply Hs; try done.
      intros Hf. split; [done|].
      rewrite (propagated_styles l newValue (styles (state m))).
      apply bool_decide_eq_false in E2.
      assert (filter (λ kv : jsstring * props, selectorChanged l kv.2 = true)
                (styles (state m)) = ∅) as ->.
      { apply map_size_empty_inv. lia. }
      by rewrite fmap_empty, (left_id_L ∅ (∪)).
  - run_op H setDesignType. by apply (inSync_preserved m); cbn; try apply Hs.
  - run_op H setViewport. all: by apply (inSync_preserved m); cbn; try apply Hs.
Qed.

Lemma written_inSync (st : DesignState) (ds : list Delta) (n : nat) :
  NoDup (objKeys (pages st)) →
  inSync (mkManager st cleanDirty ds n) (writeSplitFiles st (mkDisk None None ∅)).
Proof.
  intros Hnd. split; cbn [state dirty cleanDirty d_pages d_deletedPages].
  - done.
  - done.
  - intros k p Hk _. apply written_dir_lookup; [done|]. by apply objGet_elem_of.
  - intros f Hf Hjson.
    assert (f ∈ pageFileName <$> objKeys (pages st)) as Hin.
    { apply (written_dir_json st (mkDisk None None ∅) f Hnd); [cbn; set_solver|].
      split; [by apply elem_of_dom|done]. }
    apply list_elem_of_fmap in Hin as (k & -> & Hk). eauto.
  - set_solver.
Qed.

Lemma sampleIds_fresh : freshIds sampleIds sampleManager.
Proof.
  intros n _. cbn [sampleManager state dirty cleanDirty d_deletedPages
                    createDefaultState elements pages objKeys].
  split_and!.
  - apply lookup_singleton_None. discriminate.
  - apply lookup_singleton_None. discriminate.
  - intros Hin. apply list_elem_of_singleton in Hin. discriminate Hin.
  - set_solver.
Qed.

Lemma calls_keep_directory_in_step_witness :
  let d := writeSplitFiles createDefaultState (mkDisk None None ∅) in
  let op := CreateElement (sampleCreate "div" (js "root-1") None) in
  inSync (after (perform sampleIds 0 op) sampleManager) d.
Proof.
  intros d op.
  refine (calls_keep_directory_in_step sampleIds 0 op sampleManager _ d _ _ _ _).
  - apply checkChildren_pageIds. vm_compute. reflexivity.
  - exact sampleIds_fresh.
  - apply written_inSync. refine (bool_decide_unpack _ _). vm_compute. exact I.
  - vm_compute. reflexivity.
Defined.


(** ** Refusals *)



(** A new parent named by an inherited property is found by the code,
    which detaches the node and then fails on it; the model gives the
    call no outcome. *)
Example moveElement_inherited_parent :
  moveElement 0 (js "id1") (js "constructor") None sampleChain = None.
Proof. vm_compute. reflexivity. Qed.


(** ** Validity of the document *)

Lemma pagesFrom_refl (Q : jsstring → Prop) a : pagesFrom Q a a.
Proof. intros k y Hy. right. eauto. Qed.

Lemma pagesFrom_trans (Q : jsstring → Prop) a b c : pagesFrom Q a b → pagesFrom Q b c → pagesFrom Q a c.
Proof.
  intros H1 H2 k z Hz. destruct (H2 k z Hz) as [?|(y & Hy & ->)]; [by left|].
  by apply H1.
Qed.

Lemma pagesFrom_insert (Q : jsstring → Prop) (a : gmap jsstring Element) k y :
  Q (el_pageId y) → pagesFrom Q a (<[k := y]> a).
Proof.
  intros HQ j z Hz. destruct (decide (j = k)) as [->|].
  - rewrite lookup_insert_eq in Hz. injection Hz as <-. by left.
  - rewrite lookup_insert_ne in Hz by done. right. eauto.
Qed.

Lemma pagesFrom_alter (Q : jsstring → Prop) (a : gmap jsstring Element) k f :
  (∀ x, el_pageId (f x) = el_pageId x) → pagesFrom Q a (alter f k a).
Proof.
  intros Hf j z Hz. apply lookup_alter_Some in Hz as [(-> & x & Hx & ->)|[_ Hz]]; right; eauto.
Qed.

Lemma pagesFrom_owned (Q : jsstring → Prop) (a b : gmap jsstring Element) :
  pagesFrom Q a b → (∀ k x, a !! k = Some x → Q (el_pageId x)) →
  ∀ k y, b !! k = Some y → Q (el_pageId y).
Proof.
  intros H Ha k y Hy. destruct (H k y Hy) as [?|(x & Hx & ->)]; [done|]. by eapply Ha.
Qed.

Lemma updatePageId_pagesFrom (Q : jsstring → Prop) new fuel : ∀ id els els',
  Q new → updatePageId fuel id new els = Some els' → pagesFrom Q els els'.
Proof.
  induction fuel as [|fuel IH]; intros id els els' Hnew H.
  { cbn in H. destruct (els !! id); [done|]. injection H as <-. apply pagesFrom_refl. }
  cbn in H. destruct (els !! id) as [e|] eqn:He;
    [|injection H as <-; apply pagesFrom_refl].
  assert (pagesFrom Q els (<[id := withPageId new e]> els)) as H0
    by (by apply pagesFrom_insert).
  revert H H0. generalize (<[id := withPageId new e]> els).
  induction (el_children e) as [|c cs IHcs]; intros a Hf Ha.
  { cbn in Hf. by injection Hf as <-. }
  cbn in Hf. destruct (updatePageId fuel c new a) as [a'|] eqn:Hc;
    [|by rewrite foldl_bind_None in Hf].
  cbn in Hf. apply (IHcs a' Hf). eapply pagesFrom_trans; [done|]. by eapply IH.
Qed.

Lemma createDef_pagesFrom (nanoid : nat → jsstring) (Q : jsstring → Prop) pageId n :
  Q pageId → ∀ def, defSize def ≤ n → ∀ pid s,
  pagesFrom Q s.1 (createDef nanoid pageId def pid s).1.1.
Proof.
  intros HQ. induction n as [|n IH];
    intros [tag classes attributes textContent children] Hn pid s.
  { rewrite defSize_unfold in Hn. lia. }
  rewrite defSize_unfold in Hn. cbn [createDef].
  set (id := nanoid s.2).
  set (element := mkElement id tag _ _ _ _ _ pageId).
  set (els2 := alter _ pid (<[id := element]> s.1)).
  assert (pagesFrom Q s.1 els2) as H2.
  { eapply pagesFrom_trans; [by apply (pagesFrom_insert Q _ id element)|].
    by apply pagesFrom_alter. }
  cbn [fst snd].
  assert (pagesFrom Q s.1 (els2, S s.2).1) as Ht by done.
  revert Ht. generalize (els2, S s.2). clear H2 els2.
  assert (defsSize children ≤ n) as Hsz by lia. clear Hn. revert Hsz.
  induction children as [|c cs IHcs]; intros Hsz t Ht; [done|].
  rewrite defsSize_cons in Hsz.
  apply (IHcs ltac:(lia) (createDef nanoid pageId c id t).1).
  eapply pagesFrom_trans; [done|]. apply IH. lia.
Qed.

Lemma createRecursive_pagesFrom (nanoid : nat → jsstring) (Q : jsstring → Prop) pageId pid :
  Q pageId → ∀ defs s,
  pagesFrom Q s.1 (createRecursive nanoid pid defs pageId s).1.1.
Proof.
  intros HQ. induction defs as [|d defs IH]; intros s; [apply pagesFrom_refl|].
  cbn [createRecursive fst snd]. eapply pagesFrom_trans; [|apply IH].
  by eapply createDef_pagesFrom.
Qed.

Lemma cloneElements_steps pageId idMap els :
  cloneElements pageId idMap els = foldl (cloneStep pageId idMap) els idMap.
Proof. reflexivity. Qed.

Lemma cloneElements_pagesFrom (Q : jsstring → Prop) pageId idMap els :
  Q pageId → pagesFrom Q els (cloneElements pageId idMap els).
Proof.
  intros HQ. rewrite cloneElements_steps.
  assert (∀ full l a, pagesFrom Q els a →
            pagesFrom Q els (foldl (cloneStep pageId full) a l)) as Hgen.
  { intros full l. induction l as [|p l IH]; intros a Ha; [done|].
    cbn [foldl]. apply IH. unfold cloneStep. destruct (a !! p.1); [|done].
    eapply pagesFrom_trans; [done|]. by apply pagesFrom_insert. }
  apply Hgen, pagesFrom_refl.
Qed.

Lemma cloneIds_keys nanoid rootId : ∀ entries n,
  (cloneIds nanoid rootId n entries).*1 = entries.*1.
Proof.
  induction entries as [|[id e] entries IH]; intros n; [done|]. cbn. by rewrite IH.
Qed.

(** X5. A call that returns keeps the document well formed: distinct
    page keys, every page under its own [id] with a [rootId], a design type
    of the enumeration, the three token categories, every element on an
    existing page, and an existing active page.  This holds of the calls
    whose identifiers are no names that objects inherit from
    [Object.prototype], where [setDesignType] and [setDesignTokens] are
    given what the tool layer lets through and a page to clone has its
    root among its elements.  With an inherited name the code can return
    and break it: [setActivePage] then makes a page active that does not
    exist. *)
Theorem calls_keep_document_valid nanoid stack (op : Op) (m m' : Manager) :
  wellFormed (state m) → admissible op (state m) →
  perform nanoid stack op m = Some (Returned (), m') →
  wellFormed (state m').
Proof.
  intros (Hv & Ho & Hact) [_ Ha] H.
  assert (∀ els,
    pagesFrom (λ p, p ∈ objKeys (pages (state m))) (elements (state m)) els →
    wellFormed (withElements els (state m))) as Hels.
  { intros els Hp. split_and!; [done| |done]. intros k y Hy. cbn in *.
    eapply (pagesFrom_owned _ _ _ Hp); [|done]. apply Ho. }
  assert (∀ els pid page,
    pg_id page = pid → is_Some (pg_rootId page) →
    pagesFrom (λ p, p = pid ∨ p ∈ objKeys (pages (state m))) (elements (state m)) els →
    wellFormed (withElements els (withPages (objSet (pages (state m)) pid page) (state m))))
    as Hpage.
  { intros els pid page Hid Hroot Hp. destruct Hv as (Hnd & Hall & Hdt & Htok). split_and!.
    - split_and!; cbn; [by apply NoDup_objSet|by apply Forall_objSet|done..].
    - intros k y Hy. cbn in *. apply objKeys_objSet.
      eapply (pagesFrom_owned _ _ _ Hp); [|done]. intros; right; by eapply Ho.
    - cbn. apply objKeys_objSet. by right. }
  assert (∀ pid pr,
    pr_designType pr = pr_designType (project (state m)) →
    pr_activePageId pr ∈ objKeys (objDelete (pages (state m)) pid) →
    wellFormed (mkState pr (objDelete (pages (state m)) pid)
                  (filter (λ kv, el_pageId kv.2 ≠ pid) (elements (state m)))
                  (styles (state m)) (designTokens (state m)))) as Hdel.
  { intros pid pr Hdt' Hact'. destruct Hv as (Hnd & Hall & Hdt & Htok). split_and!.
    - split_and!; cbn.
      + by apply NoDup_objDelete.
      + rewrite Forall_forall in Hall |- *. unfold objDelete.
        intros kv [_ Hin]%list_elem_of_filter. by apply Hall.
      + by rewrite Hdt'.
      + done.
    - intros k y [Hy Hne]%map_lookup_filter_Some. cbn in *.
      apply objKeys_delete. split; [by eapply Ho|done].
    - done. }
  assert (∀ category v sty,
    category ∈ dom (designTokens (state m)) →
    wellFormed (mkState (project (state m)) (pages (state m)) (elements (state m)) sty
                  (<[category := v]> (designTokens (state m))))) as Htok.
  { intros category v sty Hc. destruct Hv as (Hnd & Hall & Hdt & Htok).
    split_and!; [|done..]. split_and!; [done..|]. cbn.
    rewrite dom_insert_L. set_solver. }
  destruct op; cbn [perform] in H.
  - run_op H createElement.
    + apply Hels. apply pagesFrom_insert. cbn. by eapply Ho.
    + apply Hels.
      eapply pagesFrom_trans; [apply pagesFrom_insert|apply pagesFrom_insert];
        cbn; by eapply Ho.
  - run_op H updateElement.
    all: apply Hels; apply pagesFrom_insert; cbn; by eapply Ho.
  - run_op H deleteElement.
    apply Hels.
    eapply pagesFrom_trans; [|by apply pagesFrom_alter].
    intros k y Hy. right. exists y. split; [|done].
    destruct (deleteRecursive_removes _ _ _ _ E1 k) as [?|[? _]]; congruence.
  - run_op H moveElement.
    + apply Hels.
      repeat (eapply pagesFrom_trans; [|by apply pagesFrom_alter]).
      apply pagesFrom_refl.
    + apply Hels.
      eapply pagesFrom_trans; [|eapply updatePageId_pagesFrom; [|done]].
      * repeat (eapply pagesFrom_trans; [|by apply pagesFrom_alter]).
        apply pagesFrom_refl.
      * cbn. by eapply Ho.
  - run_op H createElementTree.
    apply Hels.
    apply (createRecursive_pagesFrom nanoid
             (λ p, p ∈ objKeys (pages (state m))) (el_pageId e) parentId
             (Ho _ _ E) defs (elements (state m), drawn m)).
  - unfold createPage in H. unfold_action. cbn -[js] in H. simplify_eq. cbn -[js].
    apply Hpage; [done|by eexists|]. apply pagesFrom_insert. by left.
  - unfold clonePage in H. unfold_action. cbn -[js] in H.
    destruct (objGet (pages (state m)) sourcePageId) as [sourcePage|] eqn:Hsrc;
      cbn -[js] in H; [|by destruct (inheritedName sourcePageId)].
    simplify_eq. cbn -[js].
    destruct (Ha _ eq_refl) as (rootId & root & Hroot & Hel & Hpg).
    apply Hpage; [done| |].
    + cbn -[js]. rewrite Hroot. cbn -[js]. unfold idMapGet.
      apply objGet_is_Some. unfold objKeys. rewrite cloneIds_keys.
      apply list_elem_of_fmap. exists (rootId, root). split; [done|].
      apply list_elem_of_filter. split; [done|]. by apply elem_of_map_to_list.
    + apply cloneElements_pagesFrom. by left.
  - run_op H deletePage.
    + apply (Hdel _ (withActivePageId _ (project (state m)))); [done|]. cbn.
      apply bool_decide_eq_false in E0.
      destruct Hv as (Hnd & _).
      pose proof (objDelete_nonempty (pages (state m))
                    (pr_activePageId (project (state m))) Hnd) as Hne.
      unfold objKeys in E0. rewrite length_fmap in E0.
      unfold objKeys, objDelete in *.
      destruct (filter _ (pages (state m))) as [|[k pg] rest] eqn:Hf.
      { exfalso. apply Hne; [lia|done]. }
      cbn. set_solver.
    + apply (Hdel pageId (project (state m))); [done|].
      apply objKeys_delete. split; [done|]. congruence.
  - run_op H renamePage.
    apply (Hpage (elements (state m)) pageId); [| |intros k y Hy; right; eauto].
    + destruct Hv as (_ & Hall & _). rewrite Forall_forall in Hall.
      apply (Hall (pageId, p)). by apply objGet_elem_of.
    + destruct Hv as (_ & Hall & _). rewrite Forall_forall in Hall.
      apply (Hall (pageId, p)). by apply objGet_elem_of.
  - run_op H setActivePage. split_and!; [done..|]. cbn. by eapply objGet_Some_key.
  - run_op H setStyles. done.
  - run_op H batchSetStyles. done.
  - run_op H deleteStyles. done.
  - run_op H setDesignTokens.
    all: apply Htok; destruct Hv as (_ & _ & _ & ->); cbn in Ha; set_solver.
  - run_op H updateTokenWithPropagation.
    + done.
    + apply Htok. apply elem_of_dom.
      destruct (designTokens (state m) !! category); [eauto|done].
    + apply Htok. apply elem_of_dom.
      destruct (designTokens (state m) !! category); [eauto|done].
  - run_op H setDesignType. destruct Hv as (Hnd & Hall & Hdt & Htk).
    split_and!; [|done..]. split_and!; done.
  - run_op H setViewport. all: done.
Qed.

Lemma createDefaultState_wellFormed : wellFormed createDefaultState.
Proof.
  split_and!; [exact createDefaultState_valid|exact createDefaultState_owned|].
  refine (bool_decide_unpack _ _). vm_compute. exact I.
Qed.

Lemma calls_keep_document_valid_witness :
  wellFormed
    (state (after (perform sampleIds 0 (ClonePage (js "page-1") (js "Copy")))
              sampleManager)).
Proof.
  refine (calls_keep_document_valid sampleIds 0 (ClonePage (js "page-1") (js "Copy"))
            sampleManager _ createDefaultState_wellFormed _ _).
  - split; [by repeat constructor|].
    intros page Hpage. vm_compute in Hpage. injection Hpage as <-.
    eexists _, _. split_and!; [reflexivity|vm_compute; reflexivity|reflexivity].
  - vm_compute. reflexivity.
Defined.
(** ** Style rules *)

Lemma setStyles_state (sel : jsstring) (ps : props) (m : Manager) :
  state (after (setStyles sel ps) m)
  = withStyles (<[sel := mergedStyle (styles (state m)) sel ps]> (styles (state m))) (state m).
Proof. reflexivity. Qed.

Lemma batchLoop_fst (rules : list (jsstring * props)) (acc : stylesheet * stylesheet) :
  (foldl (λ (acc : stylesheet * stylesheet) (rule : jsstring * props),
     let merged := mergedStyle acc.1 rule.1 rule.2 in
     (<[rule.1 := merged]> acc.1, <[rule.1 := merged]> acc.2)) acc rules).1
  = foldl (λ st rule, <[rule.1 := mergedStyle st rule.1 rule.2]> st) acc.1 rules.
Proof. revert acc. induction rules as [|r rules IH]; intros acc; [done|]. cbn. by rewrite IH. Qed.

Lemma batchLoop_snd_dom (rules : list (jsstring * props)) (st : stylesheet) :
  dom (batchLoop rules st).2 = list_to_set rules.*1.
Proof.
  unfold batchLoop.
  assert (∀ acc : stylesheet * stylesheet,
    dom (foldl (λ (acc : stylesheet * stylesheet) (rule : jsstring * props),
           let merged := mergedStyle acc.1 rule.1 rule.2 in
           (<[rule.1 := merged]> acc.1, <[rule.1 := merged]> acc.2)) acc rules).2
    = list_to_set rules.*1 ∪ dom acc.2) as Hgen.
  { induction rules as [|r rules IH]; intros acc; [cbn; set_solver|].
    cbn [foldl]. rewrite IH. cbn. rewrite dom_insert_L. set_solver. }
  rewrite Hgen. cbn. set_solver.
Qed.

Lemma setStyles_sequence (rules : list (jsstring * props)) (m : Manager) :
  state (foldl (λ m rule, after (setStyles rule.1 rule.2) m) m rules)
  = withStyles (foldl (λ st rule, <[rule.1 := mergedStyle st rule.1 rule.2]> st)
                  (styles (state m)) rules) (state m).
Proof.
  revert m. induction rules as [|r rules IH]; intros m; [cbn; by destruct (state m)|].
  cbn [foldl]. rewrite IH. rewrite setStyles_state. done.
Qed.

(** X6. [batchSetStyles] always returns, and leaves the document that
    [setStyles], called for the rules one after the other, leaves; the
    object it returns and sends in its one delta holds, for every
    selector of the batch, the rule the document now has for it, and
    nothing else; the rules of other selectors are as before. *)
Theorem batchSetStyles_as_sequence (rules : list (jsstring * props)) (m : Manager) :
  ∃ result m',
    batchSetStyles rules m = Some (Returned result, m') ∧
    state m' = state (foldl (λ m rule, after (setStyles rule.1 rule.2) m) m rules) ∧
    (∀ sel, sel ∈ rules.*1 → result !! sel = styles (state m') !! sel) ∧
    (∀ sel, sel ∉ rules.*1 →
       result !! sel = None ∧ styles (state m') !! sel = styles (state m) !! sel) ∧
    emitted m' = emitted m ++ [StylesBatch result].
Proof.
  eexists _, _. split; [unfold batchSetStyles; unfold_action; cbn; reflexivity|]. cbn.
  pose proof (batchLoop_union rules (styles (state m))) as Hu.
  pose proof (batchLoop_snd_dom rules (styles (state m))) as Hd.
  split_and!.
  - rewrite setStyles_sequence. unfold batchLoop. by rewrite batchLoop_fst.
  - intros sel Hsel. rewrite Hu.
    assert (is_Some ((batchLoop rules (styles (state m))).2 !! sel)) as [ps Hps].
    { apply elem_of_dom. rewrite Hd. by apply elem_of_list_to_set. }
    rewrite Hps. symmetry. by apply lookup_union_Some_l.
  - intros sel Hsel.
    assert ((batchLoop rules (styles (state m))).2 !! sel = None) as Hn.
    { apply not_elem_of_dom. rewrite Hd. by rewrite elem_of_list_to_set. }
    split; [done|]. rewrite Hu. by rewrite lookup_union_r.
  - done.
Qed.




(** ** Pages *)

Lemma objDelete_fresh {V} (o : object V) k : k ∉ objKeys o → objDelete o k = o.
Proof.
  unfold objDelete, objKeys. induction o as [|[k0 v0] o IH]; [done|].
  intros H. rewrite fmap_cons in H. apply not_elem_of_cons in H as [Hne Hk].
  rewrite filter_cons_True by (cbn; by apply not_eq_sym). by rewrite IH.
Qed.

Lemma objDelete_app {V} (o1 o2 : object V) k :
  objDelete (o1 ++ o2) k = objDelete o1 k ++ objDelete o2 k.
Proof. unfold objDelete. by rewrite filter_app. Qed.

(** X9. [deletePage] undoes [createPage]: when the identifiers drawn name
    no page and no element, the elements are on existing pages and the
    active page exists, creating a page and deleting it gives the document
    back as it was (the active page, the order of the pages and all
    elements included). *)
Theorem createPage_deletePage_round_trip nanoid (name : jsstring) (m : Manager) :
  elementsOwned (state m) →
  pr_activePageId (project (state m)) ∈ objKeys (pages (state m)) →
  js "page-" ++ nanoid (drawn m) ∉ objKeys (pages (state m)) →
  elements (state m) !! (js "root-" ++ nanoid (S (drawn m))) = None →
  ∃ page m1 m2,
    createPage nanoid name m = Some (Returned page, m1) ∧
    pg_id page = js "page-" ++ nanoid (drawn m) ∧
    deletePage (pg_id page) m1 = Some (Returned (), m2) ∧
    state m2 = state m.
Proof.
  intros Ho Hact Hfresh Hroot.
  eexists _, _, _. split; [unfold createPage; unfold_action; cbn -[js]; reflexivity|].
  split; [reflexivity|]. cbn -[js].
  unfold deletePage. unfold_action. cbn -[js].
  rewrite objSet_fresh by done.
  assert (objGet (pages (state m) ++
            [(js "page-" ++ nanoid (drawn m),
              mkPage (js "page-" ++ nanoid (drawn m)) name
                (Some (js "root-" ++ nanoid (S (drawn m)))) ∅)])
            (js "page-" ++ nanoid (drawn m)) = Some
              (mkPage (js "page-" ++ nanoid (drawn m)) name
                (Some (js "root-" ++ nanoid (S (drawn m)))) ∅)) as ->.
  { clear Hact. induction (pages (state m)) as [|[k0 v0] o IH]; cbn -[js].
    - by rewrite decide_True.
    - apply not_elem_of_cons in Hfresh as [Hne Hfresh]. cbn -[js] in Hne.
      rewrite decide_False by done. by apply IH. }
  cbn -[js].
  assert (pages (state m) ≠ []) as Hne.
  { intros Hnil. rewrite Hnil in Hact. by apply elem_of_nil in Hact. }
  rewrite bool_decide_eq_false_2.
  2:{ unfold objKeys. rewrite length_fmap, length_app. cbn.
      destruct (pages (state m)); [done|]. cbn. lia. }
  cbn -[js]. rewrite decide_False.
  2:{ intros Heq. rewrite Heq in Hact. done. }
  split; [reflexivity|]. unfold withPages, withElements, objDelete. cbn -[js].
  rewrite filter_app.
  pose proof (objDelete_fresh (pages (state m)) _ Hfresh) as Hd.
  unfold objDelete in Hd. rewrite Hd.
  rewrite filter_cons_False by (cbn -[js]; naive_solver).
  rewrite filter_nil, app_nil_r.
  rewrite map_filter_insert_False by (cbn -[js]; naive_solver).
  rewrite delete_id by done.
  rewrite map_filter_id.
  2:{ intros k x Hk. cbn -[js]. intros Heq.
      apply Hfresh. rewrite <- Heq. by eapply Ho. }
  by destruct (state m).
Qed.

Lemma createPage_deletePage_round_trip_witness :
  ∃ page m1 m2,
    createPage sampleIds (js "About") sampleManager = Some (Returned page, m1) ∧
    pg_id page = js "page-id0" ∧
    deletePage (pg_id page) m1 = Some (Returned (), m2) ∧
    state m2 = state sampleManager.
Proof.
  refine (createPage_deletePage_round_trip sampleIds (js "About") sampleManager
            createDefaultState_owned _ _ _).
  - refine (bool_decide_unpack _ _). vm_compute. exact I.
  - refine (bool_decide_unpack _ _). vm_compute. exact I.
  - vm_compute. reflexivity.
Defined.

(** ** Subtrees *)

Section Count.
Context (nanoid : nat → jsstring) (pageId : jsstring).

Lemma createDef_drawn n : ∀ def, defSize def ≤ n → ∀ pid s,
  (createDef nanoid pageId def pid s).1.2 = s.2 + defSize def ∧
  (createDef nanoid pageId def pid s).2 = nanoid s.2 ∧
  ∀ q, (∀ k, s.2 ≤ k → nanoid k ≠ q) →
    (createDef nanoid pageId def pid s).1.1 !! q
    = if decide (pid = q)
      then (λ e, withChildren (el_children e ++ [nanoid s.2]) e) <$> s.1 !! q
      else s.1 !! q.
Proof.
  induction n as [|n IH]; intros [tag classes attributes textContent children] Hn pid s.
  { rewrite defSize_unfold in Hn. lia. }
  rewrite defSize_unfold in *. cbn [createDef].
  set (id := nanoid s.2).
  set (element := mkElement id tag _ _ _ _ _ pageId).
  set (els2 := alter _ pid (<[id := element]> s.1)).
  cbn [fst snd].
  assert (∀ cs (t : gmap jsstring Element * nat),
    defsSize cs ≤ n →
    let r := (fix createChildren (defs : list ElementDef)
                  (s : gmap jsstring Element * nat) : gmap jsstring Element * nat :=
                match defs with
                | [] => s
                | d :: defs' => createChildren defs' (createDef nanoid pageId d id s).1
                end) cs t in
    r.2 = t.2 + defsSize cs ∧
    ∀ q, id ≠ q → (∀ k, t.2 ≤ k → nanoid k ≠ q) → r.1 !! q = t.1 !! q) as Hloop.
  { induction cs as [|c cs IHcs]; intros t Hsz.
    { cbn. split; [lia|done]. }
    rewrite defsSize_cons in Hsz. cbn zeta.
    destruct (IH c ltac:(lia) id t) as (Hc1 & _ & Hc3).
    destruct (IHcs (createDef nanoid pageId c id t).1 ltac:(lia)) as [Hr1 Hr2].
    cbn zeta in Hr1, Hr2. split.
    - rewrite defsSize_cons. rewrite Hr1, Hc1. lia.
    - intros q Hq Hfresh. rewrite Hr2; [|done|intros k Hk; apply Hfresh; lia].
      rewrite Hc3 by done. by rewrite decide_False. }
  destruct (Hloop children (els2, S s.2) ltac:(lia)) as [Hr1 Hr2].
  cbn zeta in Hr1, Hr2. split_and!.
  - rewrite Hr1. cbn. lia.
  - done.
  - intros q Hq. rewrite Hr2; [|apply Hq; lia|intros k Hk; apply Hq; cbn in Hk; lia].
    cbn [fst]. subst els2.
    assert (id ≠ q) as Hid by (apply Hq; lia).
    destruct (decide (pid = q)) as [->|Hne].
    + rewrite lookup_alter_eq. by rewrite lookup_insert_ne.
    + rewrite lookup_alter_ne by done. by rewrite lookup_insert_ne.
Qed.

Lemma createRecursive_drawn pid : ∀ defs s,
  (createRecursive nanoid pid defs pageId s).1.2 = s.2 + defsSize defs ∧
  (createRecursive nanoid pid defs pageId s).2 = nanoid <$> topOffsets s.2 defs ∧
  ((∀ k, s.2 ≤ k → nanoid k ≠ pid) →
   (createRecursive nanoid pid defs pageId s).1.1 !! pid
   = (λ e, withChildren
             (el_children e ++ (createRecursive nanoid pid defs pageId s).2) e)
       <$> s.1 !! pid).
Proof.
  induction defs as [|d defs IH]; intros s.
  { cbn. split_and!; [lia|done|]. intros _. destruct (s.1 !! pid) as [e|]; [|done].
    cbn. rewrite app_nil_r. by destruct e. }
  cbn [createRecursive fst snd topOffsets fmap list_fmap].
  destruct (createDef_drawn (defSize d) d ltac:(lia) pid s) as (H1 & H2 & H3).
  destruct (IH (createDef nanoid pageId d pid s).1) as (H4 & H5 & H6).
  split_and!.
  - rewrite H4, H1, defsSize_cons. lia.
  - rewrite H2, H5, H1. done.
  - intros Hfresh. rewrite H6 by (intros k Hk; apply Hfresh; lia).
    rewrite H3 by done. rewrite decide_True by done.
    destruct (s.1 !! pid) as [e|]; [|done]. cbn. rewrite H2.
    by rewrite <- app_assoc.
Qed.

End Count.

(** X10. [createElementTree] under an existing parent, with identifiers
    not yet in use, returns the number of nodes of the definitions, nested
    ones included, and the identifiers of the top ones, in the order
    given: every definition uses as many identifiers as it has nodes.  It
    draws that many identifiers, appends the top ones to the children of
    the parent and emits one delta with the whole document. *)
Theorem createElementTree_count nanoid (parentId : jsstring) (defs : list ElementDef)
    (m : Manager) (parent : Element) :
  elements (state m) !! parentId = Some parent →
  (∀ k, drawn m ≤ k → elements (state m) !! nanoid k = None) →
  ∃ m',
    createElementTree nanoid parentId defs m
    = Some (Returned (defsSize defs, nanoid <$> topOffsets (drawn m) defs), m') ∧
    drawn m' = drawn m + defsSize defs ∧
    emitted m' = emitted m ++ [DesignFull (state m')] ∧
    elements (state m') !! parentId
    = Some (withChildren
              (el_children parent ++ (nanoid <$> topOffsets (drawn m) defs))
              parent).
Proof.
  intros Hp Hfresh.
  destruct (createRecursive_drawn nanoid (el_pageId parent) parentId defs
              (elements (state m), drawn m)) as (H1 & H2 & H3).
  cbn [fst snd] in *.
  eexists. split; [|split_and!].
  - unfold createElementTree. unfold_action. cbn. rewrite Hp. cbn.
    rewrite H1, H2.
    replace (drawn m + defsSize defs - drawn m) with (defsSize defs) by lia.
    reflexivity.
  - done.
  - done.
  - cbn. rewrite H3.
    + rewrite Hp. cbn. by rewrite H2.
    + intros k Hk Heq. specialize (Hfresh k Hk). rewrite Heq in Hfresh. congruence.
Qed.

Lemma createElementTree_count_witness :
  ∃ m',
    createElementTree sampleIds (js "root-1") sampleDefs sampleManager
    = Some (Returned (3, [js "id0"; js "id2"]), m') ∧
    drawn m' = 3 ∧
    emitted m' = [DesignFull (state m')] ∧
    elements (state m') !! js "root-1"
    = Some (withChildren [js "id0"; js "id2"]
              (mkElement (js "root-1") (js "div") [js "page-root"] ∅ None [] None
                 (js "page-1"))).
Proof.
  refine (createElementTree_count sampleIds (js "root-1") sampleDefs sampleManager
            _ _ _).
  - vm_compute. reflexivity.
  - intros k _. apply lookup_singleton_None. discriminate.
Defined.





(** ** The project registry *)

Lemma dashRuns_units b s : Forall slugUnit (dashRuns b s).
Proof.
  revert b. induction s as [|c s IH]; intros b; cbn; [done|].
  destruct (isSlugUnit c) eqn:Hc; [apply Forall_cons; split; [by left|done]|].
  destruct b; [done|]. apply Forall_cons. split; [by right|done].
Qed.

Lemma dropDashes_suffix s : dropDashes s `suffix_of` s.
Proof.
  induction s as [|c s IH]; cbn; [done|].
  destruct (c =? 45)%N; [by apply suffix_cons_r|done].
Qed.

Lemma dropDashes_head s c s' : dropDashes s = c :: s' → c ≠ 45%N.
Proof.
  induction s as [|c0 s IH]; cbn; [done|].
  destruct (N.eqb_spec c0 45); [done|]. by intros [= <- <-].
Qed.

Lemma trimDashes_prefix s : trimDashes s `prefix_of` dropDashes s.
Proof.
  unfold trimDashes. apply prefix_suffix_reverse. rewrite reverse_involutive.
  apply dropDashes_suffix.
Qed.

Lemma trimDashes_sublist s : trimDashes s `sublist_of` s.
Proof.
  destruct (trimDashes_prefix s) as [r1 H1]. destruct (dropDashes_suffix s) as [r2 H2].
  rewrite H2 at 2. rewrite H1. apply sublist_inserts_l, sublist_inserts_r. done.
Qed.

Lemma project_units : Forall slugUnit (js "project").
Proof. repeat (apply Forall_cons; split; [by left|]). done. Qed.

(** X12. A slug is a directory name: whatever the name and whatever
    [toLowerCase] returns, [slugify] gives between 1 and 50 units, each a
    lower-case letter, a digit or a dash, the first no dash, hence no
    slash, backslash or dot. *)
Theorem slugify_safe (toLowerCase : jsstring → jsstring) (name : jsstring) :
  let slug := slugify toLowerCase name in
  0 < length slug ∧ length slug ≤ 50 ∧
  Forall slugUnit slug ∧
  (∃ c, head slug = Some c ∧ isSlugUnit c = true) ∧
  (47%N ∉ slug) ∧ (92%N ∉ slug) ∧ (46%N ∉ slug).
Proof.
  intros slug.
  assert (0 < length slug ∧ length slug ≤ 50 ∧ Forall slugUnit slug ∧
          ∃ c, head slug = Some c ∧ isSlugUnit c = true) as (Hpos & Hlen & Hunits & Hhead).
  { subst slug. unfold slugify.
    set (s := dashRuns false (toLowerCase name)).
    destruct (take 50 (trimDashes s)) as [|c t] eqn:Ht; cbn [truthy].
    { split_and!; [cbn; lia|cbn; lia|apply project_units|].
      eexists. split; [reflexivity|done]. }
    rewrite <- Ht.
    assert (Forall slugUnit (take 50 (trimDashes s))) as Hall.
    { apply Forall_forall. intros x Hx.
      pose proof (dashRuns_units false (toLowerCase name)) as Hd.
      rewrite Forall_forall in Hd. apply Hd.
      eapply elem_of_sublist; [done|].
      etrans; [apply sublist_take|apply trimDashes_sublist]. }
    split_and!.
    - rewrite Ht. cbn. lia.
    - rewrite length_take. lia.
    - done.
    - exists c. rewrite Ht. split; [done|].
      assert (slugUnit c) as [Hc| ->]
        by (rewrite Ht in Hall; by apply Forall_cons in Hall as [? _]);
        [done|exfalso].
      destruct (trimDashes s) as [|c' t'] eqn:Htrim; [done|].
      cbn in Ht. injection Ht as -> <-.
      destruct (trimDashes_prefix s) as [rest Hrest]. rewrite Htrim in Hrest.
      by apply dropDashes_head in Hrest. }
  split_and!; [done..| | |].
  all: intros Hin; rewrite Forall_forall in Hunits; by destruct (Hunits _ Hin).
Qed.

Lemma js_inj : Inj (=) (=) js.
Proof.
  intros s1 s2 H. unfold js in H.
  apply (f_equal (fmap ascii_of_N)) in H. rewrite <- !list_fmap_compose in H.
  assert (∀ l : list ascii, (ascii_of_N ∘ λ a, N_of_ascii a) <$> l = l) as Hid.
  { intros l. induction l as [|a l IH]; [done|]. cbn. by rewrite ascii_N_embedding, IH. }
  rewrite !Hid in H.
  rewrite <- (string_of_list_ascii_of_string s1), <- (string_of_list_ascii_of_string s2).
  by rewrite H.
Qed.

Lemma candidate_inj baseSlug : Inj (=) (=) (candidate baseSlug).
Proof.
  intros [|i] [|j] H; cbn in H; unfold numbered in H.
  - done.
  - apply (f_equal length) in H. rewrite length_app in H. cbn in H. lia.
  - apply (f_equal length) in H. rewrite length_app in H. cbn in H. lia.
  - apply app_inv_head in H. apply app_inv_head in H. apply js_inj in H.
    by apply (inj pretty) in H.
Qed.

Lemma freeSlug_None slugs baseSlug fuel : ∀ k,
  freeSlug slugs baseSlug (candidate baseSlug k) (S k) fuel = None →
  ∀ j, j < fuel → candidate baseSlug (k + j) ∈ slugs.
Proof.
  induction fuel as [|fuel IH]; intros k H j Hj; [lia|].
  cbn [freeSlug] in H. case_bool_decide as Hin; [|done].
  destruct j as [|j]; [by rewrite Nat.add_0_r|].
  replace (k + S j) with (S k + j) by lia. apply (IH (S k)); [done|lia].
Qed.

Lemma freeSlug_first slugs baseSlug fuel : ∀ k slug,
  freeSlug slugs baseSlug (candidate baseSlug k) (S k) fuel = Some slug →
  ∃ j, j < fuel ∧ slug = candidate baseSlug (k + j) ∧ (slug ∉ slugs) ∧
       ∀ i, i < j → candidate baseSlug (k + i) ∈ slugs.
Proof.
  induction fuel as [|fuel IH]; intros k slug H; [done|].
  cbn [freeSlug] in H. case_bool_decide as Hin.
  - apply (IH (S k)) in H as (j & Hj & -> & Hfree & Hbefore).
    exists (S j). split_and!; [lia|f_equal; lia|done|].
    intros [|i] Hi; [by rewrite Nat.add_0_r|].
    replace (k + S i) with (S k + i) by lia. apply Hbefore. lia.
  - injection H as <-. exists 0. rewrite Nat.add_0_r. split_and!; [lia|done..|lia].
Qed.

Lemma freeSlug_total slugs baseSlug fuel :
  length slugs < fuel →
  is_Some (freeSlug slugs baseSlug (candidate baseSlug 0) 1 fuel).
Proof.
  intros Hfuel.
  destruct (freeSlug slugs baseSlug (candidate baseSlug 0) 1 fuel) eqn:H; [eauto|].
  exfalso. pose proof (freeSlug_None _ _ _ _ H) as Hall. cbn in Hall.
  assert (candidate baseSlug <$> seq 0 fuel ⊆+ slugs) as Hsub.
  { apply NoDup_submseteq.
    - apply (NoDup_fmap_2 _ (Inj0 := candidate_inj baseSlug)), NoDup_seq.
    - intros x (j & -> & Hj)%list_elem_of_fmap. apply elem_of_seq in Hj.
      apply Hall. lia. }
  apply submseteq_length in Hsub. rewrite length_fmap, length_seq in Hsub. lia.
Qed.

Section RegistryFacts.
Context (toLowerCase : jsstring → jsstring).

(** X13. The loop of [createProject] ends after at most as many tests
    as there are projects, plus one, and takes the first of the slugs
    base, base-1, base-2, ... that no project has: the new project comes
    last in the registry, and slugs that were distinct stay distinct. *)
Theorem createProject_fresh_slug (rawId now name : jsstring) (switchTo : bool)
    (fuel : nat) (r : Registry) :
  length (projects r) < fuel →
  ∃ project r' k,
    createProject toLowerCase rawId now fuel name switchTo r = Some (project, r') ∧
    projects r' = projects r ++ [project] ∧
    pe_slug project = candidate (slugify toLowerCase name) k ∧
    k ≤ length (projects r) ∧
    (pe_slug project ∉ pe_slug <$> projects r) ∧
    (∀ i, i < k → candidate (slugify toLowerCase name) i ∈ pe_slug <$> projects r) ∧
    (NoDup (pe_slug <$> projects r) → NoDup (pe_slug <$> projects r')).
Proof.
  intros Hfuel. unfold createProject.
  destruct (freeSlug_total (pe_slug <$> projects r) (slugify toLowerCase name) fuel)
    as [slug Hslug]; [by rewrite length_fmap|].
  cbn [candidate] in Hslug. rewrite Hslug. cbn -[js].
  apply (freeSlug_first _ _ _ 0) in Hslug as (k & Hk & -> & Hfree & Hbefore).
  cbn in Hfree, Hbefore.
  eexists _, _, k. split_and!; [reflexivity|done|done| |done|done|].
  - destruct (decide (k ≤ length (projects r))) as [|Hgt]; [done|exfalso].
    assert (candidate (slugify toLowerCase name) <$> seq 0 (S (length (projects r)))
            ⊆+ pe_slug <$> projects r) as Hsub.
    { apply NoDup_submseteq.
      - apply (NoDup_fmap_2 _ (Inj0 := candidate_inj _)), NoDup_seq.
      - intros x (j & -> & Hj)%list_elem_of_fmap. apply elem_of_seq in Hj.
        apply Hbefore. lia. }
    apply submseteq_length in Hsub. rewrite !length_fmap, length_seq in Hsub. lia.
  - intros Hnd. cbn -[js]. rewrite fmap_app. apply NoDup_app. split_and!; [done| |].
    + intros x Hx [->|[]%elem_of_nil]%elem_of_cons. done.
    + apply NoDup_singleton.
Qed.

End RegistryFacts.

Lemma createProject_fresh_slug_witness :
  ∃ project r' k,
    createProject (λ s, s) (js "x") (js "now") 3 (js "a") true sampleRegistry
    = Some (project, r') ∧
    projects r' = projects sampleRegistry ++ [project] ∧
    pe_slug project = candidate (slugify (λ s, s) (js "a")) k ∧
    k ≤ length (projects sampleRegistry) ∧
    (pe_slug project ∉ pe_slug <$> projects sampleRegistry) ∧
    (∀ i, i < k →
       candidate (slugify (λ s, s) (js "a")) i ∈ pe_slug <$> projects sampleRegistry) ∧
    (NoDup (pe_slug <$> projects sampleRegistry) → NoDup (pe_slug <$> projects r')).
Proof.
  refine (createProject_fresh_slug (λ s, s) (js "x") (js "now") (js "a") true 3
            sampleRegistry _).
  vm_compute. lia.
Defined.

(** X14. [deleteProject] keeps an active project: when the active
    project is registered and the call succeeds, there were at least two
    projects, exactly one entry, with the identifier given, is removed,
    the others keep their order, the active project is still registered
    (another one became active if the deleted one was), and with distinct
    identifiers the deleted one is gone. *)
Theorem deleteProject_keeps_active (projectId : jsstring) (r r' : Registry)
    (deleted : ProjectEntry) :
  activeRegistered r →
  deleteProject projectId r = inr (deleted, r') →
  activeRegistered r' ∧
  pe_id deleted = projectId ∧
  1 < length (projects r) ∧
  length (projects r') + 1 = length (projects r) ∧
  projects r' `sublist_of` projects r ∧
  (activeProjectId r ≠ Some projectId → activeProjectId r' = activeProjectId r) ∧
  (NoDup (pe_id <$> projects r) → projectId ∉ pe_id <$> projects r').
Proof.
  intros (a & Ha & Hact) H. unfold deleteProject in H.
  destruct (list_find _ (projects r)) as [[idx project]|] eqn:Hfind; [|done].
  apply list_find_Some in Hfind as (Hidx & Hid & Hfirst).
  case_bool_decide as Hlen; [done|].
  assert (∃ r1, (if decide (activeProjectId r = Some projectId) then
                  match list_find (λ p, pe_id p ≠ projectId) (projects r) with
                  | Some (_, nextProject) => switchProject (pe_id nextProject) r
                  | None => inl NoOtherProject
                  end
                else inr r) = inr r1 ∧ projects r1 = projects r ∧
               (∃ p, p ∈ projects r ∧ pe_id p ≠ projectId ∧
                     activeProjectId r1 = Some (pe_id p)) ∧
               (activeProjectId r ≠ Some projectId → r1 = r))
    as (r1 & Hsw & Hprojects & (p & Hp & Hpne & Hp1) & Hsame).
  { destruct (decide (activeProjectId r = Some projectId)) as [Hdel|Hkeep].
    - destruct (list_find (λ p, pe_id p ≠ projectId) (projects r))
        as [[i next]|] eqn:Hnext; [|done].
      apply list_find_Some in Hnext as (Hi & Hne & _).
      unfold switchProject. rewrite decide_False by congruence.
      unfold findProject.
      destruct (list_find (λ p, pe_id p = pe_id next) (projects r)) as [[j q]|] eqn:Hq.
      + cbn. eexists. split_and!; [done|done| |done].
        exists next. split_and!; [by eapply list_elem_of_lookup_2|done|done].
      + exfalso. apply list_find_None in Hq. rewrite Forall_forall in Hq.
        apply (Hq next); [by eapply list_elem_of_lookup_2|done].
    - exists r. split_and!; [done|done| |done].
      exists a. split_and!; [done| |done]. congruence. }
  rewrite Hsw in H. injection H as <- <-. rewrite Hprojects. unfold activeRegistered. cbn -[delete].
  split_and!.
  - exists p. split; [|done].
    apply list_elem_of_lookup in Hp as [i Hi].
    assert (i ≠ idx) as Hne by (intros ->; congruence).
    apply list_elem_of_lookup.
    destruct (decide (i < idx)).
    + exists i. by rewrite list_lookup_delete_lt.
    + exists (pred i). rewrite list_lookup_delete_ge by lia.
      by replace (S (pred i)) with i by lia.
  - done.
  - lia.
  - rewrite length_delete by eauto. apply lookup_lt_Some in Hidx. lia.
  - apply sublist_delete.
  - intros Hkeep. by rewrite (Hsame Hkeep).
  - intros Hnd Hin. apply list_elem_of_fmap in Hin as (q & Hq & Hin).
    apply list_elem_of_lookup in Hin as [i Hi].
    assert (∃ j, j ≠ idx ∧ projects r !! j = Some q) as (j & Hj & Hjq).
    { destruct (decide (i < idx)).
      - exists i. rewrite list_lookup_delete_lt in Hi by done. split; [lia|done].
      - exists (S i). rewrite list_lookup_delete_ge in Hi by lia. split; [lia|done]. }
    apply Hj. eapply (NoDup_lookup _ _ _ _ Hnd); rewrite list_lookup_fmap.
    + by rewrite Hjq.
    + rewrite Hidx. cbn. congruence.
Qed.

Lemma deleteProject_keeps_active_witness :
  let r' := mkRegistry (drop 1 (projects sampleRegistry)) (Some (js "proj-2")) in
  activeRegistered r' ∧
  js "proj-1" = js "proj-1" ∧
  1 < length (projects sampleRegistry) ∧
  length (projects r') + 1 = length (projects sampleRegistry) ∧
  projects r' `sublist_of` projects sampleRegistry ∧
  (activeProjectId sampleRegistry ≠ Some (js "proj-1") →
   activeProjectId r' = activeProjectId sampleRegistry) ∧
  (NoDup (pe_id <$> projects sampleRegistry) →
   js "proj-1" ∉ pe_id <$> projects r').
Proof.
  intros r'.
  refine (deleteProject_keeps_active (js "proj-1") sampleRegistry r'
            (mkProjectEntry (js "proj-1") (js "A") (js "a")
               (js "2024-01-01T00:00:00.000Z")) _ _).
  - eexists. split; [apply list_elem_of_here|reflexivity].
  - vm_compute. reflexivity.
Defined.

(** ** The renderer's escaping *)

Lemma replaceUnit_app c b s1 s2 :
  replaceUnit c b (s1 ++ s2) = replaceUnit c b s1 ++ replaceUnit c b s2.
Proof. unfold replaceUnit. apply bind_app. Qed.

Lemma escapeHtml_app s1 s2 : escapeHtml (s1 ++ s2) = escapeHtml s1 ++ escapeHtml s2.
Proof. unfold escapeHtml. by rewrite !replaceUnit_app. Qed.

Lemma escapeHtml_cons c s : escapeHtml (c :: s) = escapedUnit c ++ escapeHtml s.
Proof.
  change (c :: s) with ([c] ++ s). rewrite escapeHtml_app. f_equal.
  unfold escapedUnit.
  destruct (N.eqb_spec c 38) as [->|H1]; [vm_compute; reflexivity|].
  destruct (N.eqb_spec c 60) as [->|H2]; [vm_compute; reflexivity|].
  destruct (N.eqb_spec c 62) as [->|H3]; [vm_compute; reflexivity|].
  destruct (N.eqb_spec c 34) as [->|H4]; [vm_compute; reflexivity|].
  unfold escapeHtml, replaceUnit. cbn.
  rewrite (proj2 (N.eqb_neq c 38)) by done. cbn.
  rewrite (proj2 (N.eqb_neq c 60)) by done. cbn.
  rewrite (proj2 (N.eqb_neq c 62)) by done. cbn.
  by rewrite (proj2 (N.eqb_neq c 34)) by done.
Qed.

Lemma escapedUnit_cases c :
  (c = 38%N ∧ escapedUnit c = js "&amp;") ∨ (c = 60%N ∧ escapedUnit c = js "&lt;") ∨
  (c = 62%N ∧ escapedUnit c = js "&gt;") ∨ (c = 34%N ∧ escapedUnit c = js "&quot;") ∨
  ((c ∉ [38; 60; 62; 34]%N) ∧ escapedUnit c = [c]).
Proof.
  unfold escapedUnit.
  destruct (N.eqb_spec c 38) as [->|H1]; [by left|].
  destruct (N.eqb_spec c 60) as [->|H2]; [by right; left|].
  destruct (N.eqb_spec c 62) as [->|H3]; [by right; right; left|].
  destruct (N.eqb_spec c 34) as [->|H4]; [by right; right; right; left|].
  right; right; right; right. split; [set_solver|done].
Qed.

Lemma unescapeHtml_unit c rest :
  unescapeHtml (escapedUnit c ++ rest) = c :: unescapeHtml rest.
Proof.
  destruct (escapedUnit_cases c)
    as [[-> ->]|[[-> ->]|[[-> ->]|[[-> ->]|[Hc ->]]]]]; [reflexivity..|].
  cbn. rewrite (proj2 (N.eqb_neq c 38)); [done|]. set_solver.
Qed.

Lemma unescapeHtml_escapeHtml s : unescapeHtml (escapeHtml s) = s.
Proof.
  induction s as [|c s IH]; [done|].
  by rewrite escapeHtml_cons, unescapeHtml_unit, IH.
Qed.

(** X15. [escapeHtml] leaves no [<], [>] or double quote in its result,
    loses nothing (two texts with the same result are the same text), and
    escapes a concatenation piece by piece. *)
Theorem escapeHtml_safe (s : jsstring) :
  (60%N ∉ escapeHtml s) ∧ (62%N ∉ escapeHtml s) ∧ (34%N ∉ escapeHtml s) ∧
  (∀ t, escapeHtml s = escapeHtml t → s = t) ∧
  (∀ t, escapeHtml (s ++ t) = escapeHtml s ++ escapeHtml t).
Proof.
  assert (∀ x, x ∈ escapeHtml s → x ≠ 60%N ∧ x ≠ 62%N ∧ x ≠ 34%N) as Hplain.
  { induction s as [|c s IH]; intros x Hx; [by apply elem_of_nil in Hx|].
    rewrite escapeHtml_cons in Hx. apply elem_of_app in Hx as [Hx|Hx]; [|by apply IH].
    destruct (escapedUnit_cases c)
      as [[-> Hc]|[[-> Hc]|[[-> Hc]|[[-> Hc]|[Hc Hu]]]]]; rewrite ?Hc, ?Hu in Hx.
    1-4: vm_compute in Hx;
         repeat (apply elem_of_cons in Hx as [->|Hx]; [done|]); by apply elem_of_nil in Hx.
    apply list_elem_of_singleton in Hx as ->. set_solver. }
  split_and!.
  - intros Hin. by destruct (Hplain _ Hin) as (? & _).
  - intros Hin. by destruct (Hplain _ Hin) as (_ & ? & _).
  - intros Hin. by destruct (Hplain _ Hin) as (_ & _ & ?).
  - intros t Heq. rewrite <- (unescapeHtml_escapeHtml s), Heq.
    apply unescapeHtml_escapeHtml.
  - intros t. apply escapeHtml_app.
Qed.

(** ** The shape of the element tree *)

Lemma relinked_lookup els id l np idx k :
  relinked els id l np idx !! k = relinkedNode id l np idx k <$> els !! k.
Proof.
  unfold relinked, relinkedNode. rewrite !lookup_alter.
  destruct (els !! k) as [x|] eqn:E; cbn; repeat case_decide; subst;
    rewrite ?E; cbn; done.
Qed.

Lemma elem_of_insertChild_iff children idx (id c : jsstring) :
  c ∈ insertChild children idx id ↔ c = id ∨ c ∈ children.
Proof.
  destruct idx as [i|]; cbn; [unfold spliceInsert|]; [|set_solver].
  cbn zeta. rewrite elem_of_app, elem_of_cons.
  assert (c ∈ children ↔
          c ∈ take (spliceStart (length children) i) children ∨
          c ∈ drop (spliceStart (length children) i) children) as ->; [|tauto].
  rewrite <- elem_of_app. by rewrite take_drop.
Qed.

Lemma relinkedNode_fields id l np idx k x :
  el_pageId (relinkedNode id l np idx k x) = el_pageId x ∧
  el_parentId (relinkedNode id l np idx k x)
  = (if decide (id = k) then Some np else el_parentId x) ∧
  ∀ c, c ∈ el_children (relinkedNode id l np idx k x) ↔
       (np = k ∧ c = id) ∨ (c ∈ el_children x ∧ (l = k → c ≠ id)).
Proof.
  unfold relinkedNode. split_and!.
  - repeat case_decide; done.
  - repeat case_decide; done.
  - intros c. repeat case_decide; subst; cbn;
      rewrite ?elem_of_insertChild_iff, ?list_elem_of_filter; naive_solver.
Qed.

(** The tree before the page identifiers are rewritten: linked, and on
    one page along every edge but the new one. *)
Lemma relinked_shape els id l np idx e :
  pageIdsConsistent els → childrenLinked els →
  els !! id = Some e → el_parentId e = Some l →
  childrenLinked (relinked els id l np idx) ∧
  (∀ k x, relinked els id l np idx !! k = Some x → id ∈ el_children x → k = np) ∧
  ∀ k x c cx, relinked els id l np idx !! k = Some x → c ∈ el_children x →
    relinked els id l np idx !! c = Some cx →
    el_pageId cx = el_pageId x ∨ (k = np ∧ c = id).
Proof.
  intros Hcons Hlink He Hpar.
  assert (∀ k x0 c, els !! k = Some x0 →
    c ∈ el_children (relinkedNode id l np idx k x0) →
    (k = np ∧ c = id) ∨ (c ≠ id ∧ c ∈ el_children x0)) as Hedge.
  { intros k x0 c Hk Hc.
    apply (relinkedNode_fields id l np idx k x0) in Hc as [[-> ->]|[Hc Hl]]; [by left|].
    right. split; [|done]. intros ->.
    pose proof (Hlink k x0 id e Hk Hc He) as Hp. rewrite Hpar in Hp.
    injection Hp as ->. by apply Hl. }
  split_and!.
  - intros k x c cx Hk Hc Hcx. rewrite relinked_lookup in Hk, Hcx.
    apply fmap_Some in Hk as (x0 & Hk & ->). apply fmap_Some in Hcx as (cx0 & Hcx & ->).
    destruct (relinkedNode_fields id l np idx c cx0) as (_ & -> & _).
    destruct (Hedge k x0 c Hk Hc) as [[-> ->]|[Hne Hin]].
    + by rewrite decide_True.
    + rewrite decide_False by done. by eapply Hlink.
  - intros k x Hk Hid. rewrite relinked_lookup in Hk.
    apply fmap_Some in Hk as (x0 & Hk & ->).
    by destruct (Hedge k x0 id Hk Hid) as [[-> _]|[? _]].
  - intros k x c cx Hk Hc Hcx. rewrite relinked_lookup in Hk, Hcx.
    apply fmap_Some in Hk as (x0 & Hk & ->). apply fmap_Some in Hcx as (cx0 & Hcx & ->).
    destruct (relinkedNode_fields id l np idx c cx0) as (-> & _ & _).
    destruct (relinkedNode_fields id l np idx k x0) as (-> & _ & _).
    destruct (Hedge k x0 c Hk Hc) as [[-> ->]|[Hne Hin]]; [by right|].
    left. by eapply Hcons.
Qed.

Lemma stampedFrom_refl new id a : stampedFrom new id a a.
Proof. intros k. by left. Qed.

Lemma stampedFrom_children new id a b k x :
  stampedFrom new id a b → b !! k = Some x →
  ∃ x0, a !! k = Some x0 ∧ el_children x = el_children x0 ∧
        el_parentId x = el_parentId x0 ∧
        (el_pageId x = el_pageId x0 ∨ (reach a id k ∧ el_pageId x = new)).
Proof.
  intros Hs Hk. destruct (Hs k) as [E|(Hr & e & Ha & Hb)].
  - exists x. rewrite <- E. split_and!; [done..|by left].
  - rewrite Hb in Hk. injection Hk as <-. exists e. split_and!; [done..|]. right. done.
Qed.

Lemma stampedFrom_reach new id a b x y :
  stampedFrom new id a b → reach a x y → reach b x y.
Proof.
  intros Hs. induction 1 as [i e He|i e c d He Hc Hcd IH].
  - destruct (Hs i) as [E|(_ & e' & Ha & Hb)].
    + eapply reach_self. by rewrite E.
    + by eapply reach_self.
  - destruct (Hs i) as [E|(_ & e' & Ha & Hb)].
    + eapply reach_child; [by rewrite E|done..].
    + eapply reach_child; [done| |done]. cbn. by simplify_eq.
Qed.

Lemma stampedFrom_reach_inv new id a b x y :
  stampedFrom new id a b → reach b x y → reach a x y.
Proof.
  intros Hs. induction 1 as [i e He|i e c d He Hc Hcd IH].
  - destruct (stampedFrom_children _ _ _ _ _ _ Hs He) as (x0 & Hx0 & _).
    by eapply reach_self.
  - destruct (stampedFrom_children _ _ _ _ _ _ Hs He) as (x0 & Hx0 & Hch & _).
    eapply reach_child; [done| |done]. by rewrite <- Hch.
Qed.

Lemma updatePageId_stamps new fuel : ∀ id els els',
  updatePageId fuel id new els = Some els' →
  stampedFrom new id els els' ∧
  ∀ k y, reach els id k → els' !! k = Some y → el_pageId y = new.
Proof.
  induction fuel as [|fuel IH]; intros id els els' H.
  { cbn in H. destruct (els !! id) eqn:Hid; [done|]. injection H as <-.
    split; [apply stampedFrom_refl|]. intros k y [? ?]%reach_start. congruence. }
  cbn in H. destruct (els !! id) as [e|] eqn:He.
  2:{ injection H as <-. split; [apply stampedFrom_refl|].
      intros k y [? ?]%reach_start. congruence. }
  assert (∀ cs a,
    (∀ c, c ∈ cs → c ∈ el_children e) →
    stampedFrom new id els a →
    (∀ y, a !! id = Some y → el_pageId y = new) →
    foldl (λ acc childId, acc ≫= updatePageId fuel childId new) (Some a) cs = Some els' →
    stampedFrom new id els els' ∧
    (∀ y, els' !! id = Some y → el_pageId y = new) ∧
    ∀ c k y, c ∈ cs → reach els c k → els' !! k = Some y → el_pageId y = new) as Hgen.
  { induction cs as [|c cs IHcs]; intros a Hcs Ha Hid Hf.
    { cbn in Hf. injection Hf as <-. split_and!; [done..|]. intros c k y Hc. by apply elem_of_nil in Hc. }
    cbn in Hf. destruct (updatePageId fuel c new a) as [a'|] eqn:Hc;
      [|by rewrite foldl_bind_None in Hf].
    cbn in Hf. destruct (IH _ _ _ Hc) as [Hs Hall].
    assert (stampedFrom new id els a') as Ha'.
    { intros k. destruct (Hs k) as [E|(Hr & x & Hx & Hx')].
      - rewrite E. apply Ha.
      - right. assert (reach els id k) as Hrk.
        { eapply reach_child; [done|apply Hcs; apply elem_of_cons; by left|].
          by eapply stampedFrom_reach_inv. }
        split; [done|].
        destruct (Ha k) as [E|(_ & x0 & Hx0 & Hxa)].
        + exists x. by rewrite <- E.
        + exists x0. split; [done|]. rewrite Hx'. f_equal.
          rewrite Hxa in Hx. by injection Hx as <-. }
    assert (∀ k y, (∀ z, a !! k = Some z → el_pageId z = new) →
                   a' !! k = Some y → el_pageId y = new) as Hkeep.
    { intros k y Hz Hy. destruct (Hs k) as [E|(_ & x & Hx & Hx')].
      - apply Hz. congruence.
      - rewrite Hx' in Hy. by injection Hy as <-. }
    destruct (IHcs a') as (Hfin & Hidfin & Hrest); [set_solver|done| |done|].
    { intros y. by apply Hkeep. }
    split_and!; [done..|].
    intros c' k y [->|Hc']%elem_of_cons Hr Hy; [|by eapply Hrest].
    (* stamped by the walk from [c], and kept since *)
    assert (∀ z, a' !! k = Some z → el_pageId z = new) as Hz.
    { intros z Hz. eapply Hall; [|done]. by eapply stampedFrom_reach. }
    clear -Hf Hz Hy IH.
    revert a' Hf Hz. induction cs as [|c2 cs IHcs]; intros a' Hf Hz.
    { cbn in Hf. injection Hf as <-. by apply Hz. }
    cbn in Hf. destruct (updatePageId fuel c2 new a') as [a''|] eqn:Hc2;
      [|by rewrite foldl_bind_None in Hf].
    cbn in Hf. apply (IHcs a'' Hf). intros z Hz'.
    destruct (IH _ _ _ Hc2) as [Hs2 _].
    destruct (Hs2 k) as [E|(_ & x & Hx & Hx')].
    + apply Hz. congruence.
    + rewrite Hx' in Hz'. by injection Hz' as <-. }
  destruct (Hgen (el_children e) (<[id := withPageId new e]> els)) as (Hs & Hid & Hch).
  - done.
  - intros k. destruct (decide (k = id)) as [->|].
    + right. split; [by eapply reach_self|]. exists e. by rewrite lookup_insert_eq.
    + left. by rewrite lookup_insert_ne.
  - intros y. rewrite lookup_insert_eq. by intros [= <-].
  - done.
  - split; [done|]. intros k y Hr Hy.
    inversion Hr as [? e0 He0|? e0 c d He0 Hc Hcd]; subst.
    + by apply Hid.
    + rewrite He in He0. injection He0 as <-. by eapply Hch.
Qed.

Lemma reach_parent (els : gmap jsstring Element) a d :
  reach els a d → d = a ∨ ∃ y x, reach els a y ∧ els !! y = Some x ∧ d ∈ el_children x.
Proof.
  induction 1 as [i e He|i e c d He Hc Hcd IH]; [by left|]. right.
  destruct IH as [->|(y & x & Hy & Hx & Hd)].
  - exists i, e. split_and!; [by eapply reach_self|done..].
  - exists y, x. split_and!; [by eapply reach_child|done..].
Qed.

(** [moveElement] keeps the tree linked and on one page along its edges. *)
Lemma moved_shape els els4 id l np idx e pe :
  pageIdsConsistent els → childrenLinked els →
  els !! id = Some e → el_parentId e = Some l → els !! np = Some pe →
  (if decide (el_pageId e = el_pageId pe) then els4 = relinked els id l np idx
   else ∃ fuel, updatePageId fuel id (el_pageId pe) (relinked els id l np idx) = Some els4) →
  pageIdsConsistent els4 ∧ childrenLinked els4 ∧ dom els4 = dom els.
Proof.
  intros Hcons Hlink He Hpar Hnp H4.
  destruct (relinked_shape els id l np idx e Hcons Hlink He Hpar) as (Hl3 & Hid3 & Hc3).
  assert (dom (relinked els id l np idx) = dom els) as Hdom3.
  { apply set_eq. intros k. rewrite !elem_of_dom, relinked_lookup.
    by rewrite fmap_is_Some. }
  assert (∀ x, relinked els id l np idx !! id = Some x → el_pageId x = el_pageId e) as Hidp.
  { intros x. rewrite relinked_lookup, He. cbn. intros [= <-].
    by destruct (relinkedNode_fields id l np idx id e) as (-> & _). }
  assert (∀ x, relinked els id l np idx !! np = Some x → el_pageId x = el_pageId pe) as Hnpp.
  { intros x. rewrite relinked_lookup, Hnp. cbn. intros [= <-].
    by destruct (relinkedNode_fields id l np idx np pe) as (-> & _). }
  case_decide as Hpage.
  { subst els4. split_and!; [|done..].
    intros k x c cx Hk Hc Hcx.
    destruct (Hc3 k x c cx Hk Hc Hcx) as [?|[-> ->]]; [done|].
    rewrite (Hidp _ Hcx), (Hnpp _ Hk). done. }
  destruct H4 as [fuel H4].
  destruct (updatePageId_stamps _ _ _ _ _ H4) as [Hs Hall].
  set (els3 := relinked els id l np idx) in *.
  split_and!.
  - intros k x c cx Hk Hc Hcx.
    destruct (stampedFrom_children _ _ _ _ _ _ Hs Hk) as (x0 & Hx0 & Hch & _ & Hpk).
    destruct (stampedFrom_children _ _ _ _ _ _ Hs Hcx) as (cx0 & Hcx0 & _ & _ & Hpc).
    rewrite Hch in Hc.
    destruct Hpk as [Hpk|[Hrk Hpk]].
    + destruct Hpc as [Hpc|[Hrc Hpc]].
      * destruct (Hc3 k x0 c cx0 Hx0 Hc Hcx0) as [?|[-> ->]]; [congruence|].
        rewrite (Hall id cx); [|by eapply reach_self|done].
        rewrite Hpk. symmetry. by apply Hnpp.
      * rewrite Hpc.
        destruct (reach_parent _ _ _ Hrc) as [->|(y & yx & Hy & Hyx & Hcy)].
        -- pose proof (Hid3 k x0 Hx0 Hc) as ->.
           rewrite Hpk. symmetry. by apply Hnpp.
        -- pose proof (Hl3 y yx c cx0 Hyx Hcy Hcx0) as Hp1.
           pose proof (Hl3 k x0 c cx0 Hx0 Hc Hcx0) as Hp2.
           assert (k = y) as -> by congruence.
           symmetry. by eapply Hall.
    + rewrite Hpk. eapply (Hall c); [|done].
      eapply reach_trans; [done|]. eapply reach_child; [done..|]. by eapply reach_self.
  - intros k x c cx Hk Hc Hcx.
    destruct (stampedFrom_children _ _ _ _ _ _ Hs Hk) as (x0 & Hx0 & Hch & _).
    destruct (stampedFrom_children _ _ _ _ _ _ Hs Hcx) as (cx0 & Hcx0 & _ & Hpar0 & _).
    rewrite Hpar0. rewrite Hch in Hc. by eapply Hl3.
  - rewrite <- Hdom3. apply set_eq. intros k. rewrite !elem_of_dom.
    destruct (Hs k) as [->|(_ & x & -> & ->)]; [done|]. split; eauto.
Qed.

(** A map whose nodes are nodes of a shaped tree, with no further child,
    is shaped. *)
Lemma treeShaped_shrink (els els' : gmap jsstring Element) :
  treeShaped els →
  (∀ k x', els' !! k = Some x' →
     ∃ x, els !! k = Some x ∧ el_pageId x' = el_pageId x ∧
          el_parentId x' = el_parentId x ∧
          ∀ c, c ∈ el_children x' → c ∈ el_children x) →
  treeShaped els'.
Proof.
  intros (Hcons & Hlink & Hempty) Hsub. split_and!.
  - intros k x c cx Hk Hc Hcx.
    destruct (Hsub _ _ Hk) as (x0 & Hx0 & -> & _ & Hch).
    destruct (Hsub _ _ Hcx) as (cx0 & Hcx0 & -> & _ & _).
    eapply Hcons; [done| |done]. by apply Hch.
  - intros k x c cx Hk Hc Hcx.
    destruct (Hsub _ _ Hk) as (x0 & Hx0 & _ & _ & Hch).
    destruct (Hsub _ _ Hcx) as (cx0 & Hcx0 & _ & -> & _).
    eapply Hlink; [done| |done]. by apply Hch.
  - destruct (els' !! []) as [x|] eqn:E; [|done].
    destruct (Hsub _ _ E) as (x0 & Hx0 & _). congruence.
Qed.

(** A new leaf under an existing node. *)
Lemma attached_shape (els b : gmap jsstring Element) id pid p element children' :
  treeShaped els → unused els id → id ≠ [] → els !! pid = Some p →
  el_children element = [] → el_parentId element = Some pid →
  el_pageId element = el_pageId p →
  (∀ c, c ∈ children' ↔ c = id ∨ c ∈ el_children p) →
  (∀ k, b !! k = if decide (k = id) then Some element
                 else if decide (k = pid) then Some (withChildren children' p)
                 else els !! k) →
  treeShaped b ∧
  (∀ id', id' ≠ id → unused els id' → unused b id') ∧
  (∀ k x, els !! k = Some x → ∃ y, b !! k = Some y ∧ el_pageId y = el_pageId x).
Proof.
  intros (Hcons & Hlink & Hempty) [Hfresh Hunlisted] Hne Hp Hch Hpar Hpage Hin Hb.
  assert (pid ≠ id) as Hpid by congruence.
  assert (∀ k x, b !! k = Some x → k ≠ id →
    ∃ x0, els !! k = Some x0 ∧ el_pageId x = el_pageId x0 ∧
          el_parentId x = el_parentId x0 ∧
          ∀ c, c ∈ el_children x → c ≠ id → c ∈ el_children x0) as Hold.
  { intros k x Hk Hkid. rewrite Hb, decide_False in Hk by done.
    case_decide as Hkp.
    - subst k. injection Hk as <-. exists p. split_and!; [done..|].
      intros c [->|Hc]%Hin; done.
    - exists x. split_and!; done. }
  assert (∀ k x, b !! k = Some x → id ∈ el_children x → k = pid) as Hlists.
  { intros k x Hk Hc. rewrite Hb in Hk. case_decide as Hkid.
    - injection Hk as <-. rewrite Hch in Hc. by apply elem_of_nil in Hc.
    - case_decide as Hkp; [done|]. by destruct (Hunlisted k x Hk). }
  split_and!; [split_and!|..].
  - intros k x c cx Hk Hc Hcx. destruct (decide (k = id)) as [->|Hkid].
    { rewrite Hb, decide_True in Hk by done. injection Hk as <-.
      rewrite Hch in Hc. by apply elem_of_nil in Hc. }
    destruct (Hold k x Hk Hkid) as (x0 & Hx0 & -> & _ & Hc0).
    destruct (decide (c = id)) as [->|Hcid].
    + rewrite (Hlists k x Hk Hc) in Hx0. rewrite Hp in Hx0. injection Hx0 as <-.
      rewrite Hb, decide_True in Hcx by done. by injection Hcx as <-.
    + destruct (Hold c cx Hcx Hcid) as (cx0 & Hcx0 & -> & _).
      eapply Hcons; [done| |done]. by apply Hc0.
  - intros k x c cx Hk Hc Hcx. destruct (decide (k = id)) as [->|Hkid].
    { rewrite Hb, decide_True in Hk by done. injection Hk as <-.
      rewrite Hch in Hc. by apply elem_of_nil in Hc. }
    destruct (Hold k x Hk Hkid) as (x0 & Hx0 & _ & _ & Hc0).
    destruct (decide (c = id)) as [->|Hcid].
    + rewrite (Hlists k x Hk Hc).
      rewrite Hb, decide_True in Hcx by done. by injection Hcx as <-.
    + destruct (Hold c cx Hcx Hcid) as (cx0 & Hcx0 & _ & -> & _).
      eapply Hlink; [done| |done]. by apply Hc0.
  - rewrite Hb, decide_False by done. case_decide; [congruence|done].
  - intros id' Hne' [Hf' Hu']. split.
    + rewrite Hb, decide_False by done. case_decide; [congruence|done].
    + intros k x Hk Hc. rewrite Hb in Hk. case_decide.
      * injection Hk as <-. rewrite Hch in Hc. by apply elem_of_nil in Hc.
      * case_decide.
        -- injection Hk as <-. cbn in Hc. apply Hin in Hc as [?|Hc]; [done|].
           by eapply Hu'.
        -- by eapply Hu'.
  - intros k x Hk. rewrite Hb. case_decide; [congruence|].
    case_decide.
    + subst k. rewrite Hp in Hk. injection Hk as <-. eexists. split; [done|]. done.
    + by exists x.
Qed.

Section TreeShape.
Context (nanoid : nat → jsstring) (pageId : jsstring) (n0 : nat).
Hypothesis Hinj : ∀ i j, n0 ≤ i → n0 ≤ j → nanoid i = nanoid j → i = j.
Hypothesis Hne : ∀ k, n0 ≤ k → nanoid k ≠ [].

Lemma createDef_shape n : ∀ def, defSize def ≤ n → ∀ pid s p,
  n0 ≤ s.2 → treeShaped s.1 → (∀ k, s.2 ≤ k → unused s.1 (nanoid k)) →
  s.1 !! pid = Some p → el_pageId p = pageId →
  treeShaped (createDef nanoid pageId def pid s).1.1 ∧
  (∀ k, (createDef nanoid pageId def pid s).1.2 ≤ k →
        unused (createDef nanoid pageId def pid s).1.1 (nanoid k)) ∧
  s.2 ≤ (createDef nanoid pageId def pid s).1.2 ∧
  (∀ k x, s.1 !! k = Some x →
     ∃ y, (createDef nanoid pageId def pid s).1.1 !! k = Some y ∧
          el_pageId y = el_pageId x).
Proof.
  induction n as [|n IH];
    intros [tag classes attributes textContent children] Hn pid s p Hs Hshape Hun Hp Hpage.
  { rewrite defSize_unfold in Hn. lia. }
  rewrite defSize_unfold in *. cbn [createDef].
  set (id := nanoid s.2).
  set (element := mkElement id tag _ _ _ _ _ pageId).
  set (els2 := alter _ pid (<[id := element]> s.1)).
  assert (pid ≠ id) as Hpid.
  { intros ->. destruct (Hun s.2) as [Hnone _]; [done|]. fold id in Hnone. congruence. }
  destruct (attached_shape s.1 els2 id pid p element (el_children p ++ [id]))
    as (Hshape2 & Hun2 & Hkeep2); [done|by apply Hun|by apply Hne|done..| | |].
  { intros c. rewrite elem_of_app, list_elem_of_singleton. tauto. }
  { intros k. subst els2. rewrite lookup_alter. case_decide as Hk1.
    - subst k. rewrite decide_False by done. rewrite decide_True by done.
      rewrite lookup_insert_ne by done. by rewrite Hp.
    - case_decide as Hk2.
      + subst k. by rewrite lookup_insert_eq.
      + rewrite decide_False by done. by rewrite lookup_insert_ne. }
  assert (els2 !! id = Some element) as Hid2.
  { subst els2. rewrite lookup_alter_ne by done. by rewrite lookup_insert_eq. }
  cbn [fst snd].
  assert (∀ cs (t : gmap jsstring Element * nat) q,
    defsSize cs ≤ n → n0 ≤ t.2 → treeShaped t.1 →
    (∀ k, t.2 ≤ k → unused t.1 (nanoid k)) →
    t.1 !! id = Some q → el_pageId q = pageId →
    let r := (fix createChildren (defs : list ElementDef)
                  (s : gmap jsstring Element * nat) : gmap jsstring Element * nat :=
                match defs with
                | [] => s
                | d :: defs' => createChildren defs' (createDef nanoid pageId d id s).1
                end) cs t in
    treeShaped r.1 ∧ (∀ k, r.2 ≤ k → unused r.1 (nanoid k)) ∧ t.2 ≤ r.2 ∧
    (∀ k x, t.1 !! k = Some x → ∃ y, r.1 !! k = Some y ∧ el_pageId y = el_pageId x))
    as Hloop.
  { induction cs as [|c cs IHcs]; intros t q Hsz Ht0 Hst Hut Hq Hqp.
    { cbn. split_and!; [done..|]. intros k x Hk. by exists x. }
    rewrite defsSize_cons in Hsz. cbn zeta.
    destruct (IH c ltac:(lia) id t q Ht0 Hst Hut Hq Hqp) as (Hc1 & Hc2 & Hc3 & Hc4).
    destruct (Hc4 id q Hq) as (q' & Hq' & Hqp').
    destruct (IHcs (createDef nanoid pageId c id t).1 q')
      as (Hr1 & Hr2 & Hr3 & Hr4); [lia|lia|done|done|done|congruence|].
    split_and!; [done|done|lia|].
    intros k x Hk. destruct (Hc4 k x Hk) as (y & Hy & Hyp).
    destruct (Hr4 k y Hy) as (z & Hz & Hzp). exists z. split; [done|congruence]. }
  destruct (Hloop children (els2, S s.2) element)
    as (Hr1 & Hr2 & Hr3 & Hr4); [lia|cbn; lia|done| |done|done|].
  { cbn [fst snd]. intros k Hk. apply Hun2; [|apply Hun; lia].
    intros Heq. apply Hinj in Heq; lia. }
  split_and!; [done|done|cbn [snd] in Hr3; lia|].
  intros k x Hk. destruct (Hkeep2 k x Hk) as (y & Hy & Hyp).
  destruct (Hr4 k y Hy) as (z & Hz & Hzp). exists z. split; [done|congruence].
Qed.

Lemma createRecursive_shape pid : ∀ defs s p,
  n0 ≤ s.2 → treeShaped s.1 → (∀ k, s.2 ≤ k → unused s.1 (nanoid k)) →
  s.1 !! pid = Some p → el_pageId p = pageId →
  treeShaped (createRecursive nanoid pid defs pageId s).1.1.
Proof.
  induction defs as [|d defs IH]; intros s p Hs Hshape Hun Hp Hpage; [done|].
  cbn [createRecursive fst snd].
  destruct (createDef_shape (defSize d) d ltac:(lia) pid s p Hs Hshape Hun Hp Hpage)
    as (H1 & H2 & H3 & H4).
  destruct (H4 pid p Hp) as (p' & Hp' & Hpp').
  eapply (IH _ p'); [lia|done|done|done|congruence].
Qed.

End TreeShape.

Lemma cloneStep_clonedNode (pageId : jsstring) idMap els p :
  cloneStep pageId idMap els p
  = match els !! p.1 with
    | Some src => <[p.2 := clonedNode pageId idMap p.2 src]> els
    | None => els
    end.
Proof. reflexivity. Qed.

(** The nodes after the second loop of [clonePage]: those before it, and
    copies of them. *)
Lemma cloneElements_nodes (pageId : jsstring) (idMap : list (jsstring * jsstring))
    (els : gmap jsstring Element) :
  (∀ p, p ∈ idMap → is_Some (els !! p.1) ∧ els !! p.2 = None) →
  ∀ k y, cloneElements pageId idMap els !! k = Some y →
    els !! k = Some y ∨
    ∃ p src, p ∈ idMap ∧ k = p.2 ∧ els !! p.1 = Some src ∧
             y = clonedNode pageId idMap k src.
Proof.
  intros Hmap. rewrite cloneElements_steps.
  assert (∀ full l a,
    (∀ p, p ∈ l → is_Some (els !! p.1) ∧ els !! p.2 = None) →
    (∀ k x, els !! k = Some x → a !! k = Some x) →
    ∀ k y, foldl (cloneStep pageId full) a l !! k = Some y →
      a !! k = Some y ∨
      ∃ p src, p ∈ l ∧ k = p.2 ∧ els !! p.1 = Some src ∧
               y = clonedNode pageId full k src) as Hgen.
  { intros full. induction l as [|p l IH]; intros a Hl Ha k y Hk; [by left|].
    cbn [foldl] in Hk. rewrite cloneStep_clonedNode in Hk.
    destruct (Hl p) as [[src Hsrc] Hnew]; [set_solver|].
    rewrite (Ha _ _ Hsrc) in Hk.
    apply IH in Hk as [Hk|(q & s & Hq & -> & Hs & ->)].
    - destruct (decide (k = p.2)) as [->|Hkp].
      + rewrite lookup_insert_eq in Hk. injection Hk as <-.
        right. exists p, src. split_and!; [set_solver|done..].
      + rewrite lookup_insert_ne in Hk by done. by left.
    - right. exists q, s. split_and!; [set_solver|done..].
    - intros q Hq. apply Hl. set_solver.
    - intros j x Hj. rewrite lookup_insert_ne; [by apply Ha|]. congruence. }
  intros k y Hk. by apply (Hgen idMap idMap els).
Qed.

Lemma cloneElements_shape (pageId : jsstring) (idMap : list (jsstring * jsstring))
    (els : gmap jsstring Element) :
  treeShaped els → NoDup idMap.*1 → NoDup idMap.*2 →
  (∀ p, p ∈ idMap → is_Some (els !! p.1) ∧ unused els p.2 ∧ p.2 ≠ []) →
  treeShaped (cloneElements pageId idMap els).
Proof.
  intros (Hcons & Hlink & Hempty) Hnd1 Hnd2 Hmap.
  assert (∀ p, p ∈ idMap → is_Some (els !! p.1) ∧ els !! p.2 = None) as Hmap'.
  { intros p Hp. destruct (Hmap p Hp) as (? & [? _] & _). done. }
  pose proof (cloneElements_nodes pageId idMap els Hmap') as Hnodes.
  assert (∀ p q, p ∈ idMap → q ∈ idMap → p.2 = q.2 → p = q) as Hinj2.
  { intros p q Hp Hq Heq.
    apply list_elem_of_lookup in Hp as [i Hi]. apply list_elem_of_lookup in Hq as [j Hj].
    assert (i = j) as ->; [|congruence].
    eapply (NoDup_lookup _ _ _ _ Hnd2); rewrite list_lookup_fmap.
    - by rewrite Hi.
    - rewrite Hj. cbn. by rewrite Heq. }
  assert (∀ k x c cx p src,
    p ∈ idMap → k = p.2 → els !! p.1 = Some src → x = clonedNode pageId idMap k src →
    c ∈ el_children x → cloneElements pageId idMap els !! c = Some cx →
    el_pageId cx = pageId ∧ el_parentId cx = Some k) as Hnew.
  { intros k x c cx p src Hp -> Hsrc -> Hc Hcx. cbn in Hc.
    apply list_elem_of_filter in Hc as [_ Hc].
    apply list_elem_of_omap in Hc as (c0 & Hc0 & Hget).
    apply objGet_elem_of in Hget.
    destruct (Hnodes c cx Hcx) as [Hold|(q & qsrc & Hq & Hcq & Hqsrc & ->)].
    { destruct (Hmap' _ Hget) as [_ Hnone]. cbn in Hnone. congruence. }
    split; [done|].
    assert (q = (c0, c)) as -> by (by apply Hinj2).
    cbn in Hqsrc. cbn.
    rewrite (Hlink p.1 src c0 qsrc Hsrc Hc0 Hqsrc). cbn.
    assert (truthy p.1 = true) as ->.
    { destruct p.1 eqn:E; [congruence|done]. }
    unfold idMapGet. apply elem_of_objGet; [done|]. by destruct p. }
  split_and!.
  - intros k x c cx Hk Hc Hcx.
    destruct (Hnodes k x Hk) as [Hold|(p & src & Hp & Hkp & Hsrc & Hx)].
    + destruct (Hnodes c cx Hcx) as [Hcold|(q & qsrc & Hq & -> & _)].
      * by eapply Hcons.
      * destruct (Hmap q Hq) as (_ & [_ Hun] & _). by destruct (Hun k x Hold).
    + destruct (Hnew k x c cx p src Hp Hkp Hsrc Hx Hc Hcx) as [-> _]. by subst x.
  - intros k x c cx Hk Hc Hcx.
    destruct (Hnodes k x Hk) as [Hold|(p & src & Hp & Hkp & Hsrc & Hx)].
    + destruct (Hnodes c cx Hcx) as [Hcold|(q & qsrc & Hq & -> & _)].
      * by eapply Hlink.
      * destruct (Hmap q Hq) as (_ & [_ Hun] & _). by destruct (Hun k x Hold).
    + by destruct (Hnew k x c cx p src Hp Hkp Hsrc Hx Hc Hcx) as [_ ->].
  - destruct (cloneElements pageId idMap els !! []) as [y|] eqn:E; [|done].
    destruct (Hnodes [] y E) as [Hold|(p & src & Hp & Hkp & _)]; [congruence|].
    destruct (Hmap p Hp) as (_ & _ & Hne). congruence.
Qed.

Lemma cloneIds_NoDup (nanoid : nat → jsstring) rootId n0 :
  (∀ i j, n0 ≤ i → n0 ≤ j → nanoid i = nanoid j → i = j) →
  (∀ i j, n0 ≤ i → n0 ≤ j → nanoid i ≠ js "root-" ++ nanoid j) →
  ∀ entries n, n0 ≤ n → NoDup (cloneIds nanoid rootId n entries).*2.
Proof.
  intros Hinj Hroot. induction entries as [|[id e] entries IH]; intros n Hn.
  { constructor. }
  cbn -[js]. constructor; [|apply IH; lia].
  intros (p & Heq & Hp)%list_elem_of_fmap.
  apply cloneIds_fresh in Hp as (k & Hk & Hor).
  case_decide; destruct Hor as [Hor|Hor]; rewrite Hor in Heq.
  - by eapply (Hroot k n); [lia..|].
  - apply app_inv_head in Heq. apply Hinj in Heq; lia.
  - apply Hinj in Heq; lia.
  - by eapply (Hroot n k); [lia..|].
Qed.

Lemma grownBy_unused (N : jsstring → Prop) a b (id : jsstring) :
  grownBy N a b → unused a id → ¬ N id → unused b id.
Proof.
  intros Hg [Hnone Hun] HN. split.
  - destruct (b !! id) as [x|] eqn:E; [|done].
    destruct (Hg id x E) as [[?|[? ?]] _]; [done|congruence].
  - intros k x Hk Hc. destruct (Hg k x Hk) as [_ Hch].
    destruct (Hch id Hc) as [?|[[? ?]|(k0 & x0 & Hk0 & Hc0)]]; [done|congruence|].
    by destruct (Hun k0 x0 Hk0).
Qed.

Lemma grownBy_refl (N : jsstring → Prop) a : grownBy N a a.
Proof.
  intros k x Hk. split; [right; eauto|]. intros c Hc. right. right. eauto.
Qed.

Lemma grownBy_mono (N N' : jsstring → Prop) a b :
  (∀ x, N x → N' x) → grownBy N a b → grownBy N' a b.
Proof.
  intros HN Hg k x Hk. destruct (Hg k x Hk) as [H1 H2]. split.
  - destruct H1; auto.
  - intros c Hc. destruct (H2 c Hc) as [?|[?|?]]; auto.
Qed.

Lemma grownBy_trans (N : jsstring → Prop) a b c :
  grownBy N a b → grownBy N b c → grownBy N a c.
Proof.
  intros Hab Hbc k x Hk. destruct (Hbc k x Hk) as [H1 H2].
  assert (∀ j, is_Some (b !! j) → N j ∨ is_Some (a !! j)) as Hkey.
  { intros j [y Hy]. by destruct (Hab j y Hy) as [? _]. }
  split.
  - destruct H1 as [?|H1]; [by left|]. by apply Hkey.
  - intros j Hj. destruct (H2 j Hj) as [?|[Hb|(k0 & x0 & Hk0 & Hj0)]]; [by left|..].
    + destruct (Hkey j Hb); auto.
    + destruct (Hab k0 x0 Hk0) as [_ H3]. by apply H3.
Qed.

Lemma grownBy_insert (N : jsstring → Prop) (a : gmap jsstring Element) k y :
  (N k ∨ is_Some (a !! k)) →
  (∀ c, c ∈ el_children y →
     N c ∨ is_Some (a !! c) ∨ ∃ k0 x0, a !! k0 = Some x0 ∧ c ∈ el_children x0) →
  grownBy N a (<[k := y]> a).
Proof.
  intros Hk Hy j x Hj. destruct (decide (j = k)) as [->|Hne].
  - rewrite lookup_insert_eq in Hj. by injection Hj as <-.
  - rewrite lookup_insert_ne in Hj by done. by apply (grownBy_refl N a j x).
Qed.

Lemma grownBy_alter (N : jsstring → Prop) (a : gmap jsstring Element) k f :
  (∀ x c, a !! k = Some x → c ∈ el_children (f x) →
     N c ∨ is_Some (a !! c) ∨ c ∈ el_children x) →
  grownBy N a (alter f k a).
Proof.
  intros Hf j y Hj. apply lookup_alter_Some in Hj as [(-> & x & Hx & ->)|[_ Hj]].
  - split; [right; eauto|]. intros c Hc.
    destruct (Hf x c Hx Hc) as [?|[?|?]]; [auto..|]. right. right. eauto.
  - by apply (grownBy_refl N a j y).
Qed.

Lemma grownBy_relinked (els : gmap jsstring Element) id l np idx :
  is_Some (els !! id) → grownBy (λ _, False) els (relinked els id l np idx).
Proof.
  intros Hid k x Hk. rewrite relinked_lookup in Hk.
  apply fmap_Some in Hk as (x0 & Hk & ->). split; [right; eauto|].
  intros c Hc. apply (relinkedNode_fields id l np idx k x0) in Hc as [[_ ->]|[Hc _]].
  - auto.
  - right. right. eauto.
Qed.

Lemma grownBy_stamped (new id : jsstring) (a b : gmap jsstring Element) :
  stampedFrom new id a b → grownBy (λ _, False) a b.
Proof.
  intros Hs k x Hk.
  destruct (stampedFrom_children _ _ _ _ _ _ Hs Hk) as (x0 & Hx0 & Hch & _).
  split; [right; eauto|]. intros c Hc. right. right. exists k, x0. by rewrite <- Hch.
Qed.

Lemma grownBy_sub (a b : gmap jsstring Element) :
  (∀ k x, b !! k = Some x →
     ∃ x0, a !! k = Some x0 ∧ ∀ c, c ∈ el_children x → c ∈ el_children x0) →
  grownBy (λ _, False) a b.
Proof.
  intros Hsub k x Hk. destruct (Hsub k x Hk) as (x0 & Hx0 & Hch).
  split; [right; eauto|]. intros c Hc. right. right. exists k, x0. auto.
Qed.

Section Grown.
Context (nanoid : nat → jsstring) (pageId : jsstring).

Lemma createDef_grown n : ∀ def, defSize def ≤ n → ∀ pid s,
  s.2 ≤ (createDef nanoid pageId def pid s).1.2 ∧
  grownBy (drawnIds nanoid s.2 (createDef nanoid pageId def pid s).1.2)
    s.1 (createDef nanoid pageId def pid s).1.1.
Proof.
  induction n as [|n IH]; intros [tag classes attributes textContent children] Hn pid s.
  { rewrite defSize_unfold in Hn. lia. }
  rewrite defSize_unfold in *. cbn [createDef].
  set (id := nanoid s.2).
  set (element := mkElement id tag _ _ _ _ _ pageId).
  set (els2 := alter _ pid (<[id := element]> s.1)).
  assert (grownBy (drawnIds nanoid s.2 (S s.2)) s.1 els2) as H2.
  { assert (drawnIds nanoid s.2 (S s.2) id) as Hid by (exists s.2; split; [lia|done]).
    eapply grownBy_trans.
    - apply (grownBy_insert _ _ id element); [by left|].
      intros c Hc. by apply elem_of_nil in Hc.
    - intros k x Hk. apply lookup_alter_Some in Hk as [(-> & x0 & Hx0 & ->)|[_ Hk]].
      + split; [right; eauto|]. cbn. intros c [Hc| ->%list_elem_of_singleton]%elem_of_app.
        * right. right. eauto.
        * by left.
      + by apply (grownBy_refl _ _ k x). }
  cbn [fst snd].
  assert (∀ cs (t : gmap jsstring Element * nat),
    defsSize cs ≤ n →
    let r := (fix createChildren (defs : list ElementDef)
                  (s : gmap jsstring Element * nat) : gmap jsstring Element * nat :=
                match defs with
                | [] => s
                | d :: defs' => createChildren defs' (createDef nanoid pageId d id s).1
                end) cs t in
    t.2 ≤ r.2 ∧ grownBy (drawnIds nanoid t.2 r.2) t.1 r.1) as Hloop.
  { induction cs as [|c cs IHcs]; intros t Hsz.
    { cbn. split; [done|apply grownBy_refl]. }
    rewrite defsSize_cons in Hsz. cbn zeta.
    destruct (IH c ltac:(lia) id t) as [Hc1 Hc2].
    destruct (IHcs (createDef nanoid pageId c id t).1 ltac:(lia)) as [Hr1 Hr2].
    split; [lia|].
    eapply grownBy_trans; (eapply grownBy_mono; [|done]).
    - intros x (k & Hk & ->). exists k. split; [lia|done].
    - intros x (k & Hk & ->). exists k. split; [lia|done]. }
  destruct (Hloop children (els2, S s.2) ltac:(lia)) as [Hr1 Hr2].
  cbn [fst snd] in Hr1, Hr2. split; [lia|].
  eapply grownBy_trans; (eapply grownBy_mono; [|done]).
  - intros x (k & Hk & ->). exists k. split; [lia|done].
  - intros x (k & Hk & ->). exists k. split; [lia|done].
Qed.

Lemma createRecursive_grown pid : ∀ defs s,
  s.2 ≤ (createRecursive nanoid pid defs pageId s).1.2 ∧
  grownBy (drawnIds nanoid s.2 (createRecursive nanoid pid defs pageId s).1.2)
    s.1 (createRecursive nanoid pid defs pageId s).1.1.
Proof.
  induction defs as [|d defs IH]; intros s.
  { cbn. split; [done|apply grownBy_refl]. }
  cbn [createRecursive fst snd].
  destruct (createDef_grown (defSize d) d ltac:(lia) pid s) as [H1 H2].
  destruct (IH (createDef nanoid pageId d pid s).1) as [H3 H4].
  split; [lia|].
  eapply grownBy_trans; (eapply grownBy_mono; [|done]).
  - intros x (k & Hk & ->). exists k. split; [lia|done].
  - intros x (k & Hk & ->). exists k. split; [lia|done].
Qed.

End Grown.

Lemma cloneIds_drawn nanoid rootId : ∀ entries n p,
  p ∈ cloneIds nanoid rootId n entries →
  ∃ k, n ≤ k < n + length entries ∧ (p.2 = nanoid k ∨ p.2 = js "root-" ++ nanoid k).
Proof.
  induction entries as [|[id e] entries IH]; intros n p Hp; [by apply elem_of_nil in Hp|].
  cbn -[js] in Hp. apply elem_of_cons in Hp as [->|Hp].
  - exists n. split; [cbn; lia|]. cbn -[js]. case_decide; auto.
  - destruct (IH _ _ Hp) as (k & Hk & Hor). exists k. split; [cbn; lia|done].
Qed.

Lemma grownBy_cloneElements (pageId : jsstring) (idMap : list (jsstring * jsstring))
    (els : gmap jsstring Element) :
  (∀ p, p ∈ idMap → is_Some (els !! p.1) ∧ els !! p.2 = None) →
  grownBy (λ x, x ∈ idMap.*2) els (cloneElements pageId idMap els).
Proof.
  intros Hmap k y Hk.
  destruct (cloneElements_nodes pageId idMap els Hmap k y Hk)
    as [Hold|(p & src & Hp & -> & Hsrc & ->)].
  - by apply (grownBy_refl (λ x, x ∈ idMap.*2) els k y).
  - split.
    + left. apply list_elem_of_fmap. by exists p.
    + cbn. intros c [_ Hc]%list_elem_of_filter.
      apply list_elem_of_omap in Hc as (c0 & Hc0 & Hget).
      apply objGet_elem_of in Hget. left. apply list_elem_of_fmap. by exists (c0, c).
Qed.

Lemma insert_insert_lookup (els : gmap jsstring Element) id pid x y k :
  pid ≠ id →
  <[pid := y]> (<[id := x]> els) !! k
  = if decide (k = id) then Some x else if decide (k = pid) then Some y else els !! k.
Proof.
  intros Hne. case_decide as H1.
  - subst k. rewrite lookup_insert_ne by done. by rewrite lookup_insert_eq.
  - case_decide as H2.
    + subst k. by rewrite lookup_insert_eq.
    + by rewrite !lookup_insert_ne.
Qed.

(** A new node without parent and children. *)
Lemma rooted_shape (els : gmap jsstring Element) id element :
  treeShaped els → unused els id → id ≠ [] → el_children element = [] →
  treeShaped (<[id := element]> els).
Proof.
  intros (Hcons & Hlink & Hempty) [Hnone Hun] Hne Hch.
  assert (∀ k x c cx, <[id := element]> els !! k = Some x → c ∈ el_children x →
            <[id := element]> els !! c = Some cx →
            els !! k = Some x ∧ els !! c = Some cx) as Hold.
  { intros k x c cx Hk Hc Hcx. destruct (decide (k = id)) as [->|Hkid].
    { rewrite lookup_insert_eq in Hk. injection Hk as <-.
      rewrite Hch in Hc. by apply elem_of_nil in Hc. }
    rewrite lookup_insert_ne in Hk by done. split; [done|].
    destruct (decide (c = id)) as [->|Hcid]; [by destruct (Hun k x Hk)|].
    by rewrite lookup_insert_ne in Hcx. }
  split_and!.
  - intros k x c cx Hk Hc Hcx. destruct (Hold k x c cx Hk Hc Hcx). by eapply Hcons.
  - intros k x c cx Hk Hc Hcx. destruct (Hold k x c cx Hk Hc Hcx). by eapply Hlink.
  - by rewrite lookup_insert_ne.
Qed.

Lemma grownBy_attached (N : jsstring → Prop) (els : gmap jsstring Element)
    id pid p element children' :
  N id → els !! pid = Some p → el_children element = [] →
  (∀ c, c ∈ children' → c = id ∨ c ∈ el_children p) →
  grownBy N els (<[pid := withChildren children' p]> (<[id := element]> els)).
Proof.
  intros HN Hp Hch Hin k x Hk.
  apply lookup_insert_Some in Hk as [[<- <-]|[Hne Hk]].
  { split; [right; eauto|]. cbn. intros c [->|Hc]%Hin; [by left|].
    right. right. eauto. }
  apply lookup_insert_Some in Hk as [[<- <-]|[Hne' Hk]].
  { split; [by left|]. rewrite Hch. intros c Hc. by apply elem_of_nil in Hc. }
  by apply (grownBy_refl N els k x).
Qed.

Lemma perform_grows nanoid stack (op : Op) (m m' : Manager) :
  unusedIds nanoid m →
  perform nanoid stack op m = Some (Returned (), m') →
  drawn m ≤ drawn m' ∧
  grownBy (drawnBetween nanoid (drawn m) (drawn m'))
    (elements (state m)) (elements (state m')).
Proof.
  intros (Hfresh & Hinj & Hroot) H.
  assert (∀ j (a b : gmap jsstring Element),
    grownBy (λ _, False) a b → grownBy (drawnBetween nanoid (drawn m) j) a b) as Hnone.
  { intros j a b. apply grownBy_mono. done. }
  assert (∀ j, drawn m < j → drawnBetween nanoid (drawn m) j (nanoid (drawn m))) as Hfirst.
  { intros j Hj. exists (drawn m). split; [lia|by left]. }
  destruct op; cbn [perform] in H.
  - run_op H createElement.
    { destruct (Hfresh (drawn m)) as (_ & [Hn _] & _); [done|]. congruence. }
    split; [lia|]. apply grownBy_attached; [apply Hfirst; lia|done..|].
    intros c. by rewrite elem_of_insertChild_iff.
  - run_op H updateElement.
    all: split; [done|]; apply Hnone, grownBy_sub.
    all: intros k x' Hk; destruct (decide (k = up_id p)) as [->|Hne];
      [rewrite lookup_insert_eq in Hk; injection Hk as <-; by exists e
      |rewrite lookup_insert_ne in Hk by done; by exists x'].
  - run_op H deleteElement. split; [done|]. apply Hnone, grownBy_sub.
    pose proof (deleteRecursive_removes _ _ _ _ E1) as Hr.
    assert (∀ k x, g !! k = Some x → elements (state m) !! k = Some x) as Hsub.
    { intros k x Hk. destruct (Hr k) as [<-|[Hn _]]; congruence. }
    intros k x' Hk. apply lookup_alter_Some in Hk as [(-> & x & Hx & ->)|[_ Hk]].
    + exists x. split; [by apply Hsub|]. cbn. by intros c [_ Hc]%list_elem_of_filter.
    + exists x'. split; [by apply Hsub|done].
  - run_op H moveElement.
    + split; [done|]. apply Hnone.
      by apply (grownBy_relinked (elements (state m)) id l newParentId insertIndex).
    + split; [done|]. apply Hnone.
      eapply grownBy_trans;
        [by apply (grownBy_relinked (elements (state m)) id l newParentId insertIndex)|].
      eapply grownBy_stamped. by eapply updatePageId_stamps.
  - run_op H createElementTree.
    destruct (createRecursive_grown nanoid (el_pageId e) parentId defs
                (elements (state m), drawn m)) as [H1 H2].
    split; [done|]. eapply grownBy_mono; [|done].
    intros x (k & Hk & ->). exists k. split; [done|by left].
  - unfold createPage in H. unfold_action. cbn -[js] in H. simplify_eq.
    cbn -[js]. split; [lia|].
    apply grownBy_insert.
    + left. exists (S (drawn m)). split; [lia|by right].
    + intros c Hc. by apply elem_of_nil in Hc.
  - unfold clonePage in H. unfold_action. cbn -[js] in H.
    destruct (objGet (pages (state m)) sourcePageId) as [sourcePage|] eqn:Hsrc;
      cbn -[js] in H; [|by destruct (inheritedName sourcePageId)].
    simplify_eq. cbn -[js].
    set (entries := filter _ (map_to_list (elements (state m)))).
    split; [lia|]. eapply grownBy_mono; [|apply grownBy_cloneElements].
    + intros x (q & -> & Hq)%list_elem_of_fmap.
      apply cloneIds_drawn in Hq as (k & Hk & Hor). exists k. split; [lia|done].
    + intros q Hq. split.
      * assert (q.1 ∈ entries.*1) as Hin.
        { rewrite <- (cloneIds_keys nanoid (pg_rootId sourcePage) entries (S (drawn m))).
          apply list_elem_of_fmap. by exists q. }
        apply list_elem_of_fmap in Hin as ([k x] & -> & Hin).
        apply list_elem_of_filter in Hin as [_ Hin].
        apply elem_of_map_to_list in Hin. by exists x.
      * apply cloneIds_fresh in Hq as (k & Hk & [->| ->]); apply Hfresh; lia.
  - unfold deletePage in H. unfold_action. cbn in H. step_action H.
    all: simplify_eq; cbn.
    all: split; [done|]; apply Hnone, grownBy_sub.
    all: intros k x' [Hk _]%map_lookup_filter_Some; by exists x'.
  - run_op H renamePage. split; [done|apply grownBy_refl].
  - run_op H setActivePage. split; [done|apply grownBy_refl].
  - run_op H setStyles. all: split; [done|apply grownBy_refl].
  - run_op H batchSetStyles. split; [done|apply grownBy_refl].
  - run_op H deleteStyles. split; [done|apply grownBy_refl].
  - run_op H setDesignTokens. all: split; [done|apply grownBy_refl].
  - run_op H updateTokenWithPropagation. all: split; [done|apply grownBy_refl].
  - run_op H setDesignType. split; [done|apply grownBy_refl].
  - run_op H setViewport. all: split; [done|apply grownBy_refl].
Qed.

Lemma perform_unusedIds nanoid stack (op : Op) (m m' : Manager) :
  unusedIds nanoid m →
  perform nanoid stack op m = Some (Returned (), m') →
  unusedIds nanoid m'.
Proof.
  intros Hids H. destruct (perform_grows _ _ _ _ _ Hids H) as [Hle Hg].
  destruct Hids as (Hfresh & Hinj & Hroot). split_and!.
  - intros n Hn. destruct (Hfresh n) as (Hne & Hu1 & Hu2); [lia|]. split_and!; [done|..].
    + eapply grownBy_unused; [done..|].
      intros (k & Hk & [Heq|Heq]).
      * apply Hinj in Heq; lia.
      * by apply Hroot in Heq; lia.
    + eapply grownBy_unused; [done..|].
      intros (k & Hk & [Heq|Heq]).
      * symmetry in Heq. by apply Hroot in Heq; lia.
      * apply app_inv_head in Heq. apply Hinj in Heq; lia.
  - intros i j Hi Hj. apply Hinj; lia.
  - intros i j Hi Hj. apply Hroot; lia.
Qed.

Lemma checkChildren_linked (els : gmap jsstring Element) :
  checkChildren (λ id _ _ ce, bool_decide (el_parentId ce = Some id)) els = true →
  childrenLinked els.
Proof.
  intros Hcheck id e c ce He Hc Hce.
  eapply bool_decide_eq_true_1, (checkChildren_sound _ _ Hcheck); eauto.
Qed.

Lemma sampleIds_unused : unusedIds sampleIds sampleManager.
Proof.
  assert (∀ id : jsstring, id ≠ js "root-1" →
            unused (elements (state sampleManager)) id) as Hun.
  { intros id Hid. cbn [sampleManager state createDefaultState elements]. split.
    - by apply lookup_singleton_None.
    - intros k e [<- <-]%lookup_singleton_Some. apply not_elem_of_nil. }
  split_and!.
  - intros n _. split_and!; [discriminate|apply Hun; discriminate..].
  - intros i j _ _ Heq. unfold sampleIds in Heq. apply app_inv_head in Heq.
    injection Heq as Heq. lia.
  - intros i j _ _. discriminate.
Qed.

(** X16. The element tree keeps its shape under every call that returns:
    when every node carries the page of its parent, every listed child
    that exists names the listing node as its parent, no node has the
    empty identifier, and the identifiers not yet drawn are non-empty,
    distinct and in use nowhere (as keys or as listed children, with or
    without the prefix of a root), then the same holds after the call, so
    after any sequence of calls. *)
Theorem calls_keep_tree_shape nanoid stack (op : Op) (m m' : Manager) :
  treeShaped (elements (state m)) → unusedIds nanoid m →
  perform nanoid stack op m = Some (Returned (), m') →
  treeShaped (elements (state m')) ∧ unusedIds nanoid m'.
Proof.
  intros Hshape Hids H. split; [|by eapply perform_unusedIds].
  destruct Hids as (Hfresh & Hinj & Hroot). destruct op; cbn [perform] in H.
  - run_op H createElement.
    { destruct (Hfresh (drawn m)) as (_ & [Hnone _] & _); [done|]. congruence. }
    destruct (Hfresh (drawn m)) as (Hne & Hun & _); [done|].
    assert (cp_parentId p ≠ nanoid (drawn m)) as Hpid by done.
    refine (proj1 (attached_shape (elements (state m)) _ (nanoid (drawn m))
              (cp_parentId p) e _ _ Hshape Hun Hne E _ _ _ _
              (λ k, insert_insert_lookup _ _ _ _ _ k Hpid))); [done..|].
    intros c. apply elem_of_insertChild_iff.
  - run_op H updateElement.
    all: apply (treeShaped_shrink (elements (state m))); [done|].
    all: intros k x' Hk; destruct (decide (k = up_id p)) as [->|Hne];
      [rewrite lookup_insert_eq in Hk; injection Hk as <-; by exists e
      |rewrite lookup_insert_ne in Hk by done; by exists x'].
  - run_op H deleteElement.
    destruct Hshape as (Hcons & Hlink & Hempty).
    destruct (deleteRecursive_touches _ _ _ _ _ Hcons E E1) as [_ Hsub].
    apply (treeShaped_shrink (elements (state m))); [done|].
    intros k x' Hk. apply lookup_alter_Some in Hk as [(-> & x & Hx & ->)|[_ Hk]].
    + exists x. split_and!; [by apply Hsub|done..|].
      cbn. intros c [_ Hc]%list_elem_of_filter. done.
    + exists x'. split_and!; [by apply Hsub|done..].
  - destruct Hshape as (Hcons & Hlink & Hempty).
    assert (∀ els4 : gmap jsstring Element,
      dom els4 = dom (elements (state m)) → els4 !! [] = None) as Hdom.
    { intros els4 Hd. apply not_elem_of_dom. rewrite Hd. by apply not_elem_of_dom. }
    run_op H moveElement.
    + destruct (moved_shape (elements (state m))
                  (relinked (elements (state m)) id l newParentId insertIndex)
                  id l newParentId insertIndex e e0 Hcons Hlink E E3 E1)
        as (H1 & H2 & H3); [by rewrite decide_True|].
      split_and!; [done..|]. by apply Hdom.
    + destruct (moved_shape (elements (state m)) g
                  id l newParentId insertIndex e e0 Hcons Hlink E E3 E1)
        as (H1 & H2 & H3); [rewrite decide_False by done; eauto|].
      split_and!; [done..|]. by apply Hdom.
  - run_op H createElementTree.
    apply (createRecursive_shape nanoid (el_pageId e) (drawn m) Hinj
             (λ k Hk, proj1 (Hfresh k Hk)) parentId defs
             (elements (state m), drawn m) e); [done..| |done|done].
    intros k Hk. by apply Hfresh.
  - unfold createPage in H. unfold_action. cbn -[js] in H. simplify_eq.
    cbn -[js].
    destruct (Hfresh (S (drawn m))) as (_ & _ & Hun); [lia|].
    apply rooted_shape; [done..|discriminate|done].
  - unfold clonePage in H. unfold_action. cbn -[js] in H.
    destruct (objGet (pages (state m)) sourcePageId) as [sourcePage|] eqn:Hsrc;
      cbn -[js] in H; [|by destruct (inheritedName sourcePageId)].
    simplify_eq. cbn -[js].
    set (entries := filter _ (map_to_list (elements (state m)))).
    apply cloneElements_shape; [done|..].
    + rewrite cloneIds_keys.
      apply (sublist_NoDup _ _ (NoDup_fst_map_to_list (elements (state m)))).
      apply fmap_sublist, sublist_filter.
    + apply (cloneIds_NoDup nanoid _ (drawn m)); [done..|lia].
    + intros q Hq. split_and!.
      * assert (q.1 ∈ entries.*1) as Hin.
        { rewrite <- (cloneIds_keys nanoid (pg_rootId sourcePage) entries (S (drawn m))).
          apply list_elem_of_fmap. by exists q. }
        apply list_elem_of_fmap in Hin as ([k x] & -> & Hin).
        apply list_elem_of_filter in Hin as [_ Hin].
        apply elem_of_map_to_list in Hin. by exists x.
      * apply cloneIds_fresh in Hq as (k & Hk & [->| ->]); apply Hfresh; lia.
      * apply cloneIds_fresh in Hq as (k & Hk & [->| ->]); [apply Hfresh; lia|done].
  - unfold deletePage in H. unfold_action. cbn in H. step_action H.
    all: simplify_eq; cbn.
    all: apply (treeShaped_shrink (elements (state m))); [done|].
    all: intros k x' [Hk _]%map_lookup_filter_Some; by exists x'.
  - run_op H renamePage. done.
  - run_op H setActivePage. done.
  - run_op H setStyles. all: done.
  - run_op H batchSetStyles. done.
  - run_op H deleteStyles. done.
  - run_op H setDesignTokens. all: done.
  - run_op H updateTokenWithPropagation. all: done.
  - run_op H setDesignType. done.
  - run_op H setViewport. all: done.
Qed.

Lemma calls_keep_tree_shape_witness :
  let op := CreateElementTree (js "root-1") sampleDefs in
  let m' := after (perform sampleIds 0 op) sampleManager in
  treeShaped (elements (state m')) ∧ unusedIds sampleIds m'.
Proof.
  intros op m'.
  refine (calls_keep_tree_shape sampleIds 0 op sampleManager m' _ _ _).
  - split_and!.
    + apply checkChildren_pageIds. vm_compute. reflexivity.
    + apply checkChildren_linked. vm_compute. reflexivity.
    + vm_compute. reflexivity.
  - exact sampleIds_unused.
  - vm_compute. reflexivity.
Defined.
(** ** Undoing a call *)

Lemma withChildren_same (e : Element) : withChildren (el_children e) e = e.
Proof. by destruct e. Qed.

Lemma filter_insertChild (children : list jsstring) idx (id : jsstring) :
  id ∉ children → filter (λ cid, cid ≠ id) (insertChild children idx id) = children.
Proof.
  intros Hid.
  assert (∀ l : list jsstring, id ∉ l → filter (λ cid, cid ≠ id) l = l) as Hkeep.
  { induction l as [|c l IH]; [done|]. intros [Hc Hl]%not_elem_of_cons.
    rewrite filter_cons_True by done. by rewrite IH. }
  destruct idx as [i|]; cbn; [unfold spliceInsert; cbn zeta|].
  - rewrite filter_app, filter_cons_False by naive_solver.
    rewrite <- filter_app, take_drop. by apply Hkeep.
  - rewrite filter_app, filter_cons_False by naive_solver.
    rewrite filter_nil, app_nil_r. by apply Hkeep.
Qed.

(** X17. [deleteElement] undoes [createElement]: under an existing
    parent with a non-empty identifier, with an identifier in use nowhere
    and room for one call on the stack, creating a node, wherever it is
    inserted, and deleting it gives the document back as it was. *)
Theorem createElement_deleteElement_round_trip nanoid stack (p : CreateParams)
    (m : Manager) (parent : Element) :
  elements (state m) !! cp_parentId p = Some parent →
  cp_parentId p ≠ [] →
  unused (elements (state m)) (nanoid (drawn m)) →
  0 < stack →
  ∃ element m1 m2,
    createElement nanoid p m = Some (Returned element, m1) ∧
    el_id element = nanoid (drawn m) ∧
    deleteElement stack (el_id element) m1 = Some (Returned (), m2) ∧
    state m2 = state m.
Proof.
  intros Hp Hne [Hnone Hun] Hstack.
  assert (nanoid (drawn m) ≠ cp_parentId p) as Hid by congruence.
  assert (truthy (cp_parentId p) = true) as Htruthy by (by destruct (cp_parentId p)).
  destruct stack as [|stack]; [lia|].
  eexists _, _, _. split.
  { unfold createElement. unfold_action. cbn. rewrite Hp. cbn.
    rewrite decide_False by done. cbn. reflexivity. }
  split; [reflexivity|]. cbn.
  unfold deleteElement. unfold_action. cbn.
  rewrite lookup_insert_ne by done. rewrite lookup_insert_eq. cbn.
  rewrite Htruthy. cbn.
  split; [reflexivity|]. cbn.
  rewrite delete_insert_ne by done. rewrite delete_insert_eq.
  rewrite delete_id by done.
  rewrite alter_insert_eq. cbn beta.
  replace (withChildren _ (withChildren _ parent)) with parent.
  - rewrite insert_id by done. by destruct (state m).
  - pose proof (filter_insertChild (el_children parent) (cp_insertIndex p)
                  (nanoid (drawn m)) (Hun _ _ Hp)) as Hf.
    unfold withChildren. cbn. rewrite Hf. by destruct parent.
Qed.

Lemma createElement_deleteElement_round_trip_witness :
  ∃ element m1 m2,
    createElement sampleIds (sampleCreate "div" (js "root-1") (Some 0%Z)) sampleManager
    = Some (Returned element, m1) ∧
    el_id element = js "id0" ∧
    deleteElement 1 (el_id element) m1 = Some (Returned (), m2) ∧
    state m2 = state sampleManager.
Proof.
  refine (createElement_deleteElement_round_trip sampleIds 1
            (sampleCreate "div" (js "root-1") (Some 0%Z)) sampleManager _ _ _ _ _).
  - vm_compute. reflexivity.
  - discriminate.
  - exact (proj1 (proj2 (proj1 sampleIds_unused 0 (le_n 0)))).
  - lia.
Defined.

Lemma filter_absent (l : list jsstring) (id : jsstring) :
  id ∉ l → filter (λ cid, cid ≠ id) l = l.
Proof.
  induction l as [|c l IH]; [done|]. intros [Hc Hl]%not_elem_of_cons.
  rewrite filter_cons_True by done. by rewrite IH.
Qed.

Lemma filter_middle (pre post : list jsstring) (id : jsstring) :
  id ∉ pre → id ∉ post → filter (λ cid, cid ≠ id) (pre ++ id :: post) = pre ++ post.
Proof.
  intros Hpre Hpost. rewrite filter_app, filter_cons_False by naive_solver.
  by rewrite !filter_absent.
Qed.

Lemma spliceInsert_middle (pre post : list jsstring) (id : jsstring) :
  spliceInsert (pre ++ post) (Z.of_nat (length pre)) id = pre ++ id :: post.
Proof.
  unfold spliceInsert, spliceStart. cbn zeta.
  destruct (Z.ltb_spec (Z.of_nat (length pre)) 0) as [Hneg|_]; [lia|].
  rewrite length_app.
  replace (Z.to_nat (Z.min (Z.of_nat (length pre))
                       (Z.of_nat (length pre + length post)))) with (length pre) by lia.
  by rewrite take_app_length, drop_app_length.
Qed.

(** The node a move and the move back leave. *)
Lemma relinkedNode_back id l np idx k x pre post :
  (l = k → el_children x = pre ++ id :: post) → id ∉ pre → id ∉ post →
  (l ≠ k → id ∉ el_children x) →
  (id = k → el_parentId x = Some l) →
  relinkedNode id np l (Some (Z.of_nat (length pre))) k (relinkedNode id l np idx k x) = x.
Proof.
  intros Hl Hpre Hpost Hother Hparent.
  destruct x as [xid tag classes attributes text children parent page].
  cbn in Hl, Hother, Hparent. unfold relinkedNode.
  destruct (decide (l = k)) as [Hlk|Hlk].
  - rewrite (Hl Hlk). 
    destruct (decide (id = k)) as [Hik|Hik]; destruct (decide (np = k)) as [Hnk|Hnk];
      cbn; rewrite ?filter_middle, ?filter_insertChild, ?filter_absent,
             ?spliceInsert_middle, ?(Hparent Hik); try done.
    all: try (rewrite not_elem_of_app; done).
  - pose proof (Hother Hlk) as Hno.
    destruct (decide (id = k)) as [Hik|Hik]; destruct (decide (np = k)) as [Hnk|Hnk];
      cbn; rewrite ?filter_insertChild, ?(Hparent Hik); done.
Qed.

(** X20. A move within a page can be undone: in a well-shaped tree,
    when the node stands once among the children of its parent, after
    [pre], moving it under a node of the same page, at any index, and then
    back under its old parent at index [length pre] gives the document back
    as it was.  Both calls return, whatever the stack. *)
Theorem moveElement_back stack (id newParentId : jsstring) (insertIndex : option Z)
    (m : Manager) (e oldParent newParent : Element) (oldParentId : jsstring)
    (pre post : list jsstring) :
  treeShaped (elements (state m)) →
  elements (state m) !! id = Some e → el_parentId e = Some oldParentId →
  elements (state m) !! oldParentId = Some oldParent →
  el_children oldParent = pre ++ id :: post → id ∉ pre → id ∉ post →
  elements (state m) !! newParentId = Some newParent →
  el_pageId newParent = el_pageId e →
  ∃ e1 m1 e2 m2,
    moveElement stack id newParentId insertIndex m = Some (Returned e1, m1) ∧
    el_parentId e1 = Some newParentId ∧
    moveElement stack id oldParentId (Some (Z.of_nat (length pre))) m1
    = Some (Returned e2, m2) ∧
    state m2 = state m.
Proof.
  intros (Hcons & Hlink & Hempty) He Hpar Hold Hch Hpre Hpost Hnew Hpage.
  assert (oldParentId ≠ []) as Hl by congruence.
  assert (newParentId ≠ []) as Hn by congruence.
  assert (truthy oldParentId = true) as Htl by (by destruct oldParentId).
  assert (truthy newParentId = true) as Htn by (by destruct newParentId).
  assert (el_pageId oldParent = el_pageId e) as Hpl.
  { symmetry. eapply (Hcons oldParentId oldParent id e); [done| |done].
    rewrite Hch. set_solver. }
  remember (relinked (elements (state m)) id oldParentId newParentId insertIndex)
    as els1 eqn:Hels1.
  assert (∀ k, els1 !! k
               = relinkedNode id oldParentId newParentId insertIndex k
                   <$> elements (state m) !! k) as H1
    by (intros k; subst els1; apply relinked_lookup).
  remember (relinkedNode id oldParentId newParentId insertIndex id e) as e1 eqn:He1.
  assert (el_parentId e1 = Some newParentId) as Hp1.
  { subst e1.
    destruct (relinkedNode_fields id oldParentId newParentId insertIndex id e)
      as (_ & -> & _). by rewrite decide_True. }
  assert (el_pageId e1 = el_pageId e) as Hpg1.
  { subst e1.
    by destruct (relinkedNode_fields id oldParentId newParentId insertIndex id e)
      as (-> & _). }
  remember (relinkedNode id oldParentId newParentId insertIndex oldParentId oldParent)
    as l1 eqn:Hl1.
  assert (el_pageId l1 = el_pageId e) as Hpgl.
  { subst l1. destruct (relinkedNode_fields id oldParentId newParentId insertIndex
                oldParentId oldParent) as (-> & _). done. }
  assert (relinked els1 id newParentId oldParentId (Some (Z.of_nat (length pre)))
          = elements (state m)) as Hback.
  { apply map_eq. intros k. rewrite relinked_lookup, H1.
    destruct (elements (state m) !! k) as [x|] eqn:Hk; [|done]. cbn. f_equal.
    apply (relinkedNode_back _ _ _ _ _ _ pre post); [|done|done| |].
    - intros <-. rewrite Hold in Hk. by injection Hk as <-.
    - intros Hne Hin. apply Hne.
      pose proof (Hlink k x id e Hk Hin He) as Hp. congruence.
    - intros <-. rewrite He in Hk. injection Hk as <-. done. }
  eexists _, _, _, _. split.
  { unfold moveElement. unfold_action. cbn. rewrite He. cbn. rewrite Hpar. cbn.
    rewrite Htl. cbn. rewrite Hnew. cbn.
    destruct (decide (el_pageId e = el_pageId newParent)) as [_|Hne]; [|congruence].
    cbn.
    change (alter _ newParentId (alter _ id (alter _ oldParentId (elements (state m)))))
      with (relinked (elements (state m)) id oldParentId newParentId insertIndex).
    rewrite <- Hels1. rewrite H1, He. cbn. rewrite <- He1. reflexivity. }
  split; [done|]. split.
  { unfold moveElement. unfold_action. cbn. rewrite (H1 id), He. cbn. rewrite <- He1.
    rewrite Hp1. cbn. rewrite Htn. cbn. rewrite (H1 oldParentId), Hold. cbn.
    rewrite <- Hl1.
    destruct (decide (el_pageId e1 = el_pageId l1)) as [_|Hne]; [|congruence].
    cbn.
    change (alter _ oldParentId (alter _ id (alter _ newParentId els1)))
      with (relinked els1 id newParentId oldParentId (Some (Z.of_nat (length pre)))).
    reflexivity. }
  cbn. rewrite Hback. by destruct (state m).
Qed.

Lemma sampleSiblings_shaped : treeShaped (elements (state sampleSiblings)).
Proof.
  split_and!.
  - apply checkChildren_pageIds. vm_compute. reflexivity.
  - apply checkChildren_linked. vm_compute. reflexivity.
  - vm_compute. reflexivity.
Qed.

Lemma moveElement_back_witness :
  ∃ e1 m1 e2 m2,
    moveElement 0 (js "id0") (js "id1") None sampleSiblings = Some (Returned e1, m1) ∧
    el_parentId e1 = Some (js "id1") ∧
    moveElement 0 (js "id0") (js "root-1") (Some 0%Z) m1 = Some (Returned e2, m2) ∧
    state m2 = state sampleSiblings.
Proof.
  refine (moveElement_back 0 (js "id0") (js "id1") None sampleSiblings _ _ _
            (js "root-1") [] [js "id1"] sampleSiblings_shaped _ _ _ _ _ _ _ _).
  - vm_compute. reflexivity.
  - reflexivity.
  - vm_compute. reflexivity.
  - reflexivity.
  - apply not_elem_of_nil.
  - intros Hin. apply list_elem_of_singleton in Hin. discriminate Hin.
  - vm_compute. reflexivity.
  - reflexivity.
Defined.

(** ** Cloning a page *)

Lemma cloneSteps_other (pageId : jsstring) (full : list (jsstring * jsstring)) :
  ∀ l (a : gmap jsstring Element) k,
    k ∉ l.*2 → foldl (cloneStep pageId full) a l !! k = a !! k.
Proof.
  induction l as [|p l IH]; intros a k Hk; [done|].
  rewrite fmap_cons in Hk. apply not_elem_of_cons in Hk as [Hkp Hk].
  cbn [foldl]. rewrite IH by done. rewrite cloneStep_clonedNode.
  destruct (a !! p.1); [|done]. by rewrite lookup_insert_ne.
Qed.

(** Every entry of the identifier map has its copy. *)
Lemma cloneElements_copies (pageId : jsstring) (idMap : list (jsstring * jsstring))
    (els : gmap jsstring Element) :
  NoDup idMap.*2 →
  (∀ p, p ∈ idMap → is_Some (els !! p.1) ∧ els !! p.2 = None) →
  ∀ p src, p ∈ idMap → els !! p.1 = Some src →
    cloneElements pageId idMap els !! p.2 = Some (clonedNode pageId idMap p.2 src).
Proof.
  intros Hnd Hmap. rewrite cloneElements_steps.
  assert (∀ full l a,
    NoDup l.*2 →
    (∀ p, p ∈ l → is_Some (els !! p.1) ∧ els !! p.2 = None) →
    (∀ k x, els !! k = Some x → a !! k = Some x) →
    ∀ p src, p ∈ l → els !! p.1 = Some src →
      foldl (cloneStep pageId full) a l !! p.2
      = Some (clonedNode pageId full p.2 src)) as Hgen.
  { intros full. induction l as [|q l IH]; intros a Hl Hfresh Ha p src Hp Hsrc;
      [by apply elem_of_nil in Hp|].
    rewrite fmap_cons in Hl. apply NoDup_cons in Hl as [Hq Hl].
    cbn [foldl]. apply elem_of_cons in Hp as [->|Hp].
    - rewrite cloneSteps_other by done. rewrite cloneStep_clonedNode.
      rewrite (Ha _ _ Hsrc). by rewrite lookup_insert_eq.
    - apply IH; [done| |..|done|done].
      + intros r Hr. apply Hfresh. set_solver.
      + intros k x Hk. rewrite cloneStep_clonedNode.
        destruct (Hfresh q) as [[qsrc Hqsrc] Hqnew]; [set_solver|].
        rewrite (Ha _ _ Hqsrc). rewrite lookup_insert_ne; [by apply Ha|]. congruence. }
  intros p src Hp Hsrc. by apply (Hgen idMap idMap els).
Qed.

(** X18. [clonePage] copies the page and touches nothing else: with
    identifiers not yet in use and a page identifier that is new, it
    returns a page with the new name, the styles of the source and the copy
    of its root, stored under its identifier; the elements of the document
    are as before; and an identifier map pairs, one to one, the elements of
    the source page with those of the new page, each of which is the copy
    of its source: same tag, classes, attributes and text, its children and
    its parent replaced by their copies. *)
Theorem clonePage_copies nanoid (sourcePageId newName : jsstring) (m : Manager)
    (sourcePage : Page) :
  objGet (pages (state m)) sourcePageId = Some sourcePage →
  unusedIds nanoid m → elementsOwned (state m) →
  js "page-" ++ nanoid (drawn m) ∉ objKeys (pages (state m)) →
  ∃ page m' idMap,
    clonePage nanoid sourcePageId newName m = Some (Returned page, m') ∧
    page = mkPage (js "page-" ++ nanoid (drawn m)) newName
             (pg_rootId sourcePage ≫= idMapGet idMap) (pg_styles sourcePage) ∧
    objGet (pages (state m')) (pg_id page) = Some page ∧
    NoDup idMap.*1 ∧ NoDup idMap.*2 ∧
    (∀ k, k ∈ idMap.*1 ↔
          ∃ x, elements (state m) !! k = Some x ∧ el_pageId x = sourcePageId) ∧
    (∀ k', k' ∈ idMap.*2 ↔
           ∃ y, elements (state m') !! k' = Some y ∧ el_pageId y = pg_id page) ∧
    (∀ k k' src, (k, k') ∈ idMap → elements (state m) !! k = Some src →
       elements (state m') !! k' = Some (clonedNode (pg_id page) idMap k' src)) ∧
    (∀ k x, elements (state m) !! k = Some x → elements (state m') !! k = Some x).
Proof.
  intros Hsrc (Hfresh & Hinj & Hroot) Howned Hpage.
  set (entries := filter (λ kv : jsstring * Element, el_pageId kv.2 = sourcePageId)
                    (map_to_list (elements (state m)))).
  set (idMap := cloneIds nanoid (pg_rootId sourcePage) (S (drawn m)) entries).
  assert (∀ k, k ∈ idMap.*1 ↔
               ∃ x, elements (state m) !! k = Some x ∧ el_pageId x = sourcePageId) as Hkeys.
  { intros k. subst idMap. rewrite cloneIds_keys. subst entries. split.
    - intros ([k0 x] & -> & Hin)%list_elem_of_fmap.
      apply list_elem_of_filter in Hin as [Hp Hin].
      apply elem_of_map_to_list in Hin. by exists x.
    - intros (x & Hx & Hp). apply list_elem_of_fmap. exists (k, x). split; [done|].
      apply list_elem_of_filter. split; [done|]. by apply elem_of_map_to_list. }
  assert (∀ p, p ∈ idMap →
            is_Some (elements (state m) !! p.1) ∧ elements (state m) !! p.2 = None)
    as Hmap.
  { intros p Hp. split.
    - assert (p.1 ∈ idMap.*1) as Hin by (apply list_elem_of_fmap; by exists p).
      apply Hkeys in Hin as (x & Hx & _). by exists x.
    - apply cloneIds_fresh in Hp as (k & Hk & [->| ->]); apply Hfresh; lia. }
  assert (NoDup idMap.*2) as Hnd2.
  { apply (cloneIds_NoDup nanoid _ (drawn m)); [done..|lia]. }
  exists (mkPage (js "page-" ++ nanoid (drawn m)) newName
            (pg_rootId sourcePage ≫= idMapGet idMap) (pg_styles sourcePage)).
  eexists. exists idMap. split.
  { unfold clonePage. unfold_action. cbn -[js]. rewrite Hsrc. cbn -[js]. reflexivity. }
  cbn -[js]. split_and!.
  - done.
  - rewrite objGet_objSet. by rewrite decide_True.
  - subst idMap. rewrite cloneIds_keys.
    apply (sublist_NoDup _ _ (NoDup_fst_map_to_list (elements (state m)))).
    apply fmap_sublist, sublist_filter.
  - done.
  - done.
  - intros k'. split.
    + intros (p & -> & Hp)%list_elem_of_fmap.
      destruct (Hmap p Hp) as [[src Hsrc'] _].
      eexists. split; [by apply cloneElements_copies|done].
    + intros (y & Hy & Hyp).
      destruct (cloneElements_nodes _ _ _ Hmap k' y Hy)
        as [Hold|(p & src & Hp & -> & _)].
      * exfalso. apply Hpage. rewrite <- Hyp. by eapply Howned.
      * apply list_elem_of_fmap. by exists p.
  - intros k k' src Hin Hk.
    by apply (cloneElements_copies _ idMap (elements (state m)) Hnd2 Hmap (k, k') src).
  - intros k x Hk. rewrite cloneElements_steps, cloneSteps_other; [done|].
    intros (p & -> & Hp)%list_elem_of_fmap. destruct (Hmap p Hp) as [_ Hnone]. congruence.
Qed.

Lemma clonePage_copies_witness :
  ∃ page m' idMap,
    clonePage sampleIds (js "page-1") (js "Copy") sampleManager
    = Some (Returned page, m') ∧
    page = mkPage (js "page-id0") (js "Copy")
             (Some (js "root-1") ≫= idMapGet idMap) ∅ ∧
    objGet (pages (state m')) (pg_id page) = Some page ∧
    NoDup idMap.*1 ∧ NoDup idMap.*2 ∧
    (∀ k, k ∈ idMap.*1 ↔
          ∃ x, elements (state sampleManager) !! k = Some x ∧
               el_pageId x = js "page-1") ∧
    (∀ k', k' ∈ idMap.*2 ↔
           ∃ y, elements (state m') !! k' = Some y ∧ el_pageId y = pg_id page) ∧
    (∀ k k' src, (k, k') ∈ idMap → elements (state sampleManager) !! k = Some src →
       elements (state m') !! k' = Some (clonedNode (pg_id page) idMap k' src)) ∧
    (∀ k x, elements (state sampleManager) !! k = Some x →
            elements (state m') !! k = Some x).
Proof.
  refine (clonePage_copies sampleIds (js "page-1") (js "Copy") sampleManager
            (mkPage (js "page-1") (js "Home") (Some (js "root-1")) ∅)
            _ sampleIds_unused createDefaultState_owned _).
  - vm_compute. reflexivity.
  - refine (bool_decide_unpack _ _). vm_compute. exact I.
Defined.

(** ** The token tool *)



